(** * AnimalMaker: the particle transformation engine

    A shallow embedding of [src/animation_system.py] (classes [Particle]
    and [AnimationManager]) and of the progressive reveal of
    [src/animal_maker.py] ([AnimalMakerApp.draw]), followed by the
    application around the engine: the canvas of
    [src/drawing_canvas.py], the events, updates and main loop of
    [src/animal_maker.py] (module [AnimalMaker]) and the matching of
    recognized text against the animal names of
    [src/ocr_recognition.py].

    Modelling conventions.
    - Python [int] is [Z]; lengths, indices and bitmap sizes are [nat].
    - Python [float] is modelled by exact rational arithmetic ([Q]): the
      development reasons about the formulas of the code, not about
      binary64 rounding.  [int(x)] on a float is truncation toward zero.
    - [math.sin], [math.cos], [math.pi], [math.hypot], [x ** 1.5] and
      [x ** 0.5] have no rational counterpart and are parameters.
    - The position formulas of the three interpolating updates are also
      written in binary64 (module [Binary64]), to check that what holds
      of them at progress 1 in exact arithmetic survives rounding.
    - The module-level random generator is an oracle read through a
      counter that every draw advances.
    - An exception is an explicit outcome; a [while] loop takes fuel.
    - Python [str] is the list of its characters.
    - pygame, PIL, the recognition engines and the image manager are
      parameters of the application (class [AnimalMaker.Services]); the
      clock is read by the caller and passed in. *)

From Stdlib Require Import ZArith QArith Qround Qabs Lia Lqa Floats Sorted.
From stdpp Require Import base list gmap sets fin_sets strings.

Local Open Scope Z_scope.

(** ** Outcomes of a call *)

Inductive exn : Type :=
| ZeroDivisionError
| ValueError
| IndexError
| OverflowError.

Inductive outcome (A : Type) : Type :=
| Ok (a : A)
| Raise (e : exn)
| OutOfFuel.
Arguments Ok {A} a.
Arguments Raise {A} e.
Arguments OutOfFuel {A}.

(** ** Python primitives *)

Module Py.

(** [int(x)] for a float [x]: the integer part, rounded toward zero. *)
Definition int (x : Q) : Z := Z.quot (Qnum x) (Zpos (Qden x)).

(** [math.floor(x)]. *)
Definition floor (x : Q) : Z := Qfloor x.

(** [round(x)]: nearest integer, ties to the even one. *)
Definition round (x : Q) : Z :=
  let f := Qfloor x in
  let r := (x - inject_Z f)%Q in
  match (r ?= 1 # 2)%Q with
  | Lt => f
  | Gt => f + 1
  | Eq => if Z.even f then f else f + 1
  end.

(** [x < y], [x <= y] and [x >= y] on floats. *)
Definition ltb (x y : Q) : bool :=
  match (x ?= y)%Q with Lt => true | _ => false end.
Definition leb (x y : Q) : bool :=
  match (x ?= y)%Q with Gt => false | _ => true end.
Definition geb (x y : Q) : bool := leb y x.

(** [max(a, b)] and [min(a, b)] return the first argument unless the
    second is strictly better. *)
Definition max (a b : Q) : Q := if ltb a b then b else a.
Definition min (a b : Q) : Q := if ltb b a then b else a.

(** [a // b] on integers. *)
Definition floordiv (a b : Z) : outcome Z :=
  if decide (b = 0) then Raise ZeroDivisionError else Ok (a / b).

(** [a / b] on floats. *)
Definition truediv (a b : Q) : outcome Q :=
  if Qeq_bool b 0 then Raise ZeroDivisionError else Ok (a / b)%Q.

(** [l[::step]] for [step >= 1]. *)
Fixpoint stride_from {A} (skip step : nat) (l : list A) : list A :=
  match l with
  | [] => []
  | x :: l' =>
      match skip with
      | O => x :: stride_from (Nat.pred step) step l'
      | S k => stride_from k step l'
      end
  end.

Definition slice_step {A} (l : list A) (step : nat) : outcome (list A) :=
  if decide (step = O) then Raise ValueError else Ok (stride_from O step l).

(** [range(lo, hi)] on integers. *)
Definition range (lo hi : Z) : list Z := seqZ lo (hi - lo).

(** [range(0, n, step)] on sizes, [step >= 1]. *)
Definition range_step (n step : nat) : list nat :=
  stride_from O step (seq 0 n).

End Py.

(** ** Samples *)

Definition Pos : Type := Z * Z.
Definition RGB : Type := Z * Z * Z.
Definition sample : Type := Pos * RGB.

(** ** Length equalization ([create_particles], lines 272-279) *)

Section Equalize.
Context {A : Type}.

(** [while len(source_pixels) < n:
       source_pixels.extend(source_pixels[:n - len(source_pixels)])] *)
Fixpoint repeat_source (fuel : nat) (source_pixels : list A) (n : nat)
  : option (list A) :=
  if (length source_pixels <? n)%nat then
    match fuel with
    | O => None
    | S fuel' =>
        repeat_source fuel'
          (source_pixels ++ take (n - length source_pixels) source_pixels) n
    end
  else Some source_pixels.

(** [n] is [len(target_pixels_sorted)]. *)
Definition equalize (fuel : nat) (source_pixels : list A) (n : nat)
  : option (list A) :=
  if (n <? length source_pixels)%nat then Some (take n source_pixels)
  else repeat_source fuel source_pixels n.

(** The list [cur] repeats [source] cyclically. *)
Definition cyclic_of (source cur : list A) : Prop :=
  ∀ i : nat,
    (i < length cur)%nat → cur !! i = source !! (i mod length source)%nat.

End Equalize.

(** ** Library functions taken as parameters *)

(** The functions of [math] the engine calls, and the two float powers. *)
Class MathLib : Type := {
  math_sin : Q → Q;
  math_cos : Q → Q;
  math_pi : Q;
  math_hypot : Q → Q → Q;
  pow_1_5 : Q → Q;   (* x ** 1.5 *)
  pow_0_5 : Q → Q    (* x ** 0.5 *)
}.

(** The generator behind [random]: what the [k]-th draw returns, for
    [random.random()] and for a draw below [n]. *)
Class RandomSource : Type := {
  random_unit : nat → Q;
  random_below : nat → nat → nat
}.

(** ** Computations that draw random numbers and may raise *)

Definition M (A : Type) : Type := nat → outcome (A * nat).

#[global] Instance M_ret : MRet M := λ A a k, Ok (a, k).
#[global] Instance M_bind : MBind M := λ A B f m k,
  match m k with
  | Ok (a, k') => f a k'
  | Raise e => Raise e
  | OutOfFuel => OutOfFuel
  end.

Definition raise {A} (e : exn) : M A := λ _, Raise e.
Definition out_of_fuel {A} : M A := λ _, OutOfFuel.
Definition lift {A} (o : outcome A) : M A := λ k,
  match o with
  | Ok a => Ok (a, k)
  | Raise e => Raise e
  | OutOfFuel => OutOfFuel
  end.

(** [for x in l: ys.append(f(x))] *)
Fixpoint for_each {A B} (f : A → M B) (l : list A) : M (list B) :=
  match l with
  | [] => mret []
  | x :: l' => y ← f x; ys ← for_each f l'; mret (y :: ys)
  end.

Module random.
Section Random.
Context {rnd : RandomSource}.

Definition random : M Q := λ k, Ok (random_unit k, S k).

(** [a + (b - a) * random()] *)
Definition uniform (a b : Q) : M Q :=
  u ← random; mret (a + (b - a) * u)%Q.

Definition randbelow (n : nat) : M nat := λ k,
  Ok ((random_below k n `mod` n)%nat, S k).

Definition randint (a b : Z) : M Z :=
  r ← randbelow (Z.to_nat (b - a + 1)); mret (a + Z.of_nat r).

Definition choice {A} (seq : list A) : M A :=
  match seq with
  | [] => raise IndexError
  | _ =>
      i ← randbelow (length seq);
      match seq !! i with
      | Some x => mret x
      | None => raise IndexError
      end
  end.

End Random.
End random.

(** ** Bitmaps *)

(** What [Surface.get_at] returns: four channels, or three when the
    alpha channel has been dropped. *)
Inductive Color : Type :=
| ColorRGBA (r g b a : Z)
| ColorRGB (r g b : Z).

(** [color[:3]] *)
Definition color_rgb (c : Color) : RGB :=
  match c with ColorRGBA r g b _ | ColorRGB r g b => (r, g, b) end.

(** [color[3]] *)
Definition color_alpha (c : Color) : option Z :=
  match c with ColorRGBA _ _ _ a => Some a | ColorRGB _ _ _ => None end.

(** [sum(color)] *)
Definition rgb_sum (c : RGB) : Z := let '(r, g, b) := c in r + g + b.
Definition color_sum (c : Color) : Z :=
  match c with
  | ColorRGBA r g b a => r + g + b + a
  | ColorRGB r g b => r + g + b
  end.

Record Surface : Type := {
  get_width : nat;
  get_height : nat;
  get_at : nat → nat → Color   (* get_at((x, y)), inside the bitmap *)
}.

(** What a draw call puts on the frame. *)
Inductive DrawCmd : Type :=
| SetAt (xy : Z * Z) (col : RGB)
  (* surface.set_at((x, y), col) *)
| BlitCircle (dest : Z * Z) (side : Z) (center : Z * Z) (radius : Z)
    (col : RGB) (alpha : Z).
  (* a side x side transparent surface with a filled circle, blitted at dest *)

(** ** class AnimationType *)

Inductive AnimationType : Type :=
| SAND_FALL
| PARTICLE_SWIRL
| PIXEL_MORPH
| WAVE_TRANSFORM.

(** [int(a * (1 - t) + b * t)] per channel. *)
Definition blend_channel (a b : Z) (t : Q) : Z :=
  Py.int (inject_Z a * (1 - t) + inject_Z b * t)%Q.

Definition blend (source_color target_color : RGB) (t : Q) : RGB :=
  let '(r0, g0, b0) := source_color in
  let '(r1, g1, b1) := target_color in
  (blend_channel r0 r1 t, blend_channel g0 g1 t, blend_channel b0 b1 t).

(** ** class Particle *)

Module Particle.

Record t : Type := {
  start_x : Q;
  start_y : Q;
  target_x : Q;
  target_y : Q;
  current_x : Q;
  current_y : Q;
  source_color : RGB;
  target_color : RGB;
  color : RGB;
  size : Z;
  velocity_x : Q;
  velocity_y : Q;
  gravity : Q;
  friction : Q;
  life : Q;
  age : Q;
  wobble_frequency : Q;
  wobble_amplitude : Q;
  fall_delay : Q
}.

(** The fields no update method assigns. *)
Definition fixed_fields (self : t) :=
  (start_x self, start_y self, target_x self, target_y self,
   source_color self, target_color self, size self, fall_delay self,
   (gravity self, friction self, life self,
    wobble_frequency self, wobble_amplitude self)).

Section Methods.
Context {math : MathLib}.

(** [Particle.__init__] *)
Definition init {rnd : RandomSource} (start_pos target_pos : Q * Q)
    (source_color target_color : RGB) (size : Z) : M t :=
  angle ← random.uniform 0 (math_pi * 2);
  speed ← random.uniform 40 80;
  wobble_frequency ← random.uniform 0.5 1.5;
  wobble_amplitude ← random.uniform 2 8;
  fall_delay ← random.uniform 0 0.4;
  mret {|
    start_x := start_pos.1;
    start_y := start_pos.2;
    target_x := target_pos.1;
    target_y := target_pos.2;
    current_x := start_pos.1;
    current_y := start_pos.2;
    source_color := source_color;
    target_color := target_color;
    color := source_color;
    size := size;
    velocity_x := math_cos angle * speed;
    velocity_y := math_sin angle * speed * 0.4;
    gravity := 150;
    friction := 0.95;
    life := 1;
    age := 0;
    wobble_frequency := wobble_frequency;
    wobble_amplitude := wobble_amplitude;
    fall_delay := fall_delay
  |}%Q.

(** [(progress - fall_delay) / max(1e-6, 1.0 - fall_delay)]; the
    denominator is positive, so the division never raises. *)
Definition adjusted_progress (progress fall_delay : Q) : Q :=
  ((progress - fall_delay) / Py.max 0.000001 (1 - fall_delay))%Q.

Definition update_sand_fall (self : t) (progress dt : Q) : t :=
  if Py.ltb progress (fall_delay self) then
    let velocity_y := (velocity_y self + gravity self * dt)%Q in
    let velocity_x := (velocity_x self * friction self)%Q in
    let wobble :=
      (math_sin (age self * wobble_frequency self) * wobble_amplitude self)%Q in
    let velocity_x := (velocity_x + wobble * dt)%Q in
    {| start_x := start_x self;
       start_y := start_y self;
       target_x := target_x self;
       target_y := target_y self;
       current_x := current_x self + velocity_x * dt;
       current_y := current_y self + velocity_y * dt;
       source_color := source_color self;
       target_color := target_color self;
       color := color self;
       size := size self;
       velocity_x := velocity_x;
       velocity_y := velocity_y;
       gravity := gravity self;
       friction := friction self;
       life := life self;
       age := age self + dt;
       wobble_frequency := wobble_frequency self;
       wobble_amplitude := wobble_amplitude self;
       fall_delay := fall_delay self |}%Q
  else
    let adjusted_progress := adjusted_progress progress (fall_delay self) in
    let velocity_y := (velocity_y self + (gravity self * 0.35) * dt)%Q in
    let velocity_x := (velocity_x self * Py.max 0.6 (friction self))%Q in
    let current_x := (current_x self + velocity_x * dt)%Q in
    let current_y := (current_y self + velocity_y * dt)%Q in
    let attraction_strength :=
      Py.min 4 (pow_1_5 adjusted_progress * 3)%Q in
    let current_x :=
      (current_x * (1 - attraction_strength * dt)
       + target_x self * (attraction_strength * dt))%Q in
    let current_y :=
      (current_y * (1 - attraction_strength * dt)
       + target_y self * (attraction_strength * dt))%Q in
    let t := Py.min 1 (Py.max 0 adjusted_progress) in
    {| start_x := start_x self;
       start_y := start_y self;
       target_x := target_x self;
       target_y := target_y self;
       current_x := current_x;
       current_y := current_y;
       source_color := source_color self;
       target_color := target_color self;
       color := blend (source_color self) (target_color self) t;
       size := size self;
       velocity_x := velocity_x;
       velocity_y := velocity_y;
       gravity := gravity self;
       friction := friction self;
       life := life self;
       age := age self + dt;
       wobble_frequency := wobble_frequency self;
       wobble_amplitude := wobble_amplitude self;
       fall_delay := fall_delay self |}%Q.

Definition update_particle_swirl (self : t) (progress dt : Q)
    (center : Z * Z) : t :=
  let center_x := inject_Z center.1 in
  let center_y := inject_Z center.2 in
  let angle := (age self * 2 + progress * math_pi * 4)%Q in
  let radius := (50 * (1 - progress))%Q in
  let spiral_x := (center_x + math_cos angle * radius)%Q in
  let spiral_y := (center_y + math_sin angle * radius)%Q in
  {| start_x := start_x self;
     start_y := start_y self;
     target_x := target_x self;
     target_y := target_y self;
     current_x := spiral_x * (1 - progress) + target_x self * progress;
     current_y := spiral_y * (1 - progress) + target_y self * progress;
     source_color := source_color self;
     target_color := target_color self;
     color := color self;
     size := size self;
     velocity_x := velocity_x self;
     velocity_y := velocity_y self;
     gravity := gravity self;
     friction := friction self;
     life := life self;
     age := age self + dt;
     wobble_frequency := wobble_frequency self;
     wobble_amplitude := wobble_amplitude self;
     fall_delay := fall_delay self |}%Q.

(** Ease out: [1 - (1 - progress) * (1 - progress)]. *)
Definition ease_out (progress : Q) : Q :=
  (1 - (1 - progress) * (1 - progress))%Q.

Definition update_pixel_morph (self : t) (progress dt : Q) : t :=
  let eased_progress := ease_out progress in
  {| start_x := start_x self;
     start_y := start_y self;
     target_x := target_x self;
     target_y := target_y self;
     current_x :=
       start_x self * (1 - eased_progress) + target_x self * eased_progress;
     current_y :=
       start_y self * (1 - eased_progress) + target_y self * eased_progress;
     source_color := source_color self;
     target_color := target_color self;
     color := color self;
     size := size self;
     velocity_x := velocity_x self;
     velocity_y := velocity_y self;
     gravity := gravity self;
     friction := friction self;
     life := life self;
     age := age self + dt;
     wobble_frequency := wobble_frequency self;
     wobble_amplitude := wobble_amplitude self;
     fall_delay := fall_delay self |}%Q.

(** Smooth step: [progress * progress * (3 - 2 * progress)]. *)
Definition smooth_step (progress : Q) : Q :=
  (progress * progress * (3 - 2 * progress))%Q.

(** [math.sin(progress * math.pi * 2 + self.start_x * 0.1) * 20 * (1 - progress)] *)
Definition wave_offset (self : t) (progress : Q) : Q :=
  (math_sin (progress * math_pi * 2 + start_x self * 0.1) * 20
   * (1 - progress))%Q.

Definition update_wave_transform (self : t) (progress dt : Q) : t :=
  let wave_offset := wave_offset self progress in
  let eased_progress := smooth_step progress in
  {| start_x := start_x self;
     start_y := start_y self;
     target_x := target_x self;
     target_y := target_y self;
     current_x :=
       start_x self * (1 - eased_progress) + target_x self * eased_progress;
     current_y :=
       start_y self * (1 - eased_progress) + target_y self * eased_progress
       + wave_offset;
     source_color := source_color self;
     target_color := target_color self;
     color := color self;
     size := size self;
     velocity_x := velocity_x self;
     velocity_y := velocity_y self;
     gravity := gravity self;
     friction := friction self;
     life := life self;
     age := age self + dt;
     wobble_frequency := wobble_frequency self;
     wobble_amplitude := wobble_amplitude self;
     fall_delay := fall_delay self |}%Q.

(** [int(max(40, min(255, 255 - dist * 0.8)))] *)
Definition draw_alpha (self : t) : Z :=
  let dx := (target_x self - current_x self)%Q in
  let dy := (target_y self - current_y self)%Q in
  let dist := math_hypot dx dy in
  Py.int (Py.max 40 (Py.min 255 (255 - dist * 0.8)))%Q.

(** [Particle.draw]: [None] when nothing is drawn. *)
Definition draw (self : t) (surface_width surface_height : nat)
  : option DrawCmd :=
  let x := Py.int (current_x self) in
  let y := Py.int (current_y self) in
  if decide (0 ≤ x < Z.of_nat surface_width
             ∧ 0 ≤ y < Z.of_nat surface_height) then
    let alpha := draw_alpha self in
    if decide (size self ≤ 2) then
      Some (SetAt (x, y) (color self))
    else
      Some (BlitCircle (x - size self, y - size self) (size self * 2)
              (size self, size self) (size self) (color self) alpha)
  else None.

End Methods.
End Particle.

(** ** class AnimationManager *)

Module AnimationManager.

Record t : Type := {
  particles : list Particle.t;
  animation_type : AnimationType;
  progress : Q;
  duration : Q;
  is_animating : bool;
  center_point : Z * Z
}.

(** [AnimationManager.__init__] *)
Definition init : t := {|
  particles := [];
  animation_type := WAVE_TRANSFORM;
  progress := 0;
  duration := 25;
  is_animating := false;
  center_point := (0, 0)
|}.

(** *** Pixel sampling *)

Definition extract_non_white_pixels (surface : Surface) (offset : Z * Z)
  : list sample :=
  let width := get_width surface in
  let height := get_height surface in
  let step := Nat.max 1 (Nat.min width height / 100) in
  y ← Py.range_step height step;
  x ← Py.range_step width step;
  let color := color_rgb (get_at surface x y) in
  if decide (rgb_sum color < 700) then
    [((offset.1 + Z.of_nat x, offset.2 + Z.of_nat y), color)]
  else [].

(** The scan of [extract_pixels_for_shape] (lines 231-244): a color of
    four channels is kept when its alpha is above 128, one of three
    channels when it is not white. *)
Definition all_shape_pixels (surface : Surface) (offset : Z * Z)
  : list sample :=
  y ← seq 0 (get_height surface);
  x ← seq 0 (get_width surface);
  let color := get_at surface x y in
  let world_pos := (offset.1 + Z.of_nat x, offset.2 + Z.of_nat y) in
  match color_alpha color with
  | Some a =>
      if decide (128 < a) then [(world_pos, color_rgb color)] else []
  | None =>
      if decide (color_sum color < 700) then [(world_pos, color_rgb color)]
      else []
  end.

Section Sampling.
Context {rnd : RandomSource}.

(** [while len(pixels) < num_pixels and all_pixels:
       pixels.append(random.choice(all_pixels))]
    When [aliased], [pixels] and [all_pixels] are one list object and the
    append reaches both names. *)
Fixpoint fill_remaining (fuel : nat) (aliased : bool)
    (pixels all_pixels : list sample) (num_pixels : nat) : M (list sample) :=
  if (length pixels <? num_pixels)%nat && bool_decide (all_pixels ≠ []) then
    match fuel with
    | O => out_of_fuel
    | S fuel' =>
        c ← random.choice all_pixels;
        fill_remaining fuel' aliased (pixels ++ [c])
          (if aliased then all_pixels ++ [c] else all_pixels) num_pixels
    end
  else mret pixels.

Definition extract_pixels_for_shape (fuel : nat) (surface : Surface)
    (offset : Z * Z) (num_pixels : nat) : M (list sample) :=
  let all_pixels := all_shape_pixels surface offset in
  if (num_pixels <? length all_pixels)%nat then
    step ← lift (Py.floordiv (Z.of_nat (length all_pixels))
                   (Z.of_nat num_pixels));
    strided ← lift (Py.slice_step all_pixels (Z.to_nat step));
    fill_remaining fuel false (take num_pixels strided) all_pixels num_pixels
  else
    fill_remaining fuel true all_pixels all_pixels num_pixels.

End Sampling.

(** *** Assignment *)

(** [sorted(target_pixels, key=lambda p: (p[0][1], p[0][0]))]: a stable
    sort on (y, x). *)
Definition key_lt (p q : sample) : bool :=
  let '((px, py), _) := p in
  let '((qx, qy), _) := q in
  bool_decide (py < qy ∨ (py = qy ∧ px < qx)).

Fixpoint insert_by_key (p : sample) (l : list sample) : list sample :=
  match l with
  | [] => [p]
  | q :: l' => if key_lt q p then q :: insert_by_key p l' else p :: q :: l'
  end.

Definition sorted_by_key (l : list sample) : list sample :=
  foldr insert_by_key [] l.

(** [best_distance]: [None] is [float('inf')]. *)
Definition below_best (distance : Z) (best_distance : option Z) : bool :=
  match best_distance with
  | None => true
  | Some b => bool_decide (distance < b)
  end.

(** The inner loop (lines 290-301) from index [i] on. *)
Fixpoint closest_unused (source_pos : Pos) (used_targets : gset nat)
    (i : nat) (targets : list sample)
    (best_distance : option Z) (best_target : option (nat * Pos * RGB))
  : option (nat * Pos * RGB) :=
  match targets with
  | [] => best_target
  | (target_pos, target_color) :: targets' =>
      if decide (i ∈ used_targets) then
        closest_unused source_pos used_targets (S i) targets'
          best_distance best_target
      else
        let dx := source_pos.1 - target_pos.1 in
        let dy := source_pos.2 - target_pos.2 in
        let distance := dx * dx + dy * dy in
        if below_best distance best_distance then
          closest_unused source_pos used_targets (S i) targets'
            (Some distance) (Some (i, target_pos, target_color))
        else
          closest_unused source_pos used_targets (S i) targets'
            best_distance best_target
  end.

(** The fallback loop (lines 309-313) from index [i] on. *)
Fixpoint first_unused (used_targets : gset nat) (i : nat)
    (targets : list sample) : option (nat * Pos * RGB) :=
  match targets with
  | [] => None
  | (target_pos, target_color) :: targets' =>
      if decide (i ∈ used_targets) then first_unused used_targets (S i) targets'
      else Some (i, target_pos, target_color)
  end.

(** One entry of [assignments], with the index of its target in
    [target_pixels_sorted] (the code keeps the index in [used_targets]
    only). *)
Record assignment : Type := {
  target_idx : nat;
  source_pos : Pos;
  source_color : RGB;
  target_pos : Pos;
  target_color : RGB
}.

(** Lines 286-313 for one source sample: [best_target] when the inner
    loop found one, and otherwise what the fallback loop picks. *)
Definition choose_target (source_pos : Pos) (used_targets : gset nat)
    (target_pixels_sorted : list sample) : option (nat * Pos * RGB) :=
  match closest_unused source_pos used_targets 0 target_pixels_sorted
          None None with
  | Some best_target => Some best_target
  | None => first_unused used_targets 0 target_pixels_sorted
  end.

(** The outer loop (lines 285-313). *)
Fixpoint assign (source_pixels target_pixels_sorted : list sample)
    (used_targets : gset nat) : list assignment :=
  match source_pixels with
  | [] => []
  | (source_pos, source_color) :: rest =>
      match choose_target source_pos used_targets target_pixels_sorted with
      | Some (target_idx, target_pos, target_color) =>
          {| target_idx := target_idx;
             source_pos := source_pos;
             source_color := source_color;
             target_pos := target_pos;
             target_color := target_color |}
          :: assign rest target_pixels_sorted ({[target_idx]} ∪ used_targets)
      | None => assign rest target_pixels_sorted used_targets
      end
  end.

(** Lines 262-313: the assignments [create_particles] builds, [None] when
    it returns early on an empty list. *)
Definition assignments (fuel : nat) (source_pixels target_pixels : list sample)
  : outcome (option (list assignment)) :=
  if bool_decide (source_pixels = []) || bool_decide (target_pixels = []) then
    Ok None
  else
    let target_pixels_sorted := sorted_by_key target_pixels in
    match equalize fuel source_pixels (length target_pixels_sorted) with
    | None => OutOfFuel
    | Some source_pixels => Ok (Some (assign source_pixels target_pixels_sorted ∅))
    end.

Section Engine.
Context {math : MathLib} {rnd : RandomSource}.

(** Lines 316-326, for one assignment. *)
Definition make_particle (a : assignment) : M Particle.t :=
  jitter_x ← random.uniform (-2) 2;
  jitter_y ← random.uniform (-2) 2;
  let start :=
    (inject_Z (source_pos a).1 + jitter_x,
     inject_Z (source_pos a).2 + jitter_y)%Q in
  r ← random.random;
  size ← (if Py.ltb r 0.8 then mret 2 else random.randint 3 5);
  Particle.init start
    (inject_Z (target_pos a).1, inject_Z (target_pos a).2)
    (source_color a) (target_color a) size.

(** What [make_particle] fixes of the particle of an assignment, whatever
    the random draws. *)
Definition built_from (a : assignment) (p : Particle.t) : Prop :=
  Particle.target_x p = inject_Z (target_pos a).1
  ∧ Particle.target_y p = inject_Z (target_pos a).2
  ∧ Particle.source_color p = source_color a
  ∧ Particle.target_color p = target_color a
  ∧ Particle.color p = source_color a
  ∧ Particle.current_x p = Particle.start_x p
  ∧ Particle.current_y p = Particle.start_y p
  ∧ 2 ≤ Particle.size p ≤ 5
  ∧ ∃ k : nat, Particle.fall_delay p = (0 + (0.4 - 0) * random_unit k)%Q.

(** [create_particles]: the particles appended to [self.particles]. *)
Definition create_particles (fuel : nat)
    (source_pixels target_pixels : list sample) : M (list Particle.t) :=
  asg ← lift (assignments fuel source_pixels target_pixels);
  match asg with
  | None => mret []
  | Some asg => for_each make_particle asg
  end.

(** [start_animation] *)
Definition start_animation (fuel : nat) (self : t)
    (source_surface target_surface : Surface)
    (source_offset target_offset : Z * Z)
    (animation_type : AnimationType) : M t :=
  let src_width := Z.of_nat (get_width source_surface) in
  let src_height := Z.of_nat (get_height source_surface) in
  let center_point :=
    (source_offset.1 + src_width / 2, source_offset.2 + src_height / 2) in
  let source_pixels := extract_non_white_pixels source_surface source_offset in
  target_pixels ←
    extract_pixels_for_shape fuel target_surface target_offset
      (length source_pixels);
  new_particles ← create_particles fuel source_pixels target_pixels;
  mret {|
    particles := new_particles;
    animation_type := animation_type;
    progress := 0;
    duration := duration self;
    is_animating := true;
    center_point := center_point
  |}.

(** [min(1.0, max(0.0, (progress - fall_delay) / max(1e-6, 1.0 - fall_delay)))] *)
Definition blend_factor (progress fall_delay : Q) : Q :=
  Py.min 1 (Py.max 0 (Particle.adjusted_progress progress fall_delay)).

(** The body of the particle loop of [update] (lines 341-359). *)
Definition update_particle (animation_type : AnimationType) (progress dt : Q)
    (center_point : Z * Z) (particle : Particle.t) : Particle.t :=
  let particle :=
    match animation_type with
    | SAND_FALL => Particle.update_sand_fall particle progress dt
    | PARTICLE_SWIRL =>
        Particle.update_particle_swirl particle progress dt center_point
    | PIXEL_MORPH => Particle.update_pixel_morph particle progress dt
    | WAVE_TRANSFORM => Particle.update_wave_transform particle progress dt
    end in
  let blend_factor := blend_factor progress (Particle.fall_delay particle) in
  if Py.ltb 0 blend_factor then
    let bf := Py.max 0 (Py.min 1 blend_factor) in
    {| Particle.start_x := Particle.start_x particle;
       Particle.start_y := Particle.start_y particle;
       Particle.target_x := Particle.target_x particle;
       Particle.target_y := Particle.target_y particle;
       Particle.current_x := Particle.current_x particle;
       Particle.current_y := Particle.current_y particle;
       Particle.source_color := Particle.source_color particle;
       Particle.target_color := Particle.target_color particle;
       Particle.color :=
         blend (Particle.source_color particle)
           (Particle.target_color particle) bf;
       Particle.size := Particle.size particle;
       Particle.velocity_x := Particle.velocity_x particle;
       Particle.velocity_y := Particle.velocity_y particle;
       Particle.gravity := Particle.gravity particle;
       Particle.friction := Particle.friction particle;
       Particle.life := Particle.life particle;
       Particle.age := Particle.age particle;
       Particle.wobble_frequency := Particle.wobble_frequency particle;
       Particle.wobble_amplitude := Particle.wobble_amplitude particle;
       Particle.fall_delay := Particle.fall_delay particle |}
  else particle.

(** [update] *)
Definition update (self : t) (dt : Q) : outcome t :=
  if negb (is_animating self) then Ok self
  else
    match Py.truediv dt (duration self) with
    | Raise e => Raise e
    | OutOfFuel => OutOfFuel
    | Ok step =>
        let progress := (progress self + step)%Q in
        let finished := Py.geb progress 1 in
        let progress := if finished then 1%Q else progress in
        Ok {|
          particles :=
            update_particle (animation_type self) progress dt
              (center_point self) <$> particles self;
          animation_type := animation_type self;
          progress := progress;
          duration := duration self;
          is_animating := if finished then false else is_animating self;
          center_point := center_point self
        |}
    end.

(** The color the blend of [update] gives a particle at [progress]. *)
Definition blended_color (progress : Q) (particle : Particle.t) : RGB :=
  blend (Particle.source_color particle) (Particle.target_color particle)
    (blend_factor progress (Particle.fall_delay particle)).

(** A particle as [Particle.__init__] leaves it: in its source color, with
    a fall delay that is not negative. *)
Definition fresh (particle : Particle.t) : Prop :=
  Particle.color particle = Particle.source_color particle
  ∧ (0 <= Particle.fall_delay particle)%Q.

(** The frame loop of the driver: one [update] per tick. *)
Fixpoint updates (self : t) (dts : list Q) : outcome t :=
  match dts with
  | [] => Ok self
  | dt :: dts' =>
      match update self dt with
      | Ok self' => updates self' dts'
      | Raise e => Raise e
      | OutOfFuel => OutOfFuel
      end
  end.

(** [draw]: what reaches the frame, in particle order. *)
Definition draw (self : t) (surface_width surface_height : nat)
  : list DrawCmd :=
  omap (λ particle, Particle.draw particle surface_width surface_height)
    (particles self).

End Engine.

(** Every particle shows the blend at the progress of the manager. *)
Definition colored {math : MathLib} (self : t) : Prop :=
  Forall (λ particle,
            Particle.color particle = blended_color (progress self) particle)
    (particles self).

Definition is_finished (self : t) : bool := negb (is_animating self).
Definition get_progress (self : t) : Q := progress self.

(** The state [start_animation] leaves behind, as far as [update] reads
    it: progress 0, animating, and a positive duration. *)
Definition started (self : t) : Prop :=
  (progress self == 0)%Q ∧ is_animating self = true ∧ (0 < duration self)%Q.

(** What holds of the manager between two ticks of a run. *)
Definition in_run (self : t) : Prop :=
  (0 < duration self)%Q
  ∧ (0 <= progress self)%Q
  ∧ if is_animating self then (progress self < 1)%Q else progress self = 1%Q.

Definition set_animation_type (self : t) (animation_type : AnimationType) : t :=
  {| particles := particles self;
     animation_type := animation_type;
     progress := progress self;
     duration := duration self;
     is_animating := is_animating self;
     center_point := center_point self |}.

Definition set_duration (self : t) (duration : Q) : t :=
  {| particles := particles self;
     animation_type := animation_type self;
     progress := progress self;
     duration := duration;
     is_animating := is_animating self;
     center_point := center_point self |}.

End AnimationManager.

(** ** class AnimalMakerApp: the progressive reveal of [draw] *)

Module AnimalMakerApp.

(** [pygame.Rect]: only the origin is read. *)
Record Rect : Type := {
  rect_x : Z;
  rect_y : Z
}.

(** Lines 326-327. *)
Definition reveal_progress (progress : Q) : Q :=
  let reveal_progress := ((progress - 0.3) / 0.7)%Q in
  (reveal_progress * reveal_progress)%Q.

(** [50 * (1 - reveal_progress)] *)
Definition max_reveal_distance (reveal_progress : Q) : Q :=
  (50 * (1 - reveal_progress))%Q.

(** [max(1, int(2 + 3 * reveal_progress))] *)
Definition reveal_radius (reveal_progress : Q) : Z :=
  Z.max 1 (Py.int (2 + 3 * reveal_progress)%Q).

(** [min(255, int(255 * reveal_progress))] *)
Definition reveal_alpha (reveal_progress : Q) : Z :=
  Z.min 255 (Py.int (255 * reveal_progress)%Q).

Section Reveal.
Context {math : MathLib}.

(** [(dx*dx + dy*dy) ** 0.5] *)
Definition distance_to_target (particle : Particle.t) : Q :=
  let dx := (Particle.target_x particle - Particle.current_x particle)%Q in
  let dy := (Particle.target_y particle - Particle.current_y particle)%Q in
  pow_0_5 (dx * dx + dy * dy)%Q.

(** Whether the particle is close enough to its target (line 348). *)
Definition qualifies (particle : Particle.t) (reveal_progress : Q) : bool :=
  Py.ltb (distance_to_target particle) (max_reveal_distance reveal_progress).

(** The pixels one particle adds to [revealed_pixels] (lines 341-365), in
    the order of the two loops. *)
Definition particle_reveal (particle : Particle.t) (image_rect : Rect)
    (img_width img_height : nat) (reveal_progress : Q) : list (Z * Z) :=
  if qualifies particle reveal_progress then
    let particle_x :=
      Py.int (Particle.current_x particle - inject_Z (rect_x image_rect))%Q in
    let particle_y :=
      Py.int (Particle.current_y particle - inject_Z (rect_y image_rect))%Q in
    let reveal_radius := reveal_radius reveal_progress in
    dy ← Py.range (- reveal_radius) (reveal_radius + 1);
    dx ← Py.range (- reveal_radius) (reveal_radius + 1);
    let reveal_x := particle_x + dx in
    let reveal_y := particle_y + dy in
    if decide (0 ≤ reveal_x < Z.of_nat img_width
               ∧ 0 ≤ reveal_y < Z.of_nat img_height) then
      if decide (dx * dx + dy * dy ≤ reveal_radius * reveal_radius) then
        [(reveal_x, reveal_y)]
      else []
    else []
  else [].

(** The set [revealed_pixels] after the particle loop. *)
Definition revealed_pixels (particles : list Particle.t) (image_rect : Rect)
    (img_width img_height : nat) (reveal_progress : Q) : gset (Z * Z) :=
  foldl
    (λ revealed particle,
       revealed ∪ list_to_set
         (particle_reveal particle image_rect img_width img_height
            reveal_progress))
    ∅ particles.

(** The pixel written at [(pixel_x, pixel_y)] of [reveal_surface]
    (lines 369-376). *)
Definition reveal_pixel (image : Surface) (reveal_progress : Q)
    (pixel : Z * Z) : Z * Z * Z * Z :=
  let pixel_color := get_at image (Z.to_nat pixel.1) (Z.to_nat pixel.2) in
  let alpha := reveal_alpha reveal_progress in
  let '(r, g, b) := color_rgb pixel_color in
  (r, g, b, alpha).

(** [reveal_surface] after the loop of lines 368-376: transparent but
    for the revealed pixels. *)
Definition reveal_surface (image : Surface) (reveal_progress : Q)
    (revealed : gset (Z * Z)) : gmap (Z * Z) (Z * Z * Z * Z) :=
  set_to_map (λ pixel, (pixel, reveal_pixel image reveal_progress pixel))
    revealed.

(** What [draw] blits at [animal_image_rect]; [None] while
    [progress <= 0.3]. *)
Definition reveal (progress : Q) (particles : list Particle.t)
    (image : Surface) (image_rect : Rect)
  : option (gmap (Z * Z) (Z * Z * Z * Z)) :=
  if Py.ltb 0.3 progress then
    let reveal_progress := reveal_progress progress in
    let revealed :=
      revealed_pixels particles image_rect (get_width image)
        (get_height image) reveal_progress in
    Some (reveal_surface image reveal_progress revealed)
  else None.

End Reveal.
End AnimalMakerApp.

(** ** The interpolating updates in binary64 *)

Module Binary64.

(** [math.sin], [math.cos] and [math.pi] on doubles. *)
Class MathLib : Type := {
  math_sin : float → float;
  math_cos : float → float;
  math_pi : float
}.

(** Ease out and smooth step, as in [update_pixel_morph] and
    [update_wave_transform]. *)
Definition ease_out (progress : float) : float :=
  (1 - (1 - progress) * (1 - progress))%float.

Definition smooth_step (progress : float) : float :=
  (progress * progress * (3 - 2 * progress))%float.

(** [current_x, current_y] after [update_pixel_morph]. *)
Definition update_pixel_morph (start_x start_y target_x target_y : float)
    (progress : float) : float * float :=
  let eased_progress := ease_out progress in
  ((start_x * (1 - eased_progress) + target_x * eased_progress)%float,
   (start_y * (1 - eased_progress) + target_y * eased_progress)%float).

Section Methods.
Context {math : MathLib}.

(** [progress * math.pi * 2 + self.start_x * 0.1]; the last factor is
    the double 0.1. *)
Definition wave_argument (start_x progress : float) : float :=
  (progress * math_pi * 2 + start_x * 0x1.999999999999ap-4)%float.

Definition wave_offset (start_x progress : float) : float :=
  (math_sin (wave_argument start_x progress) * 20 * (1 - progress))%float.

(** [current_x, current_y] after [update_wave_transform]. *)
Definition update_wave_transform (start_x start_y target_x target_y : float)
    (progress : float) : float * float :=
  let wave_offset := wave_offset start_x progress in
  let eased_progress := smooth_step progress in
  ((start_x * (1 - eased_progress) + target_x * eased_progress)%float,
   (start_y * (1 - eased_progress) + target_y * eased_progress
    + wave_offset)%float).

(** [self.age * 2.0 + progress * math.pi * 4] *)
Definition swirl_angle (age progress : float) : float :=
  (age * 2 + progress * math_pi * 4)%float.

(** [current_x, current_y] after [update_particle_swirl]; the center and
    the target are the integer coordinates as doubles. *)
Definition update_particle_swirl (age : float) (center_x center_y : float)
    (target_x target_y : float) (progress : float) : float * float :=
  let angle := swirl_angle age progress in
  let radius := (50 * (1 - progress))%float in
  let spiral_x := (center_x + math_cos angle * radius)%float in
  let spiral_y := (center_y + math_sin angle * radius)%float in
  ((spiral_x * (1 - progress) + target_x * progress)%float,
   (spiral_y * (1 - progress) + target_y * progress)%float).

End Methods.

(** A double between -1 and 1, as a sine or a cosine is. *)
Definition unit_range (v : float) : Prop := (abs v <=? 1)%float = true.

(** A zero or a finite number: neither an infinity nor NaN. *)
Definition sf_finite (x : spec_float) : bool :=
  match x with
  | S754_zero _ | S754_finite _ _ _ => true
  | _ => false
  end.

(** 1.0 and 20.0, and a mantissa shifted left by 52 bits. *)
Definition sf_one : spec_float := Eval vm_compute in Prim2SF 1%float.
Definition sf_twenty : spec_float := Eval vm_compute in Prim2SF 20%float.
Definition shl52 (m : positive) : positive :=
  Eval cbv in (4503599627370496 * m)%positive.

End Binary64.

(** ** Progress and colors of a run in binary64 *)

(** The rational model above gives every color as the exact blend. The
    code computes the blend in doubles and truncates the result, and it
    accumulates the progress in doubles.  This module is [update] as far
    as the progress and the colors go, on doubles: positions, velocities
    and ages, which neither reads, are left to the rational model. *)

Module Float64.

(** [float(n)] for an integer of fewer than 63 bits. *)
Definition of_int (n : Z) : float :=
  if n <? 0 then (- of_uint63 (Uint63Axioms.of_Z (- n)))%float
  else of_uint63 (Uint63Axioms.of_Z n).

(** [int(x)]: the integer part, rounded toward zero; NaN and the
    infinities raise. *)
Definition int (x : float) : outcome Z :=
  match Prim2SF x with
  | S754_zero _ => Ok 0
  | S754_finite s m e =>
      Ok (cond_Zopp s (if e <? 0 then Zpos m / 2 ^ (- e) else Zpos m * 2 ^ e))
  | S754_infinity _ => Raise OverflowError
  | S754_nan => Raise ValueError
  end.

(** A double that is zero or positive, and not the infinity. *)
Definition nonneg (x : spec_float) : bool :=
  match x with
  | S754_zero _ | S754_finite false _ _ => true
  | _ => false
  end.

(** [max(a, b)] and [min(a, b)] return the first argument unless the
    second is strictly better. *)
Definition max (a b : float) : float := if (a <? b)%float then b else a.
Definition min (a b : float) : float := if (b <? a)%float then b else a.

(** [a / b] on floats. *)
Definition truediv (a b : float) : outcome float :=
  if (b =? 0)%float then Raise ZeroDivisionError else Ok (a / b)%float.

(** [(progress - fall_delay) / max(1e-6, 1.0 - fall_delay)]; the
    denominator is 1e-6 or greater, so the division never raises. *)
Definition adjusted_progress (progress fall_delay : float) : float :=
  ((progress - fall_delay) / max 0x1.0c6f7a0b5ed8dp-20 (1 - fall_delay))%float.

(** [min(1.0, max(0.0, adjusted_progress))] *)
Definition blend_factor (progress fall_delay : float) : float :=
  min 1 (max 0 (adjusted_progress progress fall_delay)).

(** [int(a * (1 - t) + b * t)] per channel. *)
Definition blend_channel (a b : Z) (t : float) : outcome Z :=
  int (of_int a * (1 - t) + of_int b * t)%float.

Definition blend (source_color target_color : RGB) (t : float)
  : outcome RGB :=
  let '(r0, g0, b0) := source_color in
  let '(r1, g1, b1) := target_color in
  match blend_channel r0 r1 t with
  | Ok r =>
      match blend_channel g0 g1 t with
      | Ok g =>
          match blend_channel b0 b1 t with
          | Ok b => Ok (r, g, b)
          | Raise e => Raise e
          | OutOfFuel => OutOfFuel
          end
      | Raise e => Raise e
      | OutOfFuel => OutOfFuel
      end
  | Raise e => Raise e
  | OutOfFuel => OutOfFuel
  end.

Module Particle.

(** The fields of a particle that decide its color. *)
Record t : Type := {
  source_color : RGB;
  target_color : RGB;
  color : RGB;
  fall_delay : float
}.

Definition set_color (self : t) (color : RGB) : t := {|
  source_color := source_color self;
  target_color := target_color self;
  color := color;
  fall_delay := fall_delay self
|}.

(** [update_sand_fall], lines 64 and 76-99: the color is assigned once
    the progress has reached the fall delay. *)
Definition update_sand_fall (self : t) (progress : float) : outcome t :=
  if (progress <? fall_delay self)%float then Ok self
  else
    let adjusted_progress := adjusted_progress progress (fall_delay self) in
    let t := min 1 (max 0 adjusted_progress) in
    match blend (source_color self) (target_color self) t with
    | Ok blended => Ok (set_color self blended)
    | Raise e => Raise e
    | OutOfFuel => OutOfFuel
    end.

End Particle.

Module AnimationManager.

Record t : Type := {
  particles : list Particle.t;
  animation_type : AnimationType;
  progress : float;
  duration : float;
  is_animating : bool
}.

(** The body of the particle loop of [update] (lines 341-359); the other
    three update methods assign no color. *)
Definition update_particle (animation_type : AnimationType) (progress : float)
    (particle : Particle.t) : outcome Particle.t :=
  match
    match animation_type with
    | SAND_FALL => Particle.update_sand_fall particle progress
    | PARTICLE_SWIRL | PIXEL_MORPH | WAVE_TRANSFORM => Ok particle
    end
  with
  | Ok particle =>
      let blend_factor :=
        blend_factor progress (Particle.fall_delay particle) in
      if (0 <? blend_factor)%float then
        let bf := max 0 (min 1 blend_factor) in
        match
          blend (Particle.source_color particle)
            (Particle.target_color particle) bf
        with
        | Ok color => Ok (Particle.set_color particle color)
        | Raise e => Raise e
        | OutOfFuel => OutOfFuel
        end
      else Ok particle
  | Raise e => Raise e
  | OutOfFuel => OutOfFuel
  end.

(** [for particle in self.particles: ...] *)
Fixpoint update_particles (animation_type : AnimationType) (progress : float)
    (particles : list Particle.t) : outcome (list Particle.t) :=
  match particles with
  | [] => Ok []
  | particle :: particles' =>
      match update_particle animation_type progress particle with
      | Ok particle =>
          match update_particles animation_type progress particles' with
          | Ok particles' => Ok (particle :: particles')
          | Raise e => Raise e
          | OutOfFuel => OutOfFuel
          end
      | Raise e => Raise e
      | OutOfFuel => OutOfFuel
      end
  end.

(** [update] *)
Definition update (self : t) (dt : float) : outcome t :=
  if negb (is_animating self) then Ok self
  else
    match truediv dt (duration self) with
    | Raise e => Raise e
    | OutOfFuel => OutOfFuel
    | Ok step =>
        let progress := (progress self + step)%float in
        let finished := (1 <=? progress)%float in
        let progress := if finished then 1%float else progress in
        match update_particles (animation_type self) progress
                (particles self) with
        | Ok particles =>
            Ok {|
              particles := particles;
              animation_type := animation_type self;
              progress := progress;
              duration := duration self;
              is_animating := if finished then false else is_animating self
            |}
        | Raise e => Raise e
        | OutOfFuel => OutOfFuel
        end
    end.

(** The frame loop of the driver: one [update] per tick. *)
Fixpoint updates (self : t) (dts : list float) : outcome t :=
  match dts with
  | [] => Ok self
  | dt :: dts' =>
      match update self dt with
      | Ok self' => updates self' dts'
      | Raise e => Raise e
      | OutOfFuel => OutOfFuel
      end
  end.

(** A color channel as pygame holds it. *)
Definition channel (c : Z) : Prop := 0 ≤ c ≤ 255.

Definition rgb (c : RGB) : Prop :=
  channel c.1.1 ∧ channel c.1.2 ∧ channel c.2.

(** A particle as [Particle.__init__] leaves it: in its source color,
    with a fall delay from 0.0 up to, and without, 0.4. *)
Definition fresh (particle : Particle.t) : Prop :=
  Particle.color particle = Particle.source_color particle
  ∧ rgb (Particle.source_color particle)
  ∧ rgb (Particle.target_color particle)
  ∧ (0 <=? Particle.fall_delay particle)%float = true
  ∧ (Particle.fall_delay particle <? 0x1.999999999999ap-2)%float = true.

(** The state [start_animation] leaves behind, as far as [update] reads
    it: progress 0.0, animating, and a positive duration. *)
Definition started (self : t) : Prop :=
  progress self = 0%float
  ∧ is_animating self = true
  ∧ (0 <? duration self)%float = true.

(** A time step: a number that is not negative. *)
Definition step (dt : float) : Prop :=
  is_finite dt = true ∧ (0 <=? dt)%float = true.

End AnimationManager.

End Float64.


(** ** Example inputs *)

(** A bitmap of one white pixel: no ink. *)
Definition white_pixel : Surface := {|
  get_width := 1;
  get_height := 1;
  get_at := λ _ _, ColorRGBA 255 255 255 255
|}.

(** A bitmap of one opaque black pixel. *)
Definition black_pixel : Surface := {|
  get_width := 1;
  get_height := 1;
  get_at := λ _ _, ColorRGBA 0 0 0 255
|}.

(** A small particle half a pixel to the left of the frame, on its first
    row. *)
Definition particle_left_of_frame : Particle.t := {|
  Particle.start_x := 0;
  Particle.start_y := 0;
  Particle.target_x := 0;
  Particle.target_y := 0;
  Particle.current_x := -0.5;
  Particle.current_y := 0;
  Particle.source_color := (0, 0, 0);
  Particle.target_color := (255, 255, 255);
  Particle.color := (0, 0, 0);
  Particle.size := 2;
  Particle.velocity_x := 0;
  Particle.velocity_y := 0;
  Particle.gravity := 150;
  Particle.friction := 0.95;
  Particle.life := 1;
  Particle.age := 0;
  Particle.wobble_frequency := 1;
  Particle.wobble_amplitude := 2;
  Particle.fall_delay := 0.2
|}.

(** Stand-ins for the library functions and the generator, to run the
    examples: no sine, every draw in the middle of its range. *)
Definition example_math : MathLib := {|
  math_sin := λ _, 0%Q;
  math_cos := λ _, 1%Q;
  math_pi := 3.14%Q;
  math_hypot := λ dx dy, (Qabs dx + Qabs dy)%Q;
  pow_1_5 := λ x, x;
  pow_0_5 := λ x, x
|}.

Definition example_random : RandomSource := {|
  random_unit := λ _, 0.5%Q;
  random_below := λ _ n, (n / 2)%nat
|}.

(** A run of one second on one particle, just started. *)
Definition example_run : AnimationManager.t := {|
  AnimationManager.particles := [particle_left_of_frame];
  AnimationManager.animation_type := PIXEL_MORPH;
  AnimationManager.progress := 0;
  AnimationManager.duration := 1;
  AnimationManager.is_animating := true;
  AnimationManager.center_point := (0, 0)
|}.

(** Two by two bitmaps: four black ink pixels, four opaque white pixels. *)
Definition ink_square : Surface := {|
  get_width := 2;
  get_height := 2;
  get_at := λ _ _, ColorRGBA 0 0 0 255
|}.

Definition white_square : Surface := {|
  get_width := 2;
  get_height := 2;
  get_at := λ _ _, ColorRGBA 255 255 255 255
|}.

(** One ink sample and two shape samples. *)
Definition example_source : list sample := [((10, 10), (0, 0, 0))].
Definition example_target : list sample :=
  [((51, 50), (255, 255, 255)); ((50, 50), (255, 255, 255))].

(** A stand-in for the double sine and cosine. *)
Definition example_math64 : Binary64.MathLib := {|
  Binary64.math_sin := λ _, 0%float;
  Binary64.math_cos := λ _, 1%float;
  Binary64.math_pi := 0x1.921fb54442d18p+1%float
|}.

(** * The application around the engine *)

(** Python [str]: the characters of the text. *)
Definition str : Type := list Ascii.ascii.

(** ** class DrawingCanvas ([src/drawing_canvas.py]) *)

Module DrawingCanvas.

(** [canvas] is what has reached the white surface since it was last
    filled: the lines of [pygame.draw.line], oldest first, each from a
    point to a point.  Times are the milliseconds of
    [pygame.time.get_ticks()], passed as [ticks]. *)
Record t : Type := {
  width : Z;
  height : Z;
  canvas : list (Pos * Pos);
  is_drawing : bool;
  last_pos : option Pos;
  drawing_points : list Pos;
  stroke_groups : list (list Pos);
  current_stroke : list Pos;
  last_draw_time : Z
}.

(** [DrawingCanvas.__init__] *)
Definition init (width height : Z) : t := {|
  width := width;
  height := height;
  canvas := [];
  is_drawing := false;
  last_pos := None;
  drawing_points := [];
  stroke_groups := [];
  current_stroke := [];
  last_draw_time := 0
|}.

Definition start_drawing (self : t) (pos : Pos) (ticks : Z) : t := {|
  width := width self;
  height := height self;
  canvas := canvas self;
  is_drawing := true;
  last_pos := Some pos;
  drawing_points := drawing_points self ++ [pos];
  stroke_groups := stroke_groups self;
  current_stroke := [pos];
  last_draw_time := ticks
|}.

(** [if self.is_drawing and self.last_pos:] a position is a pair, which
    is true whenever it is not [None]. *)
Definition continue_drawing (self : t) (pos : Pos) (ticks : Z) : t :=
  match is_drawing self, last_pos self with
  | true, Some last => {|
      width := width self;
      height := height self;
      canvas := canvas self ++ [(last, pos)];
      is_drawing := is_drawing self;
      last_pos := Some pos;
      drawing_points := drawing_points self ++ [pos];
      stroke_groups := stroke_groups self;
      current_stroke := current_stroke self ++ [pos];
      last_draw_time := ticks
    |}
  | _, _ => self
  end.

(** [if self.is_drawing and self.current_stroke:] the stroke is kept
    when it has a point. *)
Definition stop_drawing (self : t) : t :=
  let keep := is_drawing self && bool_decide (current_stroke self ≠ []) in
  {|
    width := width self;
    height := height self;
    canvas := canvas self;
    is_drawing := false;
    last_pos := None;
    drawing_points := drawing_points self;
    stroke_groups :=
      if keep then stroke_groups self ++ [current_stroke self]
      else stroke_groups self;
    current_stroke := if keep then [] else current_stroke self;
    last_draw_time := last_draw_time self
  |}.

Definition clear_canvas (self : t) : t := {|
  width := width self;
  height := height self;
  canvas := [];
  is_drawing := is_drawing self;
  last_pos := last_pos self;
  drawing_points := [];
  stroke_groups := [];
  current_stroke := [];
  last_draw_time := last_draw_time self
|}.

(** [min(...)] and [max(...)] over a sequence with a first entry. *)
Definition min_of (first : Z) (rest : list Z) : Z := foldl Z.min first rest.
Definition max_of (first : Z) (rest : list Z) : Z := foldl Z.max first rest.

(** [(left, top, right, bottom)], or [None] without a point. *)
Definition get_drawing_bounds (self : t) : option (Z * Z * Z * Z) :=
  match drawing_points self with
  | [] => None
  | point :: points =>
      let min_x := min_of point.1 (fst <$> points) in
      let max_x := max_of point.1 (fst <$> points) in
      let min_y := min_of point.2 (snd <$> points) in
      let max_y := max_of point.2 (snd <$> points) in
      let padding := 20 in
      Some (Z.max 0 (min_x - padding),
            Z.max 0 (min_y - padding),
            Z.min (width self) (max_x + padding),
            Z.min (height self) (max_y + padding))
  end.

(** The area [(x, y, width, height)] of the canvas that the returned
    surface copies, or [None]. *)
Definition get_drawing_surface (self : t) : option (Z * Z * Z * Z) :=
  match get_drawing_bounds self with
  | None => None
  | Some (x, y, right', bottom) =>
      let width := right' - x in
      let height := bottom - y in
      if decide (width ≤ 0 ∨ height ≤ 0) then None
      else Some (x, y, width, height)
  end.

Definition has_been_idle (self : t) (idle_duration_ms ticks : Z) : bool :=
  match drawing_points self with
  | [] => false
  | _ => bool_decide (idle_duration_ms < ticks - last_draw_time self)
  end.

Definition has_drawing (self : t) : bool :=
  bool_decide (0 < length (drawing_points self))%nat.

(** The calls that change a canvas, and a sequence of them. *)
Inductive call : Type :=
| StartDrawing (pos : Pos) (ticks : Z)
| ContinueDrawing (pos : Pos) (ticks : Z)
| StopDrawing
| ClearCanvas.

Definition apply_call (self : t) (c : call) : t :=
  match c with
  | StartDrawing pos ticks => start_drawing self pos ticks
  | ContinueDrawing pos ticks => continue_drawing self pos ticks
  | StopDrawing => stop_drawing self
  | ClearCanvas => clear_canvas self
  end.

Definition apply_calls (self : t) (calls : list call) : t :=
  foldl apply_call self calls.

End DrawingCanvas.

(** ** class AnimalMaker ([src/animal_maker.py]) *)

Module AnimalMaker.

Inductive AppState : Type :=
| DRAWING
| PROCESSING
| ANIMATING
| DISPLAYING.

(** The keys [handle_events] tells apart. *)
Inductive Key : Type :=
| K_ESCAPE
| K_SPACE
| K_c
| K_TAB
| K_OTHER.

(** The events of [pygame.event.get()].  A motion event carries what
    [pygame.mouse.get_pressed()[0]] returns when it is handled. *)
Inductive Event : Type :=
| QUIT
| KEYDOWN (key : Key)
| MOUSEBUTTONDOWN (button : Z) (pos : Pos)
| MOUSEBUTTONUP (button : Z)
| MOUSEMOTION (pos : Pos) (left_pressed : bool)
| OTHER_EVENT.

#[global] Instance AppState_eq_dec : EqDecision AppState.
Proof. solve_decision. Defined.
#[global] Instance Key_eq_dec : EqDecision Key.
Proof. solve_decision. Defined.
#[global] Instance Event_eq_dec : EqDecision Event.
Proof. solve_decision. Defined.

(** [pygame.Rect] *)
Record Rect : Type := {
  rect_x : Z;
  rect_y : Z;
  rect_w : Z;
  rect_h : Z
}.

(** [bool(rect)]: a rectangle is true when neither its width nor its
    height is 0. *)
Definition rect_bool (r : Rect) : bool :=
  negb (bool_decide (rect_w r = 0)) && negb (bool_decide (rect_h r = 0)).

(** [list(AnimationType)] *)
Definition animation_types : list AnimationType :=
  [SAND_FALL; PARTICLE_SWIRL; PIXEL_MORPH; WAVE_TRANSFORM].

Record t : Type := {
  canvas : DrawingCanvas.t;
  animator : AnimationManager.t;
  state : AppState;
  running : bool;
  current_animal : option str;
  current_animal_image : option Surface;
  animal_image_rect : option Rect;
  current_animation_index : nat
}.

(** [AnimalMaker.__init__] *)
Definition init (width height : Z) : t := {|
  canvas := DrawingCanvas.init width height;
  animator := AnimationManager.init;
  state := DRAWING;
  running := true;
  current_animal := None;
  current_animal_image := None;
  animal_image_rect := None;
  current_animation_index := 3
|}.

Definition set_canvas (self : t) (canvas : DrawingCanvas.t) : t := {|
  canvas := canvas;
  animator := animator self;
  state := state self;
  running := running self;
  current_animal := current_animal self;
  current_animal_image := current_animal_image self;
  animal_image_rect := animal_image_rect self;
  current_animation_index := current_animation_index self
|}.

Definition set_state (self : t) (state : AppState) : t := {|
  canvas := canvas self;
  animator := animator self;
  state := state;
  running := running self;
  current_animal := current_animal self;
  current_animal_image := current_animal_image self;
  animal_image_rect := animal_image_rect self;
  current_animation_index := current_animation_index self
|}.

Definition set_running (self : t) (running : bool) : t := {|
  canvas := canvas self;
  animator := animator self;
  state := state self;
  running := running;
  current_animal := current_animal self;
  current_animal_image := current_animal_image self;
  animal_image_rect := animal_image_rect self;
  current_animation_index := current_animation_index self
|}.

Definition reset_to_drawing (self : t) : t := {|
  canvas := DrawingCanvas.clear_canvas (canvas self);
  animator := animator self;
  state := DRAWING;
  running := running self;
  current_animal := None;
  current_animal_image := None;
  animal_image_rect := None;
  current_animation_index := current_animation_index self
|}.

(** The body of the loop of [handle_events] for one event; [ticks] is
    the time a drawing call reads. *)
Definition handle_event (self : t) (event : Event) (ticks : Z) : t :=
  match event with
  | QUIT => set_running self false
  | KEYDOWN key =>
      match key, state self with
      | K_ESCAPE, _ => set_running self false
      | K_SPACE, (DISPLAYING | DRAWING) => reset_to_drawing self
      | K_c, DRAWING =>
          set_canvas self (DrawingCanvas.clear_canvas (canvas self))
      | K_TAB, _ => {|
          canvas := canvas self;
          animator := animator self;
          state := state self;
          running := running self;
          current_animal := current_animal self;
          current_animal_image := current_animal_image self;
          animal_image_rect := animal_image_rect self;
          current_animation_index :=
            (current_animation_index self + 1) `mod` length animation_types
        |}
      | _, _ => self
      end
  | MOUSEBUTTONDOWN button pos =>
      if decide (button = 1) then
        match state self with
        | DRAWING =>
            set_canvas self (DrawingCanvas.start_drawing (canvas self) pos ticks)
        | _ => self
        end
      else if decide (button = 3) then
        match state self with
        | DRAWING =>
            set_canvas self (DrawingCanvas.clear_canvas (canvas self))
        | DISPLAYING | ANIMATING => reset_to_drawing self
        | PROCESSING => self
        end
      else self
  | MOUSEBUTTONUP button =>
      match state self with
      | DRAWING =>
          if decide (button = 1) then
            set_canvas self (DrawingCanvas.stop_drawing (canvas self))
          else self
      | _ => self
      end
  | MOUSEMOTION pos left_pressed =>
      match state self with
      | DRAWING =>
          if left_pressed then
            set_canvas self
              (DrawingCanvas.continue_drawing (canvas self) pos ticks)
          else self
      | _ => self
      end
  | OTHER_EVENT => self
  end.

(** [handle_events]: the events of one frame, each with the time read
    while it is handled. *)
Definition handle_events (self : t) (events : list (Event * Z)) : t :=
  foldl (λ self '(event, ticks), handle_event self event ticks) self events.

(** What [start_animation] does to the size and place of the image
    (lines 185-207): the size that fits the drawing bounds, the image
    keeping its proportions, and the offset that centers it there.
    [None] when the bounds have no area: the image is left alone. *)
Definition fit_to_bounds (drawing_bounds : Z * Z * Z * Z) (orig_w orig_h : Z)
  : outcome (option (Z * Z * (Z * Z))) :=
  let '(x0, y0, x1, y1) := drawing_bounds in
  let draw_w := x1 - x0 in
  let draw_h := y1 - y0 in
  if decide (0 < draw_w ∧ 0 < draw_h) then
    match Py.truediv (inject_Z draw_w) (inject_Z orig_w) with
    | Raise e => Raise e
    | OutOfFuel => OutOfFuel
    | Ok scale_x =>
        match Py.truediv (inject_Z draw_h) (inject_Z orig_h) with
        | Raise e => Raise e
        | OutOfFuel => OutOfFuel
        | Ok scale_y =>
            let scale := Py.min scale_x scale_y in
            let new_w := Py.int (inject_Z orig_w * scale) in
            let new_h := Py.int (inject_Z orig_h * scale) in
            let center_x := x0 + draw_w / 2 in
            let center_y := y0 + draw_h / 2 in
            Ok (Some (new_w, new_h,
                      (center_x - new_w / 2, center_y - new_h / 2)))
        end
    end
  else Ok None.

(** What the application takes from pygame, PIL and its own recognizer
    and image manager. *)
Class Services : Type := {
  (* the pixels of an area of the canvas, as [get_drawing_surface]
     copies them *)
  drawing_pixels : list (Pos * Pos) → Z * Z * Z * Z → Surface;
  (* [OCRRecognizer.recognize_animal_name] *)
  recognize_animal_name : Surface → option str;
  (* [AnimalImageManager.get_animal_image] *)
  get_animal_image : str → Surface;
  (* [pygame.transform.smoothscale] *)
  smoothscale : Surface → Z → Z → Surface;
  (* lines 210-231: the dithered silhouette, or the copy of the image
     when the dithering fails *)
  silhouette : Surface → Surface
}.

Section Frames.
Context {math : MathLib} {rnd : RandomSource} {services : Services}.

(** [AnimalMaker.start_animation] *)
Definition start_animation (fuel : nat) (self : t) : M t :=
  match current_animal_image self, animal_image_rect self with
  | Some image, Some rect =>
      if rect_bool rect then
        match DrawingCanvas.get_drawing_surface (canvas self),
              DrawingCanvas.get_drawing_bounds (canvas self) with
        | Some area, Some drawing_bounds =>
            let drawing_surface :=
              drawing_pixels (DrawingCanvas.canvas (canvas self)) area in
            let source_offset := (drawing_bounds.1.1.1, drawing_bounds.1.1.2) in
            fit ← lift (fit_to_bounds drawing_bounds
                          (Z.of_nat (get_width image))
                          (Z.of_nat (get_height image)));
            let '(anim_img, target_offset) :=
              match fit with
              | Some (new_w, new_h, target_offset) =>
                  (smoothscale image new_w new_h, target_offset)
              | None => (image, (rect_x rect, rect_y rect))
              end in
            let target_surface := silhouette anim_img in
            animation_type ←
              match animation_types !! current_animation_index self with
              | Some animation_type => mret animation_type
              | None => raise IndexError
              end;
            animator ←
              AnimationManager.start_animation fuel (animator self)
                drawing_surface target_surface source_offset target_offset
                animation_type;
            mret {|
              canvas := canvas self;
              animator := animator;
              state := ANIMATING;
              running := running self;
              current_animal := current_animal self;
              current_animal_image := Some target_surface;
              animal_image_rect :=
                Some {| rect_x := target_offset.1;
                        rect_y := target_offset.2;
                        rect_w := Z.of_nat (get_width target_surface);
                        rect_h := Z.of_nat (get_height target_surface) |};
              current_animation_index := current_animation_index self
            |}
        | _, _ => mret (set_state self DRAWING)
        end
      else mret (set_state self DRAWING)
  | _, _ => mret (set_state self DRAWING)
  end.

(** [AnimalMaker.start_processing]; a name is true when it is not
    empty. *)
Definition start_processing (fuel : nat) (self : t) : M t :=
  match DrawingCanvas.get_drawing_surface (canvas self) with
  | None => mret (set_state self DRAWING)
  | Some area =>
      let drawing_surface :=
        drawing_pixels (DrawingCanvas.canvas (canvas self)) area in
      match recognize_animal_name drawing_surface with
      | Some ((_ :: _) as animal_name) =>
          let image := get_animal_image animal_name in
          match DrawingCanvas.get_drawing_bounds (canvas self) with
          | Some (x0, y0, x1, y1) =>
              let img_width := Z.of_nat (get_width image) in
              let img_height := Z.of_nat (get_height image) in
              let center_x := (x0 + x1) / 2 in
              let center_y := (y0 + y1) / 2 in
              start_animation fuel {|
                canvas := canvas self;
                animator := animator self;
                state := PROCESSING;
                running := running self;
                current_animal := Some animal_name;
                current_animal_image := Some image;
                animal_image_rect :=
                  Some {| rect_x := center_x - img_width / 2;
                          rect_y := center_y - img_height / 2;
                          rect_w := img_width;
                          rect_h := img_height |};
                current_animation_index := current_animation_index self
              |}
          | None =>
              mret {|
                canvas := canvas self;
                animator := animator self;
                state := DRAWING;
                running := running self;
                current_animal := Some animal_name;
                current_animal_image := Some image;
                animal_image_rect := animal_image_rect self;
                current_animation_index := current_animation_index self
              |}
          end
      | _ => mret (set_state self DRAWING)
      end
  end.

(** [AnimalMaker.update]; [dt] is [self.clock.tick(60) / 1000.0] and
    [ticks] what [has_been_idle] reads. *)
Definition update (fuel : nat) (self : t) (dt : Q) (ticks : Z) : M t :=
  match state self with
  | DRAWING =>
      if DrawingCanvas.has_drawing (canvas self)
         && DrawingCanvas.has_been_idle (canvas self) 3000 ticks
      then start_processing fuel self
      else mret self
  | PROCESSING => mret self
  | ANIMATING =>
      animator ← lift (AnimationManager.update (animator self) dt);
      mret {|
        canvas := canvas self;
        animator := animator;
        state :=
          if AnimationManager.is_finished animator then DISPLAYING
          else ANIMATING;
        running := running self;
        current_animal := current_animal self;
        current_animal_image := current_animal_image self;
        animal_image_rect := animal_image_rect self;
        current_animation_index := current_animation_index self
      |}
  | DISPLAYING => mret self
  end.

(** [run]: the frames of the main loop, each with its events, its time
    step and the time [update] reads; the loop ends when [running] is
    false. Drawing the frame changes nothing of the application. *)
Fixpoint run (fuel : nat) (self : t)
    (frames : list (list (Event * Z) * Q * Z)) : M t :=
  match frames with
  | [] => mret self
  | (events, dt, ticks) :: frames' =>
      if running self then
        self ← update fuel (handle_events self events) dt ticks;
        run fuel self frames'
      else mret self
  end.

End Frames.

End AnimalMaker.

(** ** class OCRRecognizer ([src/ocr_recognition.py]) *)

(** What follows the two recognition engines: the texts they return are
    lower-case letters and whitespace, and only ASCII letters are ever
    compared. *)

Module OCRRecognizer.

(** [self.animal_names], in the order of the source.  It is a set: the
    methods below take the order in which it iterates as [names]. *)
Definition animal_names : list str :=
  String.list_ascii_of_string <$>
  ["cat"; "dog"; "elephant"; "lion"; "tiger"; "bear"; "wolf"; "fox";
   "rabbit"; "horse"; "cow"; "pig"; "sheep"; "goat"; "deer"; "zebra";
   "giraffe"; "hippo"; "rhino"; "monkey"; "ape"; "gorilla"; "chimpanzee";
   "bird"; "eagle"; "hawk"; "owl"; "penguin"; "flamingo"; "parrot";
   "snake"; "lizard"; "turtle"; "crocodile"; "alligator"; "frog"; "fish";
   "shark"; "whale"; "dolphin"; "octopus"; "crab"; "lobster"; "butterfly";
   "bee"; "spider"; "ant"; "ladybug"; "dragonfly"; "kangaroo"; "koala";
   "panda"; "sloth"; "bat"; "squirrel"; "mouse"; "hamster"; "guinea pig";
   "ferret"; "chinchilla"; "hedgehog"].

(** [c.isspace()] *)
Definition isspace (c : Ascii.ascii) : bool :=
  let n := Ascii.nat_of_ascii c in
  ((9 <=? n) && (n <=? 13) || (28 <=? n) && (n <=? 32)
   || (n =? 133) || (n =? 160))%nat.

(** [text.split()]: the maximal runs of characters that are not
    whitespace; [word] is the run being read. *)
Fixpoint split_from (word text : str) : list str :=
  match text with
  | [] => match word with [] => [] | _ => [word] end
  | c :: text' =>
      if isspace c then
        match word with
        | [] => split_from [] text'
        | _ => word :: split_from [] text'
        end
      else split_from (word ++ [c]) text'
  end.

Definition split (text : str) : list str := split_from [] text.

(** [c.lower()] on ASCII. *)
Definition lower_char (c : Ascii.ascii) : Ascii.ascii :=
  let n := Ascii.nat_of_ascii c in
  if ((65 <=? n) && (n <=? 90))%nat then Ascii.ascii_of_nat (n + 32) else c.

Definition lower (text : str) : str := lower_char <$> text.

(** [text.startswith(sub)] and [sub in text]. *)
Fixpoint startswith (text sub : str) : bool :=
  match sub, text with
  | [], _ => true
  | _ :: _, [] => false
  | s :: sub', c :: text' => bool_decide (s = c) && startswith text' sub'
  end.

Fixpoint contains (text sub : str) : bool :=
  startswith text sub
  || match text with
     | [] => false
     | _ :: text' => contains text' sub
     end.

(** *** simple_edit_distance *)

(** The inner loop (lines 231-235) from index [j] on, [s2] being what is
    left of the second string; [None] is an IndexError. *)
Fixpoint inner_loop (c1 : Ascii.ascii) (s2 : str) (j : nat)
    (previous_row current_row : list nat) : option (list nat) :=
  match s2 with
  | [] => Some current_row
  | c2 :: s2' =>
      insertions ← (λ v, v + 1)%nat <$> previous_row !! (j + 1)%nat;
      deletions ← (λ v, v + 1)%nat <$> current_row !! j;
      substitutions ←
        (λ v, v + (if bool_decide (c1 ≠ c2) then 1 else 0))%nat
          <$> previous_row !! j;
      inner_loop c1 s2' (S j) previous_row
        (current_row
         ++ [Nat.min (Nat.min insertions deletions) substitutions])
  end.

(** The outer loop (lines 229-236) from index [i] on. *)
Fixpoint outer_loop (s1 : str) (i : nat) (s2 : str)
    (previous_row : list nat) : option (list nat) :=
  match s1 with
  | [] => Some previous_row
  | c1 :: s1' =>
      current_row ← inner_loop c1 s2 0 previous_row [(i + 1)%nat];
      outer_loop s1' (S i) s2 current_row
  end.

(** Lines 225-238, once the longer string comes first. *)
Definition distance_rows (s1 s2 : str) : outcome nat :=
  if (length s2 =? 0)%nat then Ok (length s1)
  else
    match outer_loop s1 0 s2 (seq 0 (length s2 + 1)) with
    | Some previous_row =>
        match last previous_row with
        | Some distance => Ok distance
        | None => Raise IndexError
        end
    | None => Raise IndexError
    end.

(** [simple_edit_distance]: the recursive call swaps the strings and
    does not recurse again. *)
Definition simple_edit_distance (s1 s2 : str) : outcome nat :=
  if (length s1 <? length s2)%nat then distance_rows s2 s1
  else distance_rows s1 s2.

(** *** The reference for the distance *)

(** [edits n s t]: [n] insertions, deletions and substitutions of one
    character turn [s] into [t]. *)
Inductive edits : nat → str → str → Prop :=
| edits_nil : edits 0 [] []
| edits_keep c s t n : edits n s t → edits n (c :: s) (c :: t)
| edits_substitute c d s t n : edits n s t → edits (S n) (c :: s) (d :: t)
| edits_delete c s t n : edits n s t → edits (S n) (c :: s) t
| edits_insert d s t n : edits n s t → edits (S n) s (d :: t).

(** The least number of edits, by recursion on the first characters. *)
Fixpoint levenshtein (s t : str) : nat :=
  match s with
  | [] => length t
  | c :: s' =>
      (fix against (t : str) : nat :=
         match t with
         | [] => S (length s')
         | d :: t' =>
             Nat.min (Nat.min (levenshtein s' (d :: t') + 1) (against t' + 1))
               (levenshtein s' t' + (if bool_decide (c ≠ d) then 1 else 0))
         end) t
  end.

(** *** Matching a text against the animal names *)

(** Lines 189-194: the first animal, in the order of the two loops,
    that contains a word of three characters or more or is contained in
    it. *)
Definition partial_match (names : list str) (words : list str)
  : option str :=
  head (word ← words;
        animal ← names;
        if (3 <=? length word)%nat
           && (contains animal word || contains word animal)
        then [animal] else []).

(** The loop over the animals of lines 202-206 and 300-304:
    [min_distance] is [None] for [float('inf')]. *)
Fixpoint closest_animal (word : str) (names : list str) (limit : nat)
    (best_match : option str) (min_distance : option nat)
  : outcome (option str) :=
  match names with
  | [] => Ok best_match
  | animal :: names' =>
      match simple_edit_distance word animal with
      | Raise e => Raise e
      | OutOfFuel => OutOfFuel
      | Ok distance =>
          let below :=
            match min_distance with
            | None => true
            | Some m => (distance <? m)%nat
            end in
          if below && (distance <=? limit)%nat then
            closest_animal word names' limit (Some animal) (Some distance)
          else closest_animal word names' limit best_match min_distance
      end
  end.

(** Lines 196-208: the loop returns at the first word of three
    characters or more; without one the method falls off its end. *)
Definition fuzzy_match (names : list str) (words : list str)
  : outcome (option str) :=
  match list_find (λ word : str, (3 ≤ length word)%nat) words with
  | Some (_, word) => closest_animal word names 2 None None
  | None => Ok None
  end.

Definition find_best_animal_match (names : list str) (recognized_text : str)
  : outcome (option str) :=
  match recognized_text with
  | [] => Ok None
  | _ =>
      let words := split recognized_text in
      match list_find (λ word : str, word ∈ names) words with
      | Some (_, word) => Ok (Some word)
      | None =>
          match partial_match names words with
          | Some animal => Ok (Some animal)
          | None => fuzzy_match names words
          end
      end
  end.

Definition suggest_closest_animal (names : list str) (word : str)
  : outcome (option str) :=
  if (length word <? 2)%nat then Ok None
  else closest_animal (lower word) names 3 None None.

(** Lines 266-290 of [recognize_animal_name]: what becomes of the texts
    the engines returned.  A name counts when it is not empty. *)
Fixpoint first_match (names : list str) (recognized_texts : list str)
  : outcome (option str) :=
  match recognized_texts with
  | [] => Ok None
  | text :: texts =>
      match find_best_animal_match names text with
      | Raise e => Raise e
      | OutOfFuel => OutOfFuel
      | Ok (Some ((_ :: _) as animal)) => Ok (Some animal)
      | Ok _ => first_match names texts
      end
  end.

Fixpoint first_suggestion (names : list str) (recognized_texts : list str)
  : outcome (option str) :=
  match recognized_texts with
  | [] => Ok None
  | text :: texts =>
      match split text with
      | [] => first_suggestion names texts
      | word :: _ =>
          match suggest_closest_animal names word with
          | Raise e => Raise e
          | OutOfFuel => OutOfFuel
          | Ok (Some ((_ :: _) as closest)) => Ok (Some closest)
          | Ok _ => first_suggestion names texts
          end
      end
  end.

Definition recognize_from_texts (names : list str)
    (recognized_texts : list str) : outcome (option str) :=
  match first_match names recognized_texts with
  | Raise e => Raise e
  | OutOfFuel => OutOfFuel
  | Ok (Some animal) => Ok (Some animal)
  | Ok None => first_suggestion names recognized_texts
  end.

End OCRRecognizer.

(** ** Example inputs for the application *)

(** Two points of one stroke on a canvas of 1200 by 800 pixels. *)
Definition example_canvas : DrawingCanvas.t :=
  DrawingCanvas.apply_calls (DrawingCanvas.init 1200 800)
    [DrawingCanvas.StartDrawing (100, 100) 0;
     DrawingCanvas.ContinueDrawing (150, 120) 10;
     DrawingCanvas.StopDrawing].

(** One click 30 pixels to the right of that canvas. *)
Definition example_canvas_outside : DrawingCanvas.t :=
  DrawingCanvas.start_drawing (DrawingCanvas.init 1200 800) (1230, 100) 0.

(** Stand-ins for the services: every drawing reads "cat", every image
    is the white square, scaling and dithering change nothing. *)
Definition example_services : AnimalMaker.Services := {|
  AnimalMaker.drawing_pixels := λ _ _, ink_square;
  AnimalMaker.recognize_animal_name :=
    λ _, Some (String.list_ascii_of_string "cat");
  AnimalMaker.get_animal_image := λ _, white_square;
  AnimalMaker.smoothscale := λ image _ _, image;
  AnimalMaker.silhouette := λ image, image
|}.

(** The application with the example drawing, waiting. *)
Definition example_drawing_app : AnimalMaker.t :=
  AnimalMaker.set_canvas (AnimalMaker.init 1200 800) example_canvas.

(** The application in the middle of the example run. *)
Definition example_animating_app : AnimalMaker.t := {|
  AnimalMaker.canvas := example_canvas;
  AnimalMaker.animator := example_run;
  AnimalMaker.state := AnimalMaker.ANIMATING;
  AnimalMaker.running := true;
  AnimalMaker.current_animal := Some (String.list_ascii_of_string "cat");
  AnimalMaker.current_animal_image := Some white_square;
  AnimalMaker.animal_image_rect :=
    Some {| AnimalMaker.rect_x := 80; AnimalMaker.rect_y := 80;
            AnimalMaker.rect_w := 2; AnimalMaker.rect_h := 2 |};
  AnimalMaker.current_animation_index := 3
|}.

(** A text of two words, neither an animal name, the second one letter
    from two of them. *)
Definition example_text : str := String.list_ascii_of_string "zzzzzz cot".

(** * Theorems *)

(** ** Python comparisons and truncation *)

Lemma ltb_lt (x y : Q) : Py.ltb x y = true ↔ (x < y)%Q.
Proof.
  unfold Py.ltb. rewrite Qlt_alt. destruct (x ?= y)%Q; intuition congruence.
Qed.

Lemma ltb_ge (x y : Q) : Py.ltb x y = false ↔ (y <= x)%Q.
Proof.
  rewrite <- not_true_iff_false, ltb_lt. split; [apply Qnot_lt_le | apply Qle_not_lt].
Qed.

Lemma geb_ge (x y : Q) : Py.geb x y = true ↔ (y <= x)%Q.
Proof.
  unfold Py.geb, Py.leb. rewrite Qle_alt. destruct (y ?= x)%Q; intuition congruence.
Qed.

Lemma geb_lt (x y : Q) : Py.geb x y = false ↔ (x < y)%Q.
Proof.
  rewrite <- not_true_iff_false, geb_ge. split; [apply Qnot_le_lt | apply Qlt_not_le].
Qed.

(** Case analysis on the comparisons of a goal, turning each into an
    order fact. *)
Ltac case_cmp :=
  repeat match goal with
  | |- context [Py.ltb ?x ?y] =>
      let E := fresh "Hcmp" in
      destruct (Py.ltb x y) eqn:E;
      [apply ltb_lt in E | apply ltb_ge in E]
  | |- context [Py.geb ?x ?y] =>
      let E := fresh "Hcmp" in
      destruct (Py.geb x y) eqn:E;
      [apply geb_ge in E | apply geb_lt in E]
  end.

Lemma max_cases (a b : Q) :
  ((a < b)%Q ∧ Py.max a b = b) ∨ ((b <= a)%Q ∧ Py.max a b = a).
Proof. unfold Py.max. case_cmp; auto. Qed.

Lemma min_cases (a b : Q) :
  ((b < a)%Q ∧ Py.min a b = b) ∨ ((a <= b)%Q ∧ Py.min a b = a).
Proof. unfold Py.min. case_cmp; auto. Qed.

Lemma truediv_pos (a b : Q) : (0 < b)%Q → Py.truediv a b = Ok (a / b)%Q.
Proof.
  intros Hb. unfold Py.truediv.
  destruct (Qeq_bool b 0) eqn:E; [| done].
  apply Qeq_bool_iff in E. lra.
Qed.

Lemma int_of_nonneg (x : Q) : (0 <= x)%Q → Py.int x = Qfloor x.
Proof.
  destruct x as [n d]. unfold Qle, Py.int. simpl. intros Hn.
  apply Z.quot_div_nonneg; lia.
Qed.

Lemma int_opp (x : Q) : Py.int (- x) = - Py.int x.
Proof.
  destruct x as [n d]. unfold Py.int. simpl. apply Z.quot_opp_l. lia.
Qed.

#[global] Instance int_proper : Proper (Qeq ==> eq) Py.int.
Proof.
  intros x y Hxy.
  destruct (Qlt_le_dec x 0) as [Hneg | Hpos].
  - rewrite <- (Z.opp_involutive (Py.int x)), <- (Z.opp_involutive (Py.int y)).
    rewrite <- (int_opp x), <- (int_opp y), !int_of_nonneg by lra.
    f_equal. apply Qfloor_comp. lra.
  - rewrite !int_of_nonneg by lra. by apply Qfloor_comp.
Qed.

Lemma int_inject_Z (a : Z) : Py.int (inject_Z a) = a.
Proof. unfold Py.int. simpl. apply Z.quot_1_r. Qed.

(** ** Length equalization *)

Section EqualizeFacts.
Context {A : Type}.
Implicit Types source cur : list A.

Lemma cyclic_of_self source : cyclic_of source source.
Proof.
  intros i Hi. by rewrite Nat.mod_small.
Qed.

Lemma cyclic_of_extend source cur k :
  source ≠ [] →
  cyclic_of source cur →
  (length cur mod length source = 0)%nat →
  cyclic_of source (cur ++ take k cur).
Proof.
  intros Hne Hcyc Hmod i Hi.
  assert (Hs : length source ≠ O) by (destruct source; [done | simpl; lia]).
  rewrite length_app, length_take in Hi.
  destruct (decide (i < length cur)%nat) as [Hlt | Hge].
  - rewrite lookup_app_l by done. by apply Hcyc.
  - rewrite lookup_app_r by lia.
    rewrite lookup_take_lt by lia.
    rewrite Hcyc by lia. f_equal.
    apply Nat.Div0.div_exact in Hmod.
    set (q := (length cur / length source)%nat) in Hmod.
    replace (i `mod` length source)%nat
      with ((i - length cur + q * length source) `mod` length source)%nat
      by (f_equal; lia).
    by rewrite Nat.Div0.mod_add.
Qed.

Lemma repeat_source_cyclic source n : 
  source ≠ [] →
  ∀ fuel cur,
    cyclic_of source cur →
    (length source ≤ length cur ≤ n)%nat →
    (length cur mod length source = 0 ∨ length cur = n)%nat →
    (n ≤ fuel + length cur)%nat →
    ∃ r, repeat_source fuel cur n = Some r ∧ length r = n ∧ cyclic_of source r.
Proof.
  intros Hne.
  assert (Hs : (0 < length source)%nat) by (destruct source; [done | simpl; lia]).
  induction fuel as [|fuel IH]; intros cur Hcyc Hlen Hmod Hfuel; simpl.
  - destruct (Nat.ltb_spec (length cur) n) as [Hlt | Hge]; [lia |].
    exists cur. split_and!; [done | lia | done].
  - destruct (Nat.ltb_spec (length cur) n) as [Hlt | Hge].
    + destruct Hmod as [Hmod | ?]; [| lia].
      apply IH.
      * by apply cyclic_of_extend.
      * rewrite length_app, length_take. lia.
      * rewrite length_app, length_take.
        destruct (decide (n - length cur ≤ length cur)%nat).
        -- right. lia.
        -- left. rewrite Nat.min_r by lia.
           replace (length cur + length cur)%nat with (2 * length cur)%nat by lia.
           rewrite Nat.Div0.mul_mod, Hmod, Nat.mul_0_r. apply Nat.Div0.mod_0_l.
      * rewrite length_app, length_take. lia.
    + exists cur. split_and!; [done | lia | done].
Qed.

End EqualizeFacts.

(** Equalization returns for a non-empty source and fuel [n]. *)
Lemma equalize_returns {A} (source : list A) (n fuel : nat) :
  source ≠ [] →
  (n ≤ fuel)%nat →
  ∃ r, equalize fuel source n = Some r
       ∧ length r = n
       ∧ ((n < length source)%nat → r = take n source)
       ∧ ((length source ≤ n)%nat → cyclic_of source r).
Proof.
  intros Hne Hfuel. unfold equalize.
  destruct (Nat.ltb_spec n (length source)) as [Hlt | Hge].
  - exists (take n source). split_and!; [done | | done | lia].
    rewrite length_take. lia.
  - destruct (repeat_source_cyclic source n Hne fuel source)
      as (r & Hr & Hlen & Hcyc).
    + apply cyclic_of_self.
    + lia.
    + left. apply Nat.Div0.mod_same.
    + lia.
    + exists r. split_and!; [done | done | lia | done].
Qed.

(** C4. Equalizing a non-empty source list against [n] targets returns
    (given fuel [n]) a list of length [n]: the first [n] source entries
    when the source is longer, and otherwise the source repeated
    cyclically (unchanged when the lengths agree), entry [i] being source
    entry [i mod s]; for five sources and twelve targets the indices are
    0 1 2 3 4 0 1 2 3 4 0 1. *)
Theorem equalize_truncates_or_cycles {A} (source : list A) (n fuel : nat) :
  source ≠ [] →
  (n ≤ fuel)%nat →
  (∃ r, equalize fuel source n = Some r
        ∧ length r = n
        ∧ ((n < length source)%nat → r = take n source)
        ∧ ((length source ≤ n)%nat →
           ∀ i : nat, (i < n)%nat →
             r !! i = source !! (i mod length source)%nat))
  ∧ equalize 12 [0; 1; 2; 3; 4] 12 = Some [0; 1; 2; 3; 4; 0; 1; 2; 3; 4; 0; 1].
Proof.
  intros Hne Hfuel. split; [| reflexivity].
  destruct (equalize_returns source n fuel Hne Hfuel)
    as (r & Hr & Hlen & Htake & Hcyc).
  exists r. split_and!; [done | done | done |].
  intros Hlt i Hi. apply (Hcyc Hlt). lia.
Qed.

Lemma equalize_truncates_or_cycles_witness :
  [7; 8; 9] ≠ []
  ∧ (5 ≤ 5)%nat
  ∧ ∃ r, equalize 5 [7; 8; 9] 5 = Some r ∧ length r = 5%nat.
Proof.
  split; [discriminate |]. split; [lia |].
  destruct (equalize_truncates_or_cycles [7; 8; 9] 5 5)
    as [(r & Hr & Hlen & _) _]; [discriminate | lia |].
  exists r. split; assumption.
Defined.

(** ** Binary64 arithmetic at the end of an interpolation *)

Section Binary64Facts.
Import Binary64.

Lemma is_finite_sf (x : float) :
  is_finite x = true → sf_finite (Prim2SF x) = true.
Proof.
  unfold is_finite, is_nan, is_infinity.
  rewrite !FloatAxioms.eqb_spec, abs_spec.
  change (Prim2SF infinity) with (S754_infinity false).
  destruct (Prim2SF x) as [s | s | | s m e]; try reflexivity.
  - destruct s; discriminate.
  - discriminate.
Qed.

Lemma is_nan_sf (x : float) : is_nan x = false → Prim2SF x ≠ S754_nan.
Proof.
  unfold is_nan. rewrite FloatAxioms.eqb_spec. intros Hx Hnan.
  rewrite Hnan in Hx. discriminate.
Qed.

(** Multiplying by 1.0 is exact: the product mantissa is the mantissa
    shifted left by 52 bits, and rounding shifts it back. *)
Lemma SFmul_one_r (x : spec_float) :
  valid_binary x = true → SFmul prec emax x sf_one = x.
Proof.
  destruct x as [s | s | | sx mx ex]; simpl; intros Hb;
    rewrite ?xorb_false_r; try reflexivity.
  unfold bounded, canonical_mantissa in Hb.
  apply andb_true_iff in Hb as [Hc He].
  apply Z.eqb_eq in Hc.
  rewrite Pos.mul_comm.
  change (4503599627370496 * mx)%positive with (shl52 mx).
  unfold binary_round_aux, shr_fexp.
  assert (Hd : Zdigits2 (Zpos (shl52 mx)) = Zpos (digits2_pos mx) + 52).
  { unfold shl52. cbn [Zdigits2 digits2_pos]. lia. }
  rewrite Hd.
  replace (Z.pos (digits2_pos mx) + 52 + (ex + -52))
    with (Z.pos (digits2_pos mx) + ex) by lia.
  rewrite Hc.
  replace (ex - (ex + -52)) with 52 by lia.
  unfold shr_record_of_loc, shr.
  change (SpecFloat.iter_pos shr_1 52
            {| shr_m := Zpos (shl52 mx); shr_r := false; shr_s := false |})
    with {| shr_m := Zpos mx; shr_r := false; shr_s := false |}.
  cbn [shr_m loc_of_shr_record round_nearest_even shr_r shr_s].
  replace (ex + -52 + 52) with ex by lia.
  unfold Zdigits2. rewrite Hc, Z.sub_diag. cbn [shr shr_m].
  rewrite He. reflexivity.
Qed.

Lemma SFmul_zero_r (x : spec_float) (s : bool) :
  sf_finite x = true →
  ∃ s', SFmul prec emax x (S754_zero s) = S754_zero s'.
Proof. destruct x; simpl; try discriminate; eauto. Qed.

Lemma SFadd_zero_l (s : bool) (y : spec_float) :
  y ≠ S754_nan →
  SFeqb (SFadd prec emax (S754_zero s) y) y = true.
Proof.
  intros Hy. unfold SFeqb.
  destruct y as [sy | sy | | sy my ey]; simpl; try congruence.
  - destruct s, sy; reflexivity.
  - destruct sy; reflexivity.
  - destruct sy; rewrite Z.compare_refl, ?Pos.compare_cont_refl; reflexivity.
Qed.

Lemma SFadd_zero_r (x : spec_float) (s : bool) (y : spec_float) :
  SFeqb x y = true →
  SFeqb (SFadd prec emax x (S754_zero s)) y = true.
Proof.
  unfold SFeqb.
  destruct x as [sx | sx | | sx mx ex]; simpl; try congruence.
  destruct sx, s; simpl; congruence.
Qed.

Lemma SFadd_zero_r_finite (x : spec_float) (s : bool) :
  sf_finite x = true →
  sf_finite (SFadd prec emax x (S754_zero s)) = true.
Proof.
  destruct x as [sx | sx | | sx mx ex]; simpl; try congruence.
  destruct sx, s; reflexivity.
Qed.

Lemma SFleb_one_finite (x : spec_float) :
  SFleb (SFabs x) sf_one = true → sf_finite x = true.
Proof. destruct x; simpl; try reflexivity; discriminate. Qed.

(** *** Products that cannot overflow *)

Lemma iter_pos_invariant {A} (f : A → A) (P : A → Prop) :
  (∀ x, P x → P (f x)) →
  ∀ n x, P x → P (SpecFloat.iter_pos f n x).
Proof.
  intros Hf. induction n as [n IH | n IH |]; intros x Hx; simpl; auto.
Qed.

Lemma shr_1_bounds (M : Z) (r : shr_record) :
  0 ≤ shr_m r ≤ M → 0 ≤ shr_m (shr_1 r) ≤ M.
Proof.
  destruct r as [m r s]. simpl.
  destruct m as [| [p | p |] | [p | p |]]; simpl; lia.
Qed.

Lemma shr_fexp_bounds (m e : Z) (l : location) :
  0 ≤ m →
  let '(mrs, e') := shr_fexp prec emax m e l in
  0 ≤ shr_m mrs ≤ m
  ∧ (e' = e ∨ e' = fexp prec emax (Zdigits2 m + e)).
Proof.
  intros Hm. unfold shr_fexp, shr.
  assert (Hrec : 0 ≤ shr_m (shr_record_of_loc m l) ≤ m).
  { destruct l as [| []]; simpl; lia. }
  destruct (fexp prec emax (Zdigits2 m + e) - e) as [| p | p] eqn:Hn.
  - split; [exact Hrec | by left].
  - split.
    + apply iter_pos_invariant; [apply shr_1_bounds | exact Hrec].
    + right. lia.
  - split; [exact Hrec | by left].
Qed.

Lemma round_nearest_even_bounds (m : Z) (l : location) :
  m ≤ round_nearest_even m l ≤ m + 1.
Proof.
  destruct l as [| []]; simpl; try lia. destruct (Z.even m); lia.
Qed.

Lemma Zdigits2_log2 (m : Z) : 0 < m → Zdigits2 m = Z.log2 m + 1.
Proof.
  destruct m as [| p | p]; try lia. intros _. simpl.
  induction p as [p IH | p IH |]; simpl; try lia.
  - destruct p; simpl in *; lia.
  - destruct p; simpl in *; lia.
Qed.

Lemma Zdigits2_le (a b : Z) : 0 ≤ a ≤ b → Zdigits2 a ≤ Zdigits2 b.
Proof.
  intros [Ha Hab].
  destruct (Z.eq_dec a 0) as [-> | Hne].
  - simpl. destruct b; simpl; lia.
  - rewrite !Zdigits2_log2 by lia.
    apply Z.add_le_mono_r, Z.log2_le_mono. exact Hab.
Qed.

Lemma Zdigits2_succ (a : Z) : 0 ≤ a → Zdigits2 (a + 1) ≤ Zdigits2 a + 1.
Proof.
  intros Ha.
  destruct (Z.eq_dec a 0) as [-> | Hne]; [simpl; lia |].
  rewrite !Zdigits2_log2 by lia.
  pose proof (Z.log2_succ_le a) as Hs. unfold Z.succ in Hs. lia.
Qed.

Lemma Zdigits2_mul (a b : Z) :
  0 < a → 0 < b → Zdigits2 (a * b) ≤ Zdigits2 a + Zdigits2 b.
Proof.
  intros Ha Hb. rewrite !Zdigits2_log2 by lia.
  pose proof (Z.log2_mul_above a b ltac:(lia) ltac:(lia)). lia.
Qed.

(** Rounding a positive mantissa of few digits at a low exponent gives a
    finite number. *)
Lemma binary_round_aux_finite (sx : bool) (m : positive) (e : Z) :
  Zdigits2 (Zpos m) ≤ 200 →
  e ≤ 0 →
  sf_finite (binary_round_aux prec emax sx (Zpos m) e loc_Exact) = true.
Proof.
  intros Hd He. unfold binary_round_aux.
  pose proof (shr_fexp_bounds (Zpos m) e loc_Exact ltac:(lia)) as H1.
  destruct (shr_fexp prec emax (Zpos m) e loc_Exact) as [mrs' e'].
  destruct H1 as [Hm' He'].
  set (m1 := round_nearest_even (shr_m mrs') (loc_of_shr_record mrs')).
  pose proof (round_nearest_even_bounds (shr_m mrs') (loc_of_shr_record mrs'))
    as Hround. fold m1 in Hround.
  pose proof (shr_fexp_bounds m1 e' loc_Exact ltac:(lia)) as H2.
  destruct (shr_fexp prec emax m1 e' loc_Exact) as [mrs'' e''].
  destruct H2 as [Hm'' He''].
  assert (Hd1 : Zdigits2 m1 ≤ 201).
  { pose proof (Zdigits2_le m1 (shr_m mrs' + 1) ltac:(lia)).
    pose proof (Zdigits2_succ (shr_m mrs') ltac:(lia)).
    pose proof (Zdigits2_le (shr_m mrs') (Zpos m) ltac:(lia)). lia. }
  assert (He'le : e' ≤ 147).
  { destruct He' as [-> | ->]; [lia |]. unfold fexp, emin, prec, emax. lia. }
  assert (He''le : e'' ≤ 971).
  { destruct He'' as [-> | ->]; [lia |]. unfold fexp, emin, prec, emax. lia. }
  destruct (shr_m mrs'') as [| p | p]; [reflexivity | | lia].
  replace (e'' <=? emax - prec) with true; [reflexivity |].
  symmetry. apply Z.leb_le. unfold emax, prec. lia.
Qed.

(** A number of magnitude at most 1, times 20.0, is finite. *)
Lemma SFmul_twenty_finite (x : spec_float) :
  valid_binary x = true →
  SFleb (SFabs x) sf_one = true →
  sf_finite (SFmul prec emax x sf_twenty) = true.
Proof.
  destruct x as [s | s | | sx mx ex]; simpl; intros Hb Hle;
    try reflexivity; try discriminate.
  unfold bounded, canonical_mantissa in Hb.
  apply andb_true_iff in Hb as [Hc _]. apply Z.eqb_eq in Hc.
  assert (Hex : ex ≤ -52).
  { unfold SFleb, SFcompare, sf_one in Hle.
    destruct (Z.compare_spec ex (-52)); [lia | lia | discriminate]. }
  assert (Hdx : Zpos (digits2_pos mx) ≤ 53).
  { unfold fexp, prec, emin, emax in Hc. lia. }
  apply binary_round_aux_finite; [| lia].
  rewrite Pos2Z.inj_mul.
  pose proof (Zdigits2_mul (Zpos mx) 5629499534213120 ltac:(lia) ltac:(lia))
    as Hmul.
  change (Zdigits2 5629499534213120) with 53 in Hmul.
  change (Zdigits2 (Z.pos mx)) with (Z.pos (digits2_pos mx)) in Hmul. lia.
Qed.

(** *** The interpolation at its end *)

(** [x * 0.0 + y * 1.0 == y] for a finite [x] and any [y] but NaN. *)
Lemma lerp_at_end (x y : float) :
  sf_finite (Prim2SF x) = true →
  is_nan y = false →
  (x * 0 + y * 1 =? y)%float = true.
Proof.
  intros Hx Hy.
  rewrite FloatAxioms.eqb_spec, add_spec, !mul_spec.
  change (Prim2SF 0) with (S754_zero false).
  change (Prim2SF 1) with sf_one.
  unfold SF64mul, SF64add.
  rewrite SFmul_one_r by apply Prim2SF_valid.
  destruct (SFmul_zero_r (Prim2SF x) false Hx) as [s' ->].
  by apply SFadd_zero_l, is_nan_sf.
Qed.

(** Adding [z * 0.0] for a finite [z] changes nothing. *)
Lemma add_zero_product (a z y : float) :
  sf_finite (Prim2SF z) = true →
  (a =? y)%float = true →
  (a + z * 0 =? y)%float = true.
Proof.
  intros Hz Hay. rewrite FloatAxioms.eqb_spec in *.
  rewrite add_spec, mul_spec.
  change (Prim2SF 0) with (S754_zero false). unfold SF64mul, SF64add.
  destruct (SFmul_zero_r (Prim2SF z) false Hz) as [s' ->].
  by apply SFadd_zero_r.
Qed.

Lemma add_zero_product_finite (c z : float) :
  is_finite c = true →
  sf_finite (Prim2SF z) = true →
  sf_finite (Prim2SF (c + z * 0)) = true.
Proof.
  intros Hc%is_finite_sf Hz. rewrite add_spec, mul_spec.
  change (Prim2SF 0) with (S754_zero false). unfold SF64mul, SF64add.
  destruct (SFmul_zero_r (Prim2SF z) false Hz) as [s' ->].
  by apply SFadd_zero_r_finite.
Qed.

Lemma unit_range_finite (x : float) :
  unit_range x → sf_finite (Prim2SF x) = true.
Proof.
  unfold unit_range. rewrite leb_spec, abs_spec.
  change (Prim2SF 1) with sf_one. apply SFleb_one_finite.
Qed.

Lemma unit_range_times_twenty_finite (x : float) :
  unit_range x → sf_finite (Prim2SF (x * 20)) = true.
Proof.
  unfold unit_range. rewrite leb_spec, abs_spec, mul_spec.
  change (Prim2SF 1) with sf_one.
  change (Prim2SF 20) with sf_twenty.
  apply SFmul_twenty_finite, Prim2SF_valid.
Qed.

(** [z * 0.0] compares equal to 0.0 for a finite [z]. *)
Lemma zero_product (z : float) :
  sf_finite (Prim2SF z) = true → (z * 0 =? 0)%float = true.
Proof.
  intros Hz. rewrite FloatAxioms.eqb_spec, mul_spec.
  change (Prim2SF 0) with (S754_zero false). unfold SF64mul.
  destruct (SFmul_zero_r (Prim2SF z) false Hz) as [s' ->]. by destruct s'.
Qed.

End Binary64Facts.

(** ** Kinematics at the end of a run *)

(** C5. At progress 1 the ease-out and the smooth-step factors are 1 and
    the wave offset is 0, so a PIXEL_MORPH update and a WAVE_TRANSFORM
    update both leave the particle on its target position: in exact
    arithmetic for every particle, and in binary64 (equality being the
    comparison of doubles) for every finite start position, every target
    but NaN, and a value of the sine between -1 and 1. *)
Theorem morph_and_wave_reach_target {math : MathLib} (self : Particle.t)
    (dt : Q) :
  ((Particle.ease_out 1 == 1)%Q
   ∧ (Particle.smooth_step 1 == 1)%Q
   ∧ (Particle.wave_offset self 1 == 0)%Q
   ∧ (Particle.current_x (Particle.update_pixel_morph self 1 dt)
      == Particle.target_x self)%Q
   ∧ (Particle.current_y (Particle.update_pixel_morph self 1 dt)
      == Particle.target_y self)%Q
   ∧ (Particle.current_x (Particle.update_wave_transform self 1 dt)
      == Particle.target_x self)%Q
   ∧ (Particle.current_y (Particle.update_wave_transform self 1 dt)
      == Particle.target_y self)%Q)
  ∧ ∀ (math64 : Binary64.MathLib) (start_x start_y target_x target_y : float),
      Binary64.unit_range
        (Binary64.math_sin (Binary64.wave_argument start_x 1)) →
      is_finite start_x = true → is_finite start_y = true →
      is_nan target_x = false → is_nan target_y = false →
      Binary64.ease_out 1 = 1%float
      ∧ Binary64.smooth_step 1 = 1%float
      ∧ (Binary64.wave_offset start_x 1 =? 0)%float = true
      ∧ ((Binary64.update_pixel_morph start_x start_y target_x target_y 1).1
         =? target_x)%float = true
      ∧ ((Binary64.update_pixel_morph start_x start_y target_x target_y 1).2
         =? target_y)%float = true
      ∧ ((Binary64.update_wave_transform start_x start_y target_x target_y 1).1
         =? target_x)%float = true
      ∧ ((Binary64.update_wave_transform start_x start_y target_x target_y 1).2
         =? target_y)%float = true.
Proof.
  split.
  - unfold Particle.update_pixel_morph, Particle.update_wave_transform,
      Particle.wave_offset, Particle.ease_out, Particle.smooth_step; simpl.
    split_and!; ring.
  - intros math64 start_x start_y target_x target_y Hsin Hsx Hsy Htx Hty.
    unfold Binary64.update_pixel_morph, Binary64.update_wave_transform,
      Binary64.wave_offset. cbn [fst snd].
    change (Binary64.ease_out 1) with 1%float.
    change (Binary64.smooth_step 1) with 1%float.
    change (1 - 1)%float with 0%float.
    pose proof (is_finite_sf _ Hsx) as Hsx'.
    pose proof (is_finite_sf _ Hsy) as Hsy'.
    pose proof (unit_range_times_twenty_finite _ Hsin) as Hoffset.
    split_and!; try reflexivity; try (by apply lerp_at_end).
    + by apply zero_product.
    + apply add_zero_product; [done | by apply lerp_at_end].
Qed.

Lemma morph_and_wave_reach_target_witness :
  Binary64.unit_range
    (@Binary64.math_sin example_math64
       (Binary64.wave_argument (math := example_math64) 10.5 1))
  ∧ is_finite 10.5 = true
  ∧ is_finite 10.25 = true
  ∧ is_nan 50 = false
  ∧ is_nan 51 = false
  ∧ ((Binary64.update_wave_transform (math := example_math64)
        10.5 10.25 50 51 1).1 =? 50)%float = true
  ∧ ((Binary64.update_wave_transform (math := example_math64)
        10.5 10.25 50 51 1).2 =? 51)%float = true.
Proof.
  destruct (morph_and_wave_reach_target (math := example_math)
              particle_left_of_frame 1) as [_ H64].
  destruct (H64 example_math64 10.5%float 10.25%float 50%float 51%float
              eq_refl eq_refl eq_refl eq_refl eq_refl)
    as (_ & _ & _ & _ & _ & Hx & Hy).
  split_and!; [reflexivity | reflexivity | reflexivity | reflexivity
              | reflexivity | exact Hx | exact Hy].
Defined.

(** C10. At progress 1 a PARTICLE_SWIRL update leaves the particle on its
    target position, whatever the center point: in exact arithmetic for
    every particle, and in binary64 (equality being the comparison of
    doubles) for every finite center, every target but NaN, and values
    of the sine and the cosine between -1 and 1. *)
Theorem swirl_reaches_target {math : MathLib} (self : Particle.t) (dt : Q)
    (center : Z * Z) :
  ((Particle.current_x (Particle.update_particle_swirl self 1 dt center)
    == Particle.target_x self)%Q
   ∧ (Particle.current_y (Particle.update_particle_swirl self 1 dt center)
      == Particle.target_y self)%Q)
  ∧ ∀ (math64 : Binary64.MathLib)
      (age center_x center_y target_x target_y : float),
      Binary64.unit_range (Binary64.math_sin (Binary64.swirl_angle age 1)) →
      Binary64.unit_range (Binary64.math_cos (Binary64.swirl_angle age 1)) →
      is_finite center_x = true → is_finite center_y = true →
      is_nan target_x = false → is_nan target_y = false →
      ((Binary64.update_particle_swirl age center_x center_y
          target_x target_y 1).1 =? target_x)%float = true
      ∧ ((Binary64.update_particle_swirl age center_x center_y
            target_x target_y 1).2 =? target_y)%float = true.
Proof.
  split.
  - unfold Particle.update_particle_swirl; simpl. split; ring.
  - intros math64 age center_x center_y target_x target_y Hsin Hcos Hcx Hcy
      Htx Hty.
    unfold Binary64.update_particle_swirl. cbn [fst snd].
    change (1 - 1)%float with 0%float. change (50 * 0)%float with 0%float.
    split; (apply lerp_at_end; [| done]);
      by apply add_zero_product_finite, unit_range_finite.
Qed.

Lemma swirl_reaches_target_witness :
  Binary64.unit_range
    (@Binary64.math_sin example_math64
       (Binary64.swirl_angle (math := example_math64) 0.5 1))
  ∧ Binary64.unit_range
      (@Binary64.math_cos example_math64
         (Binary64.swirl_angle (math := example_math64) 0.5 1))
  ∧ is_finite 30 = true
  ∧ is_finite 40 = true
  ∧ is_nan 50 = false
  ∧ is_nan 51 = false
  ∧ ((Binary64.update_particle_swirl (math := example_math64)
        0.5 30 40 50 51 1).1 =? 50)%float = true
  ∧ ((Binary64.update_particle_swirl (math := example_math64)
        0.5 30 40 50 51 1).2 =? 51)%float = true.
Proof.
  destruct (swirl_reaches_target (math := example_math)
              particle_left_of_frame 1 (0, 0)) as [_ H64].
  destruct (H64 example_math64 0.5%float 30%float 40%float 50%float 51%float
              eq_refl eq_refl eq_refl eq_refl eq_refl eq_refl) as [Hx Hy].
  split_and!; [reflexivity | reflexivity | reflexivity | reflexivity
              | reflexivity | reflexivity | exact Hx | exact Hy].
Defined.

(** ** Fields fixed at creation *)

Lemma update_particle_fixed {math : MathLib} ty (progress dt : Q) center
    (particle : Particle.t) :
  Particle.fixed_fields
    (AnimationManager.update_particle ty progress dt center particle)
  = Particle.fixed_fields particle.
Proof.
  unfold AnimationManager.update_particle.
  destruct ty; simpl;
    unfold Particle.update_sand_fall;
    repeat match goal with
    | |- context [if ?b then _ else _] => destruct b
    end; reflexivity.
Qed.

(** C9. An update of the manager keeps the particles in place and leaves
    the start and target positions, the source and target colors, the
    size and the fall delay of each one as they were (with gravity,
    friction, life and the wobble settings); this holds for each of the
    four animation types. *)
Theorem update_keeps_fixed_fields {math : MathLib} (self self' : AnimationManager.t)
    (dt : Q) :
  AnimationManager.update self dt = Ok self' →
  Forall2 (λ particle particle',
             Particle.fixed_fields particle' = Particle.fixed_fields particle)
    (AnimationManager.particles self) (AnimationManager.particles self').
Proof.
  unfold AnimationManager.update. intros Hup.
  destruct (negb (AnimationManager.is_animating self)).
  - inversion Hup; subst. apply Forall2_same_length_lookup. split; [done |].
    intros i p p' Hp Hp'. congruence.
  - destruct (Py.truediv dt (AnimationManager.duration self)); [| done | done].
    inversion Hup; subst; simpl.
    apply Forall2_fmap_r, Forall_Forall2_diag, Forall_forall.
    intros p _. apply update_particle_fixed.
Qed.

Lemma update_keeps_fixed_fields_witness :
  ∃ self',
    AnimationManager.update (math := example_math) example_run 0.5 = Ok self'
    ∧ Forall2 (λ particle particle',
                 Particle.fixed_fields particle'
                 = Particle.fixed_fields particle)
        (AnimationManager.particles example_run)
        (AnimationManager.particles self').
Proof.
  eexists. split; [reflexivity |].
  apply (update_keeps_fixed_fields (math := example_math) example_run _ 0.5).
  reflexivity.
Defined.

(** ** Progress of a run *)

Lemma started_in_run (self : AnimationManager.t) :
  AnimationManager.started self → AnimationManager.in_run self.
Proof.
  intros (Hp & Ha & Hd). unfold AnimationManager.in_run. rewrite Ha.
  split_and!; [done | lra | lra].
Qed.

Lemma step_nonneg (dt duration : Q) :
  (0 <= dt)%Q → (0 < duration)%Q → (0 <= dt / duration)%Q.
Proof. intros Hdt Hd. apply Qle_shift_div_l; lra. Qed.

(** One tick from a state of a run: the update returns, the state is
    again one of a run, progress has not decreased, and a finished run is
    left alone. *)
Lemma update_in_run {math : MathLib} (self : AnimationManager.t) (dt : Q) :
  AnimationManager.in_run self →
  (0 <= dt)%Q →
  ∃ self',
    AnimationManager.update self dt = Ok self'
    ∧ AnimationManager.in_run self'
    ∧ (AnimationManager.progress self <= AnimationManager.progress self')%Q
    ∧ (AnimationManager.is_animating self = false → self' = self)
    ∧ (AnimationManager.is_animating self = true →
       AnimationManager.is_animating self' = false
       ↔ (1 <= AnimationManager.progress self
               + dt / AnimationManager.duration self)%Q).
Proof.
  intros (Hdur & Hlo & Hhi) Hdt.
  pose proof (step_nonneg dt _ Hdt Hdur) as Hstep.
  unfold AnimationManager.update.
  destruct (AnimationManager.is_animating self) eqn:Hanim; simpl.
  - rewrite truediv_pos by done.
    eexists. split; [reflexivity |].
    unfold AnimationManager.in_run; simpl.
    case_cmp; rewrite ?Hanim; split_and!; try done; try lra.
  - exists self. unfold AnimationManager.in_run. rewrite Hanim.
    split_and!; try done. lra.
Qed.

Lemma updates_in_run {math : MathLib} (dts : list Q) :
  Forall (λ dt, (0 <= dt)%Q) dts →
  ∀ self : AnimationManager.t,
    AnimationManager.in_run self →
    ∃ self',
      AnimationManager.updates self dts = Ok self'
      ∧ AnimationManager.in_run self'
      ∧ (AnimationManager.progress self <= AnimationManager.progress self')%Q.
Proof.
  induction 1 as [| dt dts Hdt _ IH]; intros self Hrun; simpl.
  - exists self. split_and!; [done | done | lra].
  - destruct (update_in_run self dt Hrun Hdt) as (mid & -> & Hmid & Hle & _).
    destruct (IH mid Hmid) as (self' & -> & Hrun' & Hle').
    exists self'. split_and!; [done | done | lra].
Qed.

Lemma in_run_finished_iff (self : AnimationManager.t) :
  AnimationManager.in_run self →
  AnimationManager.is_finished self = true
  ↔ (AnimationManager.progress self == 1)%Q.
Proof.
  intros (_ & _ & Hhi). unfold AnimationManager.is_finished.
  destruct (AnimationManager.is_animating self); simpl.
  - split; [done | lra].
  - rewrite Hhi. split; [reflexivity | done].
Qed.

(** C2. After a start with a positive duration, whatever positive time
    steps have been played, the next update with a positive step returns;
    progress does not decrease and stays at most 1; the run is finished
    after a tick exactly when progress is 1 after it, progress is then the
    constant 1, and a tick on a finished run changes nothing. *)
Theorem progress_monotone_and_clamped {math : MathLib}
    (self : AnimationManager.t) (dts : list Q) (dt : Q) :
  AnimationManager.started self →
  Forall (λ dt, (0 < dt)%Q) dts →
  (0 < dt)%Q →
  ∃ before after,
    AnimationManager.updates self dts = Ok before
    ∧ AnimationManager.update before dt = Ok after
    ∧ (AnimationManager.progress before <= AnimationManager.progress after)%Q
    ∧ (AnimationManager.progress after <= 1)%Q
    ∧ (AnimationManager.is_finished before = true
       ↔ (AnimationManager.progress before == 1)%Q)
    ∧ (AnimationManager.is_finished after = true
       ↔ (AnimationManager.progress after == 1)%Q)
    ∧ (AnimationManager.is_finished after = true →
       AnimationManager.progress after = 1%Q)
    ∧ (AnimationManager.is_finished after = true
       ↔ AnimationManager.is_finished before = true
         ∨ (1 <= AnimationManager.progress before
                 + dt / AnimationManager.duration before)%Q)
    ∧ (AnimationManager.is_finished before = true → after = before).
Proof.
  intros Hstart Hdts Hdt.
  apply (Forall_impl _ (λ dt, (0 <= dt)%Q)) in Hdts;
    [| by intros ?; apply Qlt_le_weak].
  apply Qlt_le_weak in Hdt.
  destruct (updates_in_run dts Hdts self (started_in_run _ Hstart))
    as (before & Hbefore & Hrun & _).
  destruct (update_in_run before dt Hrun Hdt)
    as (after & Hafter & Hrun' & Hle & Hnoop & Hreach).
  exists before, after. split_and!; try done.
  - destruct Hrun' as (_ & _ & Hhi).
    destruct (AnimationManager.is_animating after); [lra | rewrite Hhi; lra].
  - by apply in_run_finished_iff.
  - by apply in_run_finished_iff.
  - destruct Hrun' as (_ & _ & Hhi). unfold AnimationManager.is_finished.
    destruct (AnimationManager.is_animating after); [done | by intros _].
  - unfold AnimationManager.is_finished.
    destruct (AnimationManager.is_animating before) eqn:Hanim; simpl.
    + rewrite negb_true_iff, (Hreach eq_refl). intuition discriminate.
    + rewrite (Hnoop eq_refl), Hanim. simpl. intuition.
  - unfold AnimationManager.is_finished. intros Hfin. apply Hnoop.
    by destruct (AnimationManager.is_animating before).
Qed.

Lemma progress_monotone_and_clamped_witness :
  AnimationManager.started example_run
  ∧ Forall (λ dt, (0 < dt)%Q) [0.25%Q; 0.25%Q]
  ∧ (0 < 0.5)%Q
  ∧ ∃ before after,
      AnimationManager.updates (math := example_math) example_run [0.25%Q; 0.25%Q]
      = Ok before
      ∧ AnimationManager.update (math := example_math) before 0.5 = Ok after
      ∧ (AnimationManager.progress before <= AnimationManager.progress after)%Q
      ∧ (AnimationManager.progress after <= 1)%Q.
Proof.
  assert (Hstart : AnimationManager.started example_run).
  { split_and!; reflexivity. }
  assert (Hdts : Forall (λ dt, (0 < dt)%Q) [0.25%Q; 0.25%Q]).
  { repeat constructor. }
  assert (Hdt : (0 < 0.5)%Q) by reflexivity.
  split_and!; [exact Hstart | exact Hdts | exact Hdt |].
  destruct (progress_monotone_and_clamped (math := example_math) example_run
              [0.25%Q; 0.25%Q] 0.5 Hstart Hdts Hdt)
    as (before & after & Hbefore & Hafter & Hle & Hhi & _).
  exists before, after. split_and!; assumption.
Defined.

(** ** Starting without ink *)

(** C1. When the source bitmap yields no ink sample and the target bitmap
    yields at least one shape pixel, [start_animation] does not return:
    [extract_pixels_for_shape] divides the candidate count by the source
    count 0 and the call raises ZeroDivisionError. *)
Theorem start_animation_without_ink_raises {math : MathLib} {rnd : RandomSource}
    (fuel : nat) (self : AnimationManager.t)
    (source_surface target_surface : Surface)
    (source_offset target_offset : Z * Z) (ty : AnimationType) (k : nat) :
  AnimationManager.extract_non_white_pixels source_surface source_offset = [] →
  AnimationManager.all_shape_pixels target_surface target_offset ≠ [] →
  AnimationManager.start_animation fuel self source_surface target_surface
    source_offset target_offset ty k
  = Raise ZeroDivisionError.
Proof.
  intros Hsrc Htgt.
  unfold AnimationManager.start_animation,
    AnimationManager.extract_pixels_for_shape.
  rewrite Hsrc.
  destruct (AnimationManager.all_shape_pixels target_surface target_offset)
    as [| c cs]; [done |].
  reflexivity.
Qed.

Lemma start_animation_without_ink_raises_witness :
  AnimationManager.extract_non_white_pixels white_pixel (0, 0) = []
  ∧ AnimationManager.all_shape_pixels black_pixel (0, 0) ≠ []
  ∧ ∀ (math : MathLib) (rnd : RandomSource) (fuel k : nat),
      AnimationManager.start_animation fuel AnimationManager.init
        white_pixel black_pixel (0, 0) (0, 0) SAND_FALL k
      = Raise ZeroDivisionError.
Proof.
  split_and!; [reflexivity | discriminate |].
  intros math rnd fuel k.
  apply start_animation_without_ink_raises; [reflexivity | discriminate].
Defined.

(** With no ink and no shape pixel the start goes through and leaves no
    particle. *)
Lemma start_animation_without_pixels {math : MathLib} {rnd : RandomSource}
    (fuel : nat) (self : AnimationManager.t)
    (source_surface target_surface : Surface)
    (source_offset target_offset : Z * Z) (ty : AnimationType) (k : nat) :
  AnimationManager.extract_non_white_pixels source_surface source_offset = [] →
  AnimationManager.all_shape_pixels target_surface target_offset = [] →
  ∃ self',
    AnimationManager.start_animation fuel self source_surface target_surface
      source_offset target_offset ty k = Ok (self', k)
    ∧ AnimationManager.particles self' = []
    ∧ AnimationManager.progress self' = 0%Q
    ∧ AnimationManager.is_animating self' = true
    ∧ ∀ surface_width surface_height,
        AnimationManager.draw self' surface_width surface_height = [].
Proof.
  intros Hsrc Htgt.
  unfold AnimationManager.start_animation,
    AnimationManager.extract_pixels_for_shape.
  rewrite Hsrc, Htgt. simpl.
  destruct fuel; eexists; (split; [reflexivity | done]).
Qed.

(** ** The greedy assignment *)

Section AssignFacts.
Implicit Types (used : gset nat) (targets : list sample).
Implicit Types (best : option (nat * Pos * RGB)).

(** Once the inner loop holds a candidate it ends with one. *)
Lemma closest_unused_keeps source_pos used targets :
  ∀ i best_distance best,
    is_Some best →
    is_Some (AnimationManager.closest_unused source_pos used i targets
               best_distance best).
Proof.
  induction targets as [| [target_pos target_color] targets IH];
    intros i best_distance best Hbest; simpl; [done |].
  case_decide; [by apply IH |].
  destruct (AnimationManager.below_best _ _); by apply IH.
Qed.

(** What the inner loop returns is its initial candidate or an unused
    entry of the list. *)
Lemma closest_unused_found source_pos used targets :
  ∀ i best_distance best j target_pos target_color,
    AnimationManager.closest_unused source_pos used i targets
      best_distance best = Some (j, target_pos, target_color) →
    best = Some (j, target_pos, target_color)
    ∨ ((i ≤ j)%nat ∧ (j ∉ used)
       ∧ targets !! (j - i)%nat = Some (target_pos, target_color)).
Proof.
  induction targets as [| [tp tc] targets IH];
    intros i best_distance best j target_pos target_color; simpl.
  { by left. }
  assert (Hshift : ∀ j' : nat, (S i ≤ j')%nat →
            (j' - i)%nat = S (j' - S i)) by lia.
  case_decide as Hused.
  - intros Hres. apply IH in Hres as [-> | (Hle & Hj & Hlook)]; [by left |].
    right. rewrite Hshift by done. split_and!; [lia | done | done].
  - destruct (AnimationManager.below_best _ _).
    + intros Hres. apply IH in Hres as [Heq | (Hle & Hj & Hlook)].
      * right. inversion Heq; subst. rewrite Nat.sub_diag. done.
      * right. rewrite Hshift by done. split_and!; [lia | done | done].
    + intros Hres. apply IH in Hres as [-> | (Hle & Hj & Hlook)]; [by left |].
      right. rewrite Hshift by done. split_and!; [lia | done | done].
Qed.

(** Started without a candidate, the inner loop ends without one only
    when every index of the list is used. *)
Lemma closest_unused_none source_pos used targets :
  ∀ i,
    AnimationManager.closest_unused source_pos used i targets None None
    = None →
    ∀ j : nat, (i ≤ j < i + length targets)%nat → j ∈ used.
Proof.
  induction targets as [| [tp tc] targets IH]; intros i; simpl.
  { intros _ j Hj. lia. }
  case_decide as Hused.
  - intros Hres j Hj. destruct (decide (j = i)) as [-> | Hne]; [done |].
    apply (IH (S i) Hres). lia.
  - intros Hres. exfalso.
    destruct (closest_unused_keeps source_pos used targets (S i)
                (Some ((source_pos.1 - tp.1) * (source_pos.1 - tp.1)
                       + (source_pos.2 - tp.2) * (source_pos.2 - tp.2)))
                (Some (i, tp, tc))) as [x Hx]; [done |].
    simpl in Hres. congruence.
Qed.

Lemma first_unused_found used targets :
  ∀ i j target_pos target_color,
    AnimationManager.first_unused used i targets
    = Some (j, target_pos, target_color) →
    (i ≤ j)%nat ∧ (j ∉ used)
    ∧ targets !! (j - i)%nat = Some (target_pos, target_color).
Proof.
  induction targets as [| [tp tc] targets IH];
    intros i j target_pos target_color; simpl; [done |].
  case_decide as Hused.
  - intros Hres. apply IH in Hres as (Hle & Hj & Hlook).
    replace (j - i)%nat with (S (j - S i)) by lia.
    split_and!; [lia | done | done].
  - intros [= <- <- <-]. rewrite Nat.sub_diag. done.
Qed.

Lemma choose_target_some source_pos used targets j target_pos target_color :
  AnimationManager.choose_target source_pos used targets
  = Some (j, target_pos, target_color) →
  (j ∉ used) ∧ targets !! j = Some (target_pos, target_color).
Proof.
  unfold AnimationManager.choose_target.
  destruct (AnimationManager.closest_unused _ _ _ _ _ _) as [b |] eqn:Hclosest.
  - intros [= ->].
    apply closest_unused_found in Hclosest as [? | (_ & Hj & Hlook)]; [done |].
    by rewrite Nat.sub_0_r in Hlook.
  - intros Hres. apply first_unused_found in Hres as (_ & Hj & Hlook).
    by rewrite Nat.sub_0_r in Hlook.
Qed.

Lemma choose_target_none source_pos used targets :
  AnimationManager.choose_target source_pos used targets = None →
  ∀ j : nat, (j < length targets)%nat → j ∈ used.
Proof.
  unfold AnimationManager.choose_target.
  destruct (AnimationManager.closest_unused _ _ _ _ _ _) eqn:Hclosest; [done |].
  intros _ j Hj.
  apply (closest_unused_none _ _ _ _ Hclosest). lia.
Qed.

(** The outer loop, started with [used] among the indices of [targets]
    and enough of them left for the sources. *)
Lemma assign_valid targets :
  ∀ sources used,
    (∀ j, j ∈ used → (j < length targets)%nat) →
    (size used + length sources ≤ length targets)%nat →
    Forall2 (λ (s : sample) a,
               AnimationManager.source_pos a = s.1
               ∧ AnimationManager.source_color a = s.2)
      sources (AnimationManager.assign sources targets used)
    ∧ NoDup (AnimationManager.target_idx
               <$> AnimationManager.assign sources targets used)
    ∧ Forall (λ a,
                (AnimationManager.target_idx a ∉ used)
                ∧ targets !! AnimationManager.target_idx a
                  = Some (AnimationManager.target_pos a,
                          AnimationManager.target_color a))
        (AnimationManager.assign sources targets used).
Proof.
  induction sources as [| [source_pos source_color] sources IH];
    intros used Hused Hroom; simpl.
  { split_and!; constructor. }
  simpl in Hroom.
  destruct (AnimationManager.choose_target source_pos used targets)
    as [[[j target_pos] target_color] |] eqn:Hchoose.
  - apply choose_target_some in Hchoose as [Hj Hlook].
    assert (Hlt : (j < length targets)%nat) by by eapply lookup_lt_Some.
    destruct (IH ({[j]} ∪ used)) as (Hsrc & Hnodup & Hall).
    + intros j' [->%elem_of_singleton | Hj']%elem_of_union; auto.
    + rewrite size_union, size_singleton by by apply disjoint_singleton_l.
      lia.
    + split_and!.
      * constructor; [done | done].
      * simpl. apply NoDup_cons. split; [| done].
        intros (a & Heq & Ha)%list_elem_of_fmap.
        rewrite Forall_forall in Hall. apply Hall in Ha as [Hnot _].
        apply Hnot, elem_of_union_l, elem_of_singleton. done.
      * constructor; [done |].
        eapply Forall_impl; [exact Hall |].
        intros a [Hnot Hlook']. split; [| done].
        intros Hin. by apply Hnot, elem_of_union_r.
  - exfalso.
    pose proof (choose_target_none _ _ _ Hchoose) as Hfull.
    assert (Hsub : (set_seq 0 (length targets) : gset nat) ⊆ used).
    { intros j Hj%elem_of_set_seq. apply Hfull. lia. }
    apply subseteq_size in Hsub. rewrite size_set_seq in Hsub. lia.
Qed.

End AssignFacts.

Lemma length_insert_by_key (p : sample) (l : list sample) :
  length (AnimationManager.insert_by_key p l) = S (length l).
Proof.
  induction l as [| q l IH]; simpl; [done |].
  destruct (AnimationManager.key_lt q p); simpl; by rewrite ?IH.
Qed.

Lemma length_sorted_by_key (l : list sample) :
  length (AnimationManager.sorted_by_key l) = length l.
Proof.
  induction l as [| p l IH]; simpl; [done |].
  by rewrite length_insert_by_key, IH.
Qed.

(** A loop whose body always returns, returns, with one result per
    element. *)
Lemma for_each_ok {A B} (f : A → M B) (P : A → B → Prop) :
  (∀ x k, ∃ y k', f x k = Ok (y, k') ∧ P x y) →
  ∀ l k, ∃ ys k', for_each f l k = Ok (ys, k') ∧ Forall2 P l ys.
Proof.
  intros Hf. induction l as [| x l IH]; intros k; simpl.
  - exists [], k. split; [done | constructor].
  - destruct (Hf x k) as (y & k1 & Hy & HP).
    destruct (IH k1) as (ys & k2 & Hys & HPs).
    exists (y :: ys), k2. split; [| by constructor].
    unfold mbind, M_bind. rewrite Hy, Hys. done.
Qed.

Lemma make_particle_ok {math : MathLib} {rnd : RandomSource}
    (a : AnimationManager.assignment) (k : nat) :
  ∃ p k',
    AnimationManager.make_particle a k = Ok (p, k')
    ∧ AnimationManager.built_from a p.
Proof.
  unfold AnimationManager.make_particle, AnimationManager.built_from.
  unfold mbind, M_bind, random.uniform, random.random, mret, M_ret; simpl.
  destruct (Py.ltb (random_unit (S (S k))) 0.8); simpl.
  - do 2 eexists. split; [reflexivity |]. simpl.
    split_and!; try done. by eexists.
  - do 2 eexists. split; [reflexivity |]. simpl.
    split_and!; try done; [lia | | by eexists].
    pose proof (Nat.mod_upper_bound (random_below (S (S (S k))) 3) 3). lia.
Qed.

(** The assignments and the particles of [create_particles] on non-empty
    lists. *)
Lemma create_particles_valid {math : MathLib} {rnd : RandomSource}
    (source_pixels target_pixels : list sample) (fuel k : nat) :
  source_pixels ≠ [] →
  target_pixels ≠ [] →
  (length target_pixels ≤ fuel)%nat →
  ∃ equalized asg new_particles k',
    equalize fuel source_pixels (length target_pixels) = Some equalized
    ∧ AnimationManager.assignments fuel source_pixels target_pixels
      = Ok (Some asg)
    ∧ AnimationManager.create_particles fuel source_pixels target_pixels k
      = Ok (new_particles, k')
    ∧ length equalized = length target_pixels
    ∧ Forall2 (λ (s : sample) a,
                 AnimationManager.source_pos a = s.1
                 ∧ AnimationManager.source_color a = s.2) equalized asg
    ∧ NoDup (AnimationManager.target_idx <$> asg)
    ∧ Forall (λ a,
                AnimationManager.sorted_by_key target_pixels
                  !! AnimationManager.target_idx a
                = Some (AnimationManager.target_pos a,
                        AnimationManager.target_color a)) asg
    ∧ Forall2 AnimationManager.built_from asg new_particles.
Proof.
  intros Hsrc Htgt Hfuel.
  destruct (equalize_returns source_pixels (length target_pixels)
              fuel Hsrc Hfuel) as (equalized & Heq & Hlen & _).
  set (targets := AnimationManager.sorted_by_key target_pixels).
  assert (Hlen' : length targets = length target_pixels)
    by apply length_sorted_by_key.
  destruct (assign_valid targets equalized ∅) as (Hpair & Hnodup & Hidx).
  { intros j Hj. by apply not_elem_of_empty in Hj. }
  { rewrite size_empty. lia. }
  destruct (for_each_ok AnimationManager.make_particle
              AnimationManager.built_from make_particle_ok
              (AnimationManager.assign equalized targets ∅) k)
    as (new_particles & k' & Hparts & Hbuilt).
  assert (Hasg : AnimationManager.assignments fuel source_pixels target_pixels
                 = Ok (Some (AnimationManager.assign equalized targets ∅))).
  { unfold AnimationManager.assignments.
    rewrite !bool_decide_eq_false_2 by done. simpl.
    fold targets. rewrite Hlen', Heq. done. }
  exists equalized, (AnimationManager.assign equalized targets ∅),
    new_particles, k'.
  split_and!; try done.
  - unfold AnimationManager.create_particles, mbind, M_bind, lift.
    rewrite Hasg. exact Hparts.
  - eapply Forall_impl; [exact Hidx |]. by intros a [_ Ha].
Qed.

Lemma greedy_assignment_returns {math : MathLib} {rnd : RandomSource}
    (source_pixels target_pixels : list sample) (fuel k : nat) :
  source_pixels ≠ [] →
  target_pixels ≠ [] →
  (length target_pixels ≤ fuel)%nat →
  ∃ new_particles k',
    AnimationManager.create_particles fuel source_pixels target_pixels k
    = Ok (new_particles, k')
    ∧ length new_particles = length target_pixels.
Proof.
  intros Hsrc Htgt Hfuel.
  destruct (create_particles_valid source_pixels target_pixels fuel k
              Hsrc Htgt Hfuel)
    as (equalized & asg & new_particles & k' & _ & _ & Hcreate & Hlen & Hpair
        & _ & _ & Hbuilt).
  exists new_particles, k'. split; [done |].
  apply Forall2_length in Hbuilt, Hpair. congruence.
Qed.

(** C3. For non-empty source and target lists (and fuel for the
    equalization), the source is equalized to the target count, the greedy
    loop gives the i-th equalized source sample one assignment, the target
    indices of the assignments are pairwise distinct and each names the
    target sample the assignment carries, and [create_particles] builds
    one particle per assignment: as many as there are targets. *)
Theorem greedy_assignment_valid {math : MathLib} {rnd : RandomSource}
    (source_pixels target_pixels : list sample) (fuel k : nat) :
  source_pixels ≠ [] →
  target_pixels ≠ [] →
  (length target_pixels ≤ fuel)%nat →
  ∃ equalized asg new_particles k',
    equalize fuel source_pixels (length target_pixels) = Some equalized
    ∧ AnimationManager.assignments fuel source_pixels target_pixels
      = Ok (Some asg)
    ∧ AnimationManager.create_particles fuel source_pixels target_pixels k
      = Ok (new_particles, k')
    ∧ length equalized = length target_pixels
    ∧ length asg = length equalized
    ∧ length new_particles = length equalized
    ∧ NoDup (AnimationManager.target_idx <$> asg)
    ∧ Forall2 (λ (s : sample) a,
                 AnimationManager.source_pos a = s.1
                 ∧ AnimationManager.source_color a = s.2) equalized asg
    ∧ Forall (λ a,
                AnimationManager.sorted_by_key target_pixels
                  !! AnimationManager.target_idx a
                = Some (AnimationManager.target_pos a,
                        AnimationManager.target_color a)) asg
    ∧ Forall2 AnimationManager.built_from asg new_particles.
Proof.
  intros Hsrc Htgt Hfuel.
  destruct (create_particles_valid source_pixels target_pixels fuel k
              Hsrc Htgt Hfuel)
    as (equalized & asg & new_particles & k' & Heq & Hasg & Hcreate & Hlen
        & Hpair & Hnodup & Hidx & Hbuilt).
  exists equalized, asg, new_particles, k'.
  split_and!; try done.
  - symmetry. by eapply Forall2_length.
  - apply Forall2_length in Hbuilt, Hpair. congruence.
Qed.

Lemma greedy_assignment_valid_witness :
  example_source ≠ []
  ∧ example_target ≠ []
  ∧ (length example_target ≤ 2)%nat
  ∧ ∃ asg new_particles k',
      AnimationManager.assignments 2 example_source example_target
      = Ok (Some asg)
      ∧ AnimationManager.create_particles (math := example_math)
          (rnd := example_random) 2 example_source example_target 0%nat
        = Ok (new_particles, k')
      ∧ length new_particles = length example_target
      ∧ NoDup (AnimationManager.target_idx <$> asg).
Proof.
  split; [discriminate |]. split; [discriminate |]. split; [simpl; lia |].
  destruct (greedy_assignment_valid (math := example_math) (rnd := example_random)
              example_source example_target 2 0%nat)
    as (equalized & asg & new_particles & k' & _ & Hasg & Hparts & Hlen & _
        & Hlen' & Hnodup & _); [discriminate | discriminate | simpl; lia |].
  exists asg, new_particles, k'. split_and!; [done | done | congruence | done].
Defined.

(** ** What a start leaves behind *)

Lemma for_each_result {A B} (f : A → M B) (P : A → B → Prop) :
  (∀ x k y k', f x k = Ok (y, k') → P x y) →
  ∀ l k ys k', for_each f l k = Ok (ys, k') → Forall2 P l ys.
Proof.
  intros Hf. induction l as [| x l IH]; intros k ys k'; simpl.
  - intros [= <- <-]. constructor.
  - unfold mbind, M_bind.
    destruct (f x k) as [[y k1] | |] eqn:Hy; [| done | done].
    destruct (for_each f l k1) as [[ys' k2] | |] eqn:Hys; [| done | done].
    intros [= <- <-]. constructor; [by eapply Hf | by eapply IH].
Qed.

(** With draws of [random.random()] in [0, 1), a particle built for an
    assignment is fresh and its fall delay is below 0.4. *)
Lemma built_from_fresh {rnd : RandomSource}
    (a : AnimationManager.assignment) (p : Particle.t) :
  (∀ k, (0 <= random_unit k < 1)%Q) →
  AnimationManager.built_from a p →
  AnimationManager.fresh p ∧ (Particle.fall_delay p < 0.4)%Q.
Proof.
  intros Hunit (_ & _ & Hsrc & _ & Hcolor & _ & _ & _ & k & Hfd).
  specialize (Hunit k). unfold AnimationManager.fresh.
  rewrite Hcolor, Hsrc, Hfd. split_and!; [done | lra | lra].
Qed.

(** A start that returns leaves a started manager whose particles are
    fresh. *)
Lemma start_animation_started {math : MathLib} {rnd : RandomSource}
    (fuel : nat) (self self' : AnimationManager.t)
    (source_surface target_surface : Surface)
    (source_offset target_offset : Z * Z) (ty : AnimationType) (k k' : nat) :
  (∀ k, (0 <= random_unit k < 1)%Q) →
  (0 < AnimationManager.duration self)%Q →
  AnimationManager.start_animation fuel self source_surface target_surface
    source_offset target_offset ty k = Ok (self', k') →
  AnimationManager.started self'
  ∧ AnimationManager.animation_type self' = ty
  ∧ Forall (λ p, AnimationManager.fresh p ∧ (Particle.fall_delay p < 0.4)%Q)
      (AnimationManager.particles self').
Proof.
  intros Hunit Hdur. unfold AnimationManager.start_animation, mbind, M_bind.
  destruct (AnimationManager.extract_pixels_for_shape _ _ _ _ _)
    as [[target_pixels k1] | |]; [| done | done].
  destruct (AnimationManager.create_particles _ _ _ _)
    as [[new_particles k2] | |] eqn:Hcreate; [| done | done].
  intros [= <- <-]. unfold AnimationManager.started. simpl.
  split_and!; [done | done | done | done |].
  revert Hcreate.
  unfold AnimationManager.create_particles, mbind, M_bind, lift.
  destruct (AnimationManager.assignments _ _ _) as [[asg |] | |];
    [| by intros [= <- <-] | done | done].
  intros Hloop.
  apply (for_each_result _ AnimationManager.built_from) in Hloop.
  - eapply Forall2_Forall_r; [exact Hloop |].
    apply Forall_forall. intros a _ p Hbuilt. by eapply built_from_fresh.
  - intros a k0 p k0' Hmake.
    destruct (make_particle_ok a k0) as (p' & k'' & Hmake' & Hbuilt).
    congruence.
Qed.

(** ** A start with ink returns *)

Lemma choice_ok {rnd : RandomSource} {A} (seq : list A) (k : nat) :
  seq ≠ [] → ∃ x, random.choice seq k = Ok (x, S k).
Proof.
  intros Hne. unfold random.choice.
  destruct seq as [| x0 seq0] eqn:Hseq; [done |]. rewrite <- Hseq.
  unfold mbind, M_bind, random.randbelow.
  assert (Hlt : (random_below k (length seq) `mod` length seq < length seq)%nat).
  { apply Nat.mod_upper_bound. rewrite Hseq. simpl. lia. }
  apply lookup_lt_is_Some_2 in Hlt as [x Hx]. rewrite Hx. by exists x.
Qed.

Lemma fill_remaining_returns {rnd : RandomSource} (num_pixels : nat) :
  ∀ fuel aliased pixels all_pixels k,
    (num_pixels - length pixels ≤ fuel)%nat →
    ∃ r k',
      AnimationManager.fill_remaining fuel aliased pixels all_pixels
        num_pixels k = Ok (r, k')
      ∧ (all_pixels = [] → r = pixels)
      ∧ (all_pixels ≠ [] → (length pixels ≤ num_pixels)%nat →
         length r = num_pixels).
Proof.
  induction fuel as [| fuel IH]; intros aliased pixels all_pixels k Hfuel;
    simpl.
  - destruct (Nat.ltb_spec (length pixels) num_pixels); [lia |]. simpl.
    exists pixels, k. split_and!; [done | done | lia].
  - destruct (Nat.ltb_spec (length pixels) num_pixels) as [Hlt | Hge]; simpl.
    2: { exists pixels, k. split_and!; [done | done | lia]. }
    case_bool_decide as Hall.
    2: { exists pixels, k. split_and!; [done | done | done]. }
    destruct (choice_ok all_pixels k Hall) as [c Hc].
    unfold mbind, M_bind. rewrite Hc.
    destruct (IH aliased (pixels ++ [c])
                (if aliased then all_pixels ++ [c] else all_pixels) (S k))
      as (r & k' & Hr & _ & Hlen).
    { rewrite length_app. simpl. lia. }
    exists r, k'. split_and!; [done | done |].
    intros _ _. apply Hlen.
    + destruct aliased; [| done]. by destruct all_pixels.
    + rewrite length_app. simpl. lia.
Qed.

(** [l[::step]] has at least [n] entries when [l] reaches index
    [skip + (n - 1) * step]. *)
Lemma length_stride_from {A} (step : nat) (l : list A) :
  (1 ≤ step)%nat →
  ∀ skip n,
    (skip + n * step < length l + step)%nat →
    (n ≤ length (Py.stride_from skip step l))%nat.
Proof.
  intros Hstep.
  induction l as [| x l IH]; intros skip n Hlen; simpl in *.
  - destruct n; [lia | nia].
  - destruct skip as [| skip].
    + destruct n as [| n]; [lia |]. simpl.
      apply le_n_S, IH. destruct step; simpl in *; lia.
    + apply IH. lia.
Qed.

Lemma extract_pixels_for_shape_returns {rnd : RandomSource}
    (fuel : nat) (surface : Surface) (offset : Z * Z) (num_pixels k : nat) :
  num_pixels ≠ O →
  (num_pixels ≤ fuel)%nat →
  ∃ pixels k',
    AnimationManager.extract_pixels_for_shape fuel surface offset
      num_pixels k = Ok (pixels, k')
    ∧ (AnimationManager.all_shape_pixels surface offset = [] → pixels = [])
    ∧ (AnimationManager.all_shape_pixels surface offset ≠ [] →
       length pixels = num_pixels).
Proof.
  intros Hnum Hfuel. unfold AnimationManager.extract_pixels_for_shape.
  set (all_pixels := AnimationManager.all_shape_pixels surface offset).
  destruct (Nat.ltb_spec num_pixels (length all_pixels)) as [Hlt | Hge].
  - unfold mbind, M_bind, lift, Py.floordiv, Py.slice_step.
    rewrite decide_False by lia.
    assert (Hstep : Z.to_nat (Z.of_nat (length all_pixels) / Z.of_nat num_pixels)
                    = (length all_pixels / num_pixels)%nat).
    { rewrite <- Nat2Z.inj_div. apply Nat2Z.id. }
    rewrite Hstep.
    set (step := (length all_pixels / num_pixels)%nat).
    assert (Hpos : (1 ≤ step)%nat).
    { subst step. apply Nat.div_le_lower_bound; lia. }
    assert (Hmul : (num_pixels * step ≤ length all_pixels)%nat).
    { subst step. apply Nat.Div0.mul_div_le. }
    rewrite decide_False by lia.
    assert (Hstrided : (num_pixels
                        ≤ length (Py.stride_from 0 step all_pixels))%nat).
    { apply length_stride_from; lia. }
    destruct (fill_remaining_returns num_pixels fuel false
                (take num_pixels (Py.stride_from 0 step all_pixels))
                all_pixels k) as (r & k' & Hr & _ & Hlen); [lia |].
    exists r, k'. split_and!; [done | |].
    + intros Hall. rewrite Hall in Hlt. simpl in Hlt. lia.
    + intros Hall. apply Hlen; [done |]. rewrite length_take. lia.
  - destruct (fill_remaining_returns num_pixels fuel true all_pixels
                all_pixels k) as (r & k' & Hr & Hempty & Hlen); [lia |].
    exists r, k'. split_and!; [done | | ].
    + intros Hall. rewrite (Hempty Hall). done.
    + intros Hall. by apply Hlen.
Qed.

(** With at least one ink sample and fuel for the samples, a start
    returns: with one particle per ink sample when the target has a shape
    pixel, and with none when it has not. *)
Lemma start_animation_returns {math : MathLib} {rnd : RandomSource}
    (fuel : nat) (self : AnimationManager.t)
    (source_surface target_surface : Surface)
    (source_offset target_offset : Z * Z) (ty : AnimationType) (k : nat) :
  AnimationManager.extract_non_white_pixels source_surface source_offset ≠ [] →
  (length (AnimationManager.extract_non_white_pixels source_surface
             source_offset) ≤ fuel)%nat →
  ∃ self' k',
    AnimationManager.start_animation fuel self source_surface target_surface
      source_offset target_offset ty k = Ok (self', k')
    ∧ length (AnimationManager.particles self')
      = (if decide (AnimationManager.all_shape_pixels target_surface
                      target_offset = [])
         then O
         else length (AnimationManager.extract_non_white_pixels
                        source_surface source_offset)).
Proof.
  intros Hsrc Hfuel. unfold AnimationManager.start_animation.
  set (source_pixels :=
         AnimationManager.extract_non_white_pixels source_surface
           source_offset) in *.
  destruct (extract_pixels_for_shape_returns fuel target_surface target_offset
              (length source_pixels) k)
    as (target_pixels & k1 & Htarget & Hempty & Hfull);
    [by destruct source_pixels | done |].
  unfold mbind at 1, M_bind at 1. rewrite Htarget.
  case_decide as Hall.
  - rewrite (Hempty Hall).
    unfold AnimationManager.create_particles, AnimationManager.assignments.
    rewrite bool_decide_eq_false_2 by done. simpl.
    do 2 eexists. split; [reflexivity | done].
  - specialize (Hfull Hall).
    destruct (greedy_assignment_returns source_pixels target_pixels fuel k1)
      as (new_particles & k2 & Hcreate & Hlen);
      [done | by intros ->; destruct source_pixels | lia |].
    unfold mbind, M_bind. rewrite Hcreate.
    do 2 eexists. split; [reflexivity |]. simpl. congruence.
Qed.

(** Four ink pixels at (10,10)..(11,11), four opaque pixels at
    (50,50)..(51,51), PIXEL_MORPH and a duration of one second: one update
    of one second finishes the run with one particle on each target. *)
Example start_update_scenario :
  ∃ self k self',
    AnimationManager.start_animation (math := example_math)
      (rnd := example_random) 4 AnimationManager.init ink_square white_square
      (10, 10) (50, 50) PIXEL_MORPH 0%nat = Ok (self, k)
    ∧ AnimationManager.update (math := example_math)
        (AnimationManager.set_duration self 1) 1 = Ok self'
    ∧ AnimationManager.progress self' = 1%Q
    ∧ AnimationManager.is_finished self' = true
    ∧ (λ p, (Qred (Particle.current_x p), Qred (Particle.current_y p),
             Particle.color p))
        <$> AnimationManager.particles self'
      = [(50%Q, 50%Q, (255, 255, 255)); (51%Q, 50%Q, (255, 255, 255));
         (50%Q, 51%Q, (255, 255, 255)); (51%Q, 51%Q, (255, 255, 255))].
Proof.
  do 3 eexists. split; [vm_compute; reflexivity |].
  split; [vm_compute; reflexivity |]. vm_compute. done.
Qed.

(** ** The color blend *)

Lemma denominator_positive (fall_delay : Q) :
  (0 < Py.max 0.000001 (1 - fall_delay))%Q.
Proof. destruct (max_cases 0.000001 (1 - fall_delay)) as [[? ->] | [? ->]]; lra. Qed.

Lemma adjusted_progress_sign (progress fall_delay : Q) :
  ((progress <= fall_delay)%Q →
   (Particle.adjusted_progress progress fall_delay <= 0)%Q)
  ∧ ((fall_delay < progress)%Q →
     (0 < Particle.adjusted_progress progress fall_delay)%Q).
Proof.
  pose proof (denominator_positive fall_delay) as Hden.
  unfold Particle.adjusted_progress. split; intros Hcmp.
  - apply Qle_shift_div_r; lra.
  - apply Qlt_shift_div_l; lra.
Qed.

(** Up to the fall delay the blend factor is the constant 0. *)
Lemma blend_factor_before (progress fall_delay : Q) :
  (progress <= fall_delay)%Q →
  AnimationManager.blend_factor progress fall_delay = 0%Q.
Proof.
  intros Hcmp. apply adjusted_progress_sign in Hcmp.
  unfold AnimationManager.blend_factor.
  destruct (max_cases 0 (Particle.adjusted_progress progress fall_delay))
    as [[? _] | [_ ->]]; [lra |].
  destruct (min_cases 1 0) as [[_ ->] | [? _]]; [done | lra].
Qed.

Lemma blend_factor_range (progress fall_delay : Q) :
  (0 <= AnimationManager.blend_factor progress fall_delay <= 1)%Q
  ∧ ((fall_delay < progress)%Q →
     (0 < AnimationManager.blend_factor progress fall_delay)%Q).
Proof.
  pose proof (adjusted_progress_sign progress fall_delay) as [_ Hpos].
  unfold AnimationManager.blend_factor.
  destruct (max_cases 0 (Particle.adjusted_progress progress fall_delay))
    as [[? ->] | [? ->]];
    match goal with |- context [Py.min 1 ?x] =>
      destruct (min_cases 1 x) as [[? ->] | [? ->]] end;
    split; try lra; intros Hlt; specialize (Hpos Hlt); lra.
Qed.

(** At progress 1 a particle whose fall delay is below 0.4 has blend
    factor 1. *)
Lemma blend_factor_at_end (progress fall_delay : Q) :
  (progress == 1)%Q →
  (fall_delay < 0.4)%Q →
  (AnimationManager.blend_factor progress fall_delay == 1)%Q.
Proof.
  intros Hp Hfd.
  assert (Hadj : (Particle.adjusted_progress progress fall_delay == 1)%Q).
  { unfold Particle.adjusted_progress.
    destruct (max_cases 0.000001 (1 - fall_delay)) as [[? ->] | [? ->]];
      [| lra].
    rewrite Hp. field. lra. }
  unfold AnimationManager.blend_factor.
  destruct (max_cases 0 (Particle.adjusted_progress progress fall_delay))
    as [[? ->] | [? ->]]; [| lra].
  destruct (min_cases 1 (Particle.adjusted_progress progress fall_delay))
    as [[? ->] | [? ->]]; lra.
Qed.

#[global] Instance blend_proper source_color target_color :
  Proper (Qeq ==> eq) (blend source_color target_color).
Proof.
  intros t t' Ht. destruct source_color as [[r0 g0] b0].
  destruct target_color as [[r1 g1] b1]. unfold blend, blend_channel.
  f_equal; [f_equal |]; apply int_proper; rewrite Ht; reflexivity.
Qed.

Lemma blend_at_0 (source_color target_color : RGB) :
  blend source_color target_color 0 = source_color.
Proof.
  destruct source_color as [[r0 g0] b0]. destruct target_color as [[r1 g1] b1].
  unfold blend, blend_channel.
  f_equal; [f_equal |];
    match goal with |- Py.int ?e = ?a =>
      rewrite <- (int_inject_Z a) at 2; apply int_proper; ring end.
Qed.

Lemma blend_at_1 (source_color target_color : RGB) (t : Q) :
  (t == 1)%Q → blend source_color target_color t = target_color.
Proof.
  intros ->.
  destruct source_color as [[r0 g0] b0]. destruct target_color as [[r1 g1] b1].
  unfold blend, blend_channel.
  f_equal; [f_equal |];
    match goal with |- Py.int ?e = ?a =>
      rewrite <- (int_inject_Z a) at 2; apply int_proper; ring end.
Qed.

(** The second clamp of [update] (line 354) changes nothing. *)
Lemma clamp_blend_factor (progress fall_delay : Q) :
  (Py.max 0 (Py.min 1 (AnimationManager.blend_factor progress fall_delay))
   == AnimationManager.blend_factor progress fall_delay)%Q.
Proof.
  pose proof (blend_factor_range progress fall_delay) as [[Hlo Hhi] _].
  destruct (min_cases 1 (AnimationManager.blend_factor progress fall_delay))
    as [[? ->] | [? ->]];
    match goal with |- (Py.max 0 ?x == _)%Q =>
      destruct (max_cases 0 x) as [[? ->] | [? ->]] end; lra.
Qed.

(** The kinematic update of a type keeps the color or sets it to the
    blend at the new progress. *)
Lemma kinematic_color {math : MathLib} (ty : AnimationType) (progress dt : Q)
    (center : Z * Z) (particle : Particle.t) :
  let moved :=
    match ty with
    | SAND_FALL => Particle.update_sand_fall particle progress dt
    | PARTICLE_SWIRL =>
        Particle.update_particle_swirl particle progress dt center
    | PIXEL_MORPH => Particle.update_pixel_morph particle progress dt
    | WAVE_TRANSFORM => Particle.update_wave_transform particle progress dt
    end in
  Particle.fixed_fields moved = Particle.fixed_fields particle
  ∧ (Particle.color moved = Particle.color particle
     ∨ Particle.color moved
       = AnimationManager.blended_color progress particle).
Proof.
  destruct ty; simpl; try (split; [reflexivity | by left]).
  unfold Particle.update_sand_fall.
  destruct (Py.ltb progress (Particle.fall_delay particle)); simpl.
  - split; [reflexivity | by left].
  - split; [reflexivity | by right].
Qed.

(** One particle through the loop body of [update]: if its color was the
    blend at the old progress, it is the blend at the new one. *)
Lemma update_particle_color {math : MathLib} (ty : AnimationType)
    (old_progress progress dt : Q) (center : Z * Z) (particle : Particle.t) :
  (old_progress <= progress)%Q →
  Particle.color particle
  = AnimationManager.blended_color old_progress particle →
  Particle.color (AnimationManager.update_particle ty progress dt center particle)
  = AnimationManager.blended_color progress
      (AnimationManager.update_particle ty progress dt center particle).
Proof.
  intros Hle Hcolor.
  pose proof (kinematic_color ty progress dt center particle) as Hmoved.
  unfold AnimationManager.update_particle.
  set (moved := match ty with
                | SAND_FALL => _ | PARTICLE_SWIRL => _
                | PIXEL_MORPH => _ | WAVE_TRANSFORM => _ end) in *.
  simpl in Hmoved. destruct Hmoved as [Hfixed Hmoved].
  unfold Particle.fixed_fields in Hfixed.
  injection Hfixed as _ _ _ _ Hsrc Htgt _ Hfd _ _ _ _ _.
  unfold AnimationManager.blended_color in *.
  destruct (Py.ltb 0 _) eqn:Hpos; simpl.
  - apply blend_proper, clamp_blend_factor.
  - apply ltb_ge in Hpos. rewrite Hsrc, Htgt, Hfd in *.
    destruct Hmoved as [Hsame | Hset]; [| done].
    rewrite Hsame, Hcolor.
    destruct (Qlt_le_dec (Particle.fall_delay particle) progress) as [Hlt | Hge].
    + apply blend_factor_range in Hlt. lra.
    + rewrite !blend_factor_before by lra. done.
Qed.

Lemma fresh_colored {math : MathLib} (self : AnimationManager.t) :
  AnimationManager.started self →
  Forall AnimationManager.fresh (AnimationManager.particles self) →
  AnimationManager.colored self.
Proof.
  intros (Hp & _ & _) Hfresh. unfold AnimationManager.colored.
  eapply Forall_impl; [exact Hfresh |].
  intros p [Hcolor Hfd]. unfold AnimationManager.blended_color.
  rewrite blend_factor_before by lra. by rewrite blend_at_0.
Qed.

Lemma update_colored {math : MathLib} (self self' : AnimationManager.t) (dt : Q) :
  AnimationManager.in_run self →
  (0 <= dt)%Q →
  AnimationManager.colored self →
  AnimationManager.update self dt = Ok self' →
  AnimationManager.colored self'.
Proof.
  intros Hrun Hdt Hcol Hup.
  destruct (update_in_run self dt Hrun Hdt) as (mid & Hmid & _ & Hle & _).
  rewrite Hup in Hmid. injection Hmid as <-.
  revert Hup. unfold AnimationManager.update.
  destruct (negb (AnimationManager.is_animating self)); [by intros [= <-] |].
  destruct (Py.truediv dt (AnimationManager.duration self)); [| done | done].
  intros [= <-]. unfold AnimationManager.colored in *. simpl in *.
  apply Forall_fmap. eapply Forall_impl; [exact Hcol |].
  intros p Hp. simpl. by eapply update_particle_color.
Qed.

Lemma updates_colored {math : MathLib} (dts : list Q) :
  Forall (λ dt, (0 <= dt)%Q) dts →
  ∀ self self' : AnimationManager.t,
    AnimationManager.in_run self →
    AnimationManager.colored self →
    AnimationManager.updates self dts = Ok self' →
    AnimationManager.colored self'.
Proof.
  induction 1 as [| dt dts Hdt _ IH]; intros self self' Hrun Hcol; simpl.
  - by intros [= <-].
  - destruct (update_in_run self dt Hrun Hdt) as (mid & Hmid & Hrun' & _).
    rewrite Hmid. apply IH; [done |].
    eapply update_colored; [exact Hrun | exact Hdt | exact Hcol | exact Hmid].
Qed.



(** ** Drawing a particle *)

(** C8 as stated fails: a particle at x = -0.5 has floor -1, outside a
    10 x 10 frame, and is drawn all the same, at column 0. *)
Lemma draw_floor_counterexample :
  Py.floor (Particle.current_x particle_left_of_frame) = -1
  ∧ ¬ (0 ≤ Py.floor (Particle.current_x particle_left_of_frame) < 10)
  ∧ (∀ math : MathLib,
       Particle.draw particle_left_of_frame 10 10 = Some (SetAt (0, 0) (0, 0, 0))).
Proof.
  split_and!; [reflexivity | vm_compute; intuition discriminate | reflexivity].
Qed.

Lemma draw_alpha_range {math : MathLib} (self : Particle.t) :
  40 ≤ Particle.draw_alpha self ≤ 255.
Proof.
  unfold Particle.draw_alpha.
  set (v := (255 - _ * 0.8)%Q).
  assert (Hclamp : (40 <= Py.max 40 (Py.min 255 v) <= 255)%Q).
  { destruct (min_cases 255 v) as [[? ->] | [? ->]];
      match goal with |- (_ <= Py.max 40 ?x <= _)%Q =>
        destruct (max_cases 40 x) as [[? ->] | [? ->]] end; lra. }
  rewrite int_of_nonneg by lra.
  destruct Hclamp as [Hlo Hhi].
  apply Qfloor_resp_le in Hlo, Hhi.
  change (Qfloor 40) with 40 in Hlo. change (Qfloor 255) with 255 in Hhi.
  lia.
Qed.

(** C8, amended. A particle is drawn at its current position truncated
    toward zero; when the truncated position is outside the frame nothing
    is drawn; when it is inside, a particle of size at most 2 is one pixel
    in its current color, the opacity playing no part, and a larger one is
    a filled circle at opacity int(clamp(255 - distance * 0.8, 40, 255)),
    which lies between 40 and 255. *)
Theorem draw_truncates_position {math : MathLib} (self : Particle.t)
    (surface_width surface_height : nat) :
  let x := Py.int (Particle.current_x self) in
  let y := Py.int (Particle.current_y self) in
  let inside :=
    0 ≤ x < Z.of_nat surface_width ∧ 0 ≤ y < Z.of_nat surface_height in
  let distance :=
    math_hypot (Particle.target_x self - Particle.current_x self)%Q
      (Particle.target_y self - Particle.current_y self)%Q in
  let alpha := Py.int (Py.max 40 (Py.min 255 (255 - distance * 0.8)))%Q in
  (¬ inside → Particle.draw self surface_width surface_height = None)
  ∧ (inside → Particle.size self ≤ 2 →
     Particle.draw self surface_width surface_height
     = Some (SetAt (x, y) (Particle.color self)))
  ∧ (inside → 2 < Particle.size self →
     Particle.draw self surface_width surface_height
     = Some (BlitCircle (x - Particle.size self, y - Particle.size self)
               (Particle.size self * 2)
               (Particle.size self, Particle.size self) (Particle.size self)
               (Particle.color self) alpha))
  ∧ 40 ≤ alpha ≤ 255.
Proof.
  intros x y inside distance alpha. unfold Particle.draw.
  fold x y. split_and!.
  - intros Hout. by rewrite decide_False.
  - intros Hin Hsize. by rewrite decide_True, decide_True.
  - intros Hin Hsize. rewrite decide_True by done.
    rewrite decide_False by lia. done.
  - apply draw_alpha_range.
  - apply draw_alpha_range.
Qed.

(** ** The progressive reveal *)

(** C7 as stated fails: at reveal progress 0.25 the radius is 2 where
    round(2.75) is 3, and the alpha is 63 where round(63.75) is 64. *)
Lemma reveal_rounding_counterexample :
  (0 <= 0.25 <= 1)%Q
  ∧ AnimalMakerApp.reveal_radius 0.25 = 2
  ∧ Py.round (2 + 3 * 0.25) = 3
  ∧ AnimalMakerApp.reveal_radius 0.25 ≠ Py.round (2 + 3 * 0.25)
  ∧ AnimalMakerApp.reveal_alpha 0.25 = 63
  ∧ Py.round (255 * 0.25) = 64
  ∧ AnimalMakerApp.reveal_alpha 0.25 ≠ Py.round (255 * 0.25).
Proof.
  split_and!; try reflexivity; discriminate.
Qed.

Lemma reveal_radius_floor (reveal_progress : Q) :
  (0 <= reveal_progress <= 1)%Q →
  AnimalMakerApp.reveal_radius reveal_progress
  = Py.floor (2 + 3 * reveal_progress)
  ∧ 2 ≤ AnimalMakerApp.reveal_radius reveal_progress ≤ 5.
Proof.
  intros [Hlo Hhi]. unfold AnimalMakerApp.reveal_radius, Py.floor.
  rewrite int_of_nonneg by lra.
  assert (H2 : 2 ≤ Qfloor (2 + 3 * reveal_progress)).
  { change 2 with (Qfloor 2) at 1. apply Qfloor_resp_le. lra. }
  assert (H5 : Qfloor (2 + 3 * reveal_progress) ≤ 5).
  { change 5 with (Qfloor 5). apply Qfloor_resp_le. lra. }
  lia.
Qed.

Lemma reveal_alpha_floor (reveal_progress : Q) :
  (0 <= reveal_progress <= 1)%Q →
  AnimalMakerApp.reveal_alpha reveal_progress
  = Py.floor (255 * reveal_progress).
Proof.
  intros [Hlo Hhi]. unfold AnimalMakerApp.reveal_alpha, Py.floor.
  rewrite int_of_nonneg by lra.
  assert (H255 : Qfloor (255 * reveal_progress) ≤ 255).
  { change 255 with (Qfloor 255) at 2. apply Qfloor_resp_le. lra. }
  lia.
Qed.

Lemma disk_within_square (dx dy radius : Z) :
  0 ≤ radius →
  dx * dx + dy * dy ≤ radius * radius →
  - radius ≤ dx ≤ radius ∧ - radius ≤ dy ≤ radius.
Proof. intros Hr Hdisk. nia. Qed.

(** The pixels a particle marks: none unless it qualifies, and then the
    pixels of the image within the radius of its truncated position. *)
Lemma elem_of_particle_reveal {math : MathLib} (particle : Particle.t)
    (image_rect : AnimalMakerApp.Rect) (img_width img_height : nat)
    (reveal_progress : Q) (x y : Z) :
  (0 <= reveal_progress <= 1)%Q →
  (x, y) ∈ AnimalMakerApp.particle_reveal particle image_rect
             img_width img_height reveal_progress
  ↔ AnimalMakerApp.qualifies particle reveal_progress = true
    ∧ (0 ≤ x < Z.of_nat img_width ∧ 0 ≤ y < Z.of_nat img_height)
    ∧ (x - Py.int (Particle.current_x particle
                   - inject_Z (AnimalMakerApp.rect_x image_rect))%Q)
      * (x - Py.int (Particle.current_x particle
                     - inject_Z (AnimalMakerApp.rect_x image_rect))%Q)
      + (y - Py.int (Particle.current_y particle
                     - inject_Z (AnimalMakerApp.rect_y image_rect))%Q)
        * (y - Py.int (Particle.current_y particle
                       - inject_Z (AnimalMakerApp.rect_y image_rect))%Q)
      ≤ AnimalMakerApp.reveal_radius reveal_progress
        * AnimalMakerApp.reveal_radius reveal_progress.
Proof.
  intros Hrp. destruct (reveal_radius_floor _ Hrp) as [_ Hradius].
  unfold AnimalMakerApp.particle_reveal.
  set (px := Py.int (Particle.current_x particle - _)%Q).
  set (py := Py.int (Particle.current_y particle - _)%Q).
  set (radius := AnimalMakerApp.reveal_radius reveal_progress) in *.
  clearbody px py radius.
  destruct (AnimalMakerApp.qualifies particle reveal_progress).
  2: { split; [by intros ?%elem_of_nil | by intros [? _]]. }
  unfold Py.range. split.
  - intros (dy & Hxy & Hdy)%list_elem_of_bind.
    apply list_elem_of_bind in Hxy as (dx & Hxy & Hdx).
    repeat case_decide; try by apply elem_of_nil in Hxy.
    apply list_elem_of_singleton in Hxy as [= -> ->].
    split; [done |]. split; [done |].
    replace (px + dx - px) with dx by lia.
    by replace (py + dy - py) with dy by lia.
  - intros (_ & Hin & Hdisk).
    pose proof (disk_within_square _ _ radius ltac:(lia) Hdisk) as [Hbx Hby].
    apply list_elem_of_bind. exists (y - py). split.
    + apply list_elem_of_bind. exists (x - px). split.
      * rewrite decide_True by (replace (px + (x - px)) with x by lia;
                                replace (py + (y - py)) with y by lia; done).
        rewrite decide_True by done.
        apply list_elem_of_singleton. f_equal; lia.
      * apply elem_of_seqZ. lia.
    + apply elem_of_seqZ. lia.
Qed.

Lemma elem_of_revealed_pixels {math : MathLib} (particles : list Particle.t)
    (image_rect : AnimalMakerApp.Rect) (img_width img_height : nat)
    (reveal_progress : Q) (pixel : Z * Z) :
  pixel ∈ AnimalMakerApp.revealed_pixels particles image_rect
            img_width img_height reveal_progress
  ↔ ∃ particle,
      particle ∈ particles
      ∧ pixel ∈ AnimalMakerApp.particle_reveal particle image_rect
                  img_width img_height reveal_progress.
Proof.
  unfold AnimalMakerApp.revealed_pixels.
  assert (Hgen : ∀ (acc : gset (Z * Z)),
    pixel ∈ foldl (λ revealed particle,
                     revealed ∪ list_to_set
                       (AnimalMakerApp.particle_reveal particle image_rect
                          img_width img_height reveal_progress))
              acc particles
    ↔ pixel ∈ acc
      ∨ ∃ particle,
          particle ∈ particles
          ∧ pixel ∈ AnimalMakerApp.particle_reveal particle image_rect
                      img_width img_height reveal_progress).
  { induction particles as [| p particles IH]; intros acc; simpl.
    - split; [by left | intros [? | (p & Hp & _)]; [done |]].
      by apply elem_of_nil in Hp.
    - rewrite IH, elem_of_union, elem_of_list_to_set. split.
      + intros [[? | ?] | (q & Hq & Hpix)].
        * by left.
        * right. exists p. split; [apply list_elem_of_here | done].
        * right. exists q. split; [by apply list_elem_of_further | done].
      + intros [? | (q & Hq & Hpix)]; [by left; left |].
        apply elem_of_cons in Hq as [-> | Hq].
        * left. by right.
        * right. by exists q. }
  rewrite Hgen. split; [intros [Hempty | ?]; [| done] | by right].
  by apply not_elem_of_empty in Hempty.
Qed.

Lemma lookup_reveal_surface {math : MathLib} (image : Surface) (reveal_progress : Q)
    (revealed : gset (Z * Z)) (pixel : Z * Z) (c : Z * Z * Z * Z) :
  AnimalMakerApp.reveal_surface image reveal_progress revealed !! pixel = Some c
  ↔ pixel ∈ revealed
    ∧ c = AnimalMakerApp.reveal_pixel image reveal_progress pixel.
Proof.
  unfold AnimalMakerApp.reveal_surface.
  rewrite lookup_set_to_map by (by intros ?? _ _ [= ->]).
  split.
  - intros (q & Hq & [= -> ->]). done.
  - intros [Hin ->]. by exists pixel.
Qed.

(** C7, amended. For a reveal progress in [0,1], the radius is
    floor(2 + 3 * revealProgress) and the alpha floor(255 * revealProgress)
    (truncation, not rounding); a particle qualifies when its distance to
    its target is below 50 * (1 - revealProgress); the revealed pixels are
    the pixels of the image that lie within the radius (dx^2 + dy^2 <=
    radius^2) of the truncated image position of a qualifying particle,
    held in a set without duplicates; and each revealed pixel is written
    with the color of the target bitmap there and that alpha. *)
Theorem reveal_truncates {math : MathLib} (reveal_progress : Q)
    (particles : list Particle.t) (image : Surface)
    (image_rect : AnimalMakerApp.Rect) :
  (0 <= reveal_progress <= 1)%Q →
  let radius := Py.floor (2 + 3 * reveal_progress) in
  let alpha := Py.floor (255 * reveal_progress) in
  let revealed :=
    AnimalMakerApp.revealed_pixels particles image_rect (get_width image)
      (get_height image) reveal_progress in
  AnimalMakerApp.reveal_radius reveal_progress = radius
  ∧ AnimalMakerApp.reveal_alpha reveal_progress = alpha
  ∧ (∀ particle,
       AnimalMakerApp.qualifies particle reveal_progress = true
       ↔ (AnimalMakerApp.distance_to_target particle
          < 50 * (1 - reveal_progress))%Q)
  ∧ (∀ x y : Z,
       (x, y) ∈ revealed
       ↔ ∃ particle,
           particle ∈ particles
           ∧ (AnimalMakerApp.distance_to_target particle
              < 50 * (1 - reveal_progress))%Q
           ∧ (0 ≤ x < Z.of_nat (get_width image)
              ∧ 0 ≤ y < Z.of_nat (get_height image))
           ∧ (x - Py.int (Particle.current_x particle
                          - inject_Z (AnimalMakerApp.rect_x image_rect))%Q)
             * (x - Py.int (Particle.current_x particle
                            - inject_Z (AnimalMakerApp.rect_x image_rect))%Q)
             + (y - Py.int (Particle.current_y particle
                            - inject_Z (AnimalMakerApp.rect_y image_rect))%Q)
               * (y - Py.int (Particle.current_y particle
                              - inject_Z (AnimalMakerApp.rect_y image_rect))%Q)
             ≤ radius * radius)
  ∧ NoDup (elements revealed)
  ∧ (∀ (pixel : Z * Z) (c : Z * Z * Z * Z),
       AnimalMakerApp.reveal_surface image reveal_progress revealed !! pixel
       = Some c
       ↔ pixel ∈ revealed
         ∧ ∃ r g b,
             color_rgb (get_at image (Z.to_nat pixel.1) (Z.to_nat pixel.2))
             = (r, g, b)
             ∧ c = (r, g, b, alpha)).
Proof.
  intros Hrp radius alpha revealed.
  destruct (reveal_radius_floor _ Hrp) as [Hradius _].
  pose proof (reveal_alpha_floor _ Hrp) as Halpha.
  assert (Hqual : ∀ particle,
            AnimalMakerApp.qualifies particle reveal_progress = true
            ↔ (AnimalMakerApp.distance_to_target particle
               < 50 * (1 - reveal_progress))%Q).
  { intros particle. unfold AnimalMakerApp.qualifies. apply ltb_lt. }
  split_and!; [done | done | done | | apply NoDup_elements |].
  - intros x y. unfold revealed. rewrite elem_of_revealed_pixels.
    apply exist_proper. intros particle.
    rewrite elem_of_particle_reveal by done.
    rewrite Hqual, Hradius. done.
  - intros pixel c. rewrite lookup_reveal_surface.
    unfold AnimalMakerApp.reveal_pixel. rewrite Halpha. subst alpha.
    destruct (color_rgb _) as [[r g] b]. split.
    + intros [Hin ->]. split; [done |]. by exists r, g, b.
    + intros [Hin (r' & g' & b' & [= <- <- <-] & ->)]. done.
Qed.

Lemma reveal_truncates_witness :
  (0 <= 0.5 <= 1)%Q
  ∧ AnimalMakerApp.reveal_radius 0.5 = Py.floor (2 + 3 * 0.5)
  ∧ AnimalMakerApp.reveal_alpha 0.5 = Py.floor (255 * 0.5).
Proof.
  assert (Hrp : (0 <= 0.5 <= 1)%Q) by (split; discriminate).
  split; [exact Hrp |].
  pose proof (reveal_truncates
                (math := example_math) 0.5 [] black_pixel
                {| AnimalMakerApp.rect_x := 0; AnimalMakerApp.rect_y := 0 |}
                Hrp) as (Hradius & Halpha & _).
  split; [exact Hradius | exact Halpha].
Defined.

(** * Further properties of the engine and the application *)

(** ** Ink sampling *)

(** The entries of [l[skip::step]] for a run of consecutive numbers. *)
Lemma elem_of_stride_from_seq (step : nat) :
  (1 ≤ step)%nat →
  ∀ n skip start x,
    x ∈ Py.stride_from skip step (seq start n)
    ↔ ∃ m : nat, x = (start + skip + m * step)%nat ∧ (x < start + n)%nat.
Proof.
  intros Hstep. induction n as [| n IH]; intros skip start x; simpl.
  - split; [by intros ?%elem_of_nil | intros (m & -> & Hlt); lia].
  - destruct skip as [| skip].
    + rewrite elem_of_cons, IH. split.
      * intros [-> | (m & -> & Hlt)]; [exists O; lia | exists (S m); lia].
      * intros ([| m] & -> & Hlt); [left; lia |].
        right. exists m. lia.
    + rewrite IH. split; intros (m & -> & Hlt); exists m; lia.
Qed.

Lemma elem_of_range_step (n step x : nat) :
  (1 ≤ step)%nat →
  x ∈ Py.range_step n step ↔ (x < n)%nat ∧ (x mod step = 0)%nat.
Proof.
  intros Hstep. unfold Py.range_step.
  rewrite elem_of_stride_from_seq by done. split.
  - intros (m & -> & Hlt). split; [lia |].
    simpl. apply Nat.Div0.mod_mul.
  - intros [Hlt Hmod]. exists (x / step)%nat. split; [| lia].
    pose proof (Nat.div_mod_eq x step) as Hdiv. lia.
Qed.

(** X1. [extract_non_white_pixels] returns exactly the pixels of the
    bitmap that lie on the sampling grid (both coordinates multiples of
    the step max(1, min(width, height) // 100)) and whose three color
    channels sum to less than 700, each at its world position (offset
    plus pixel coordinates) with its color without the alpha channel. *)
Theorem ink_samples_on_grid (surface : Surface) (offset : Z * Z) (s : sample) :
  let step :=
    Nat.max 1 (Nat.min (get_width surface) (get_height surface) / 100) in
  s ∈ AnimationManager.extract_non_white_pixels surface offset
  ↔ ∃ x y : nat,
      (x < get_width surface)%nat ∧ (y < get_height surface)%nat
      ∧ (x mod step = 0)%nat ∧ (y mod step = 0)%nat
      ∧ rgb_sum (color_rgb (get_at surface x y)) < 700
      ∧ s = ((offset.1 + Z.of_nat x, offset.2 + Z.of_nat y),
             color_rgb (get_at surface x y)).
Proof.
  intros step. unfold AnimationManager.extract_non_white_pixels. fold step.
  assert (Hstep : (1 ≤ step)%nat) by (subst step; lia).
  rewrite list_elem_of_bind. split.
  - intros (y & (x & Hs & Hx)%list_elem_of_bind & Hy).
    apply elem_of_range_step in Hx as [Hx Hxm]; [| done].
    apply elem_of_range_step in Hy as [Hy Hym]; [| done].
    case_decide as Hink; [| by apply elem_of_nil in Hs].
    apply list_elem_of_singleton in Hs. by exists x, y.
  - intros (x & y & Hx & Hy & Hxm & Hym & Hink & ->).
    exists y. split; [| by apply elem_of_range_step].
    apply list_elem_of_bind. exists x. split; [| by apply elem_of_range_step].
    rewrite decide_True by done. by apply list_elem_of_singleton.
Qed.
(** ** Shape sampling *)

(** The candidates of [extract_pixels_for_shape]: the pixels of the
    bitmap that the scan keeps, at their world positions. *)
Lemma elem_of_all_shape_pixels (surface : Surface) (offset : Z * Z)
    (s : sample) :
  s ∈ AnimationManager.all_shape_pixels surface offset
  ↔ ∃ x y : nat,
      (x < get_width surface)%nat ∧ (y < get_height surface)%nat
      ∧ match color_alpha (get_at surface x y) with
        | Some a => 128 < a
        | None => color_sum (get_at surface x y) < 700
        end
      ∧ s = ((offset.1 + Z.of_nat x, offset.2 + Z.of_nat y),
             color_rgb (get_at surface x y)).
Proof.
  unfold AnimationManager.all_shape_pixels.
  rewrite list_elem_of_bind. split.
  - intros (y & (x & Hs & Hx)%list_elem_of_bind & Hy).
    apply elem_of_seq in Hx, Hy. exists x, y.
    destruct (color_alpha (get_at surface x y));
      (case_decide; [| by apply elem_of_nil in Hs]);
      apply list_elem_of_singleton in Hs; split_and!; (done || lia).
  - intros (x & y & Hx & Hy & Hkept & ->).
    exists y. split; [| apply elem_of_seq; lia].
    apply list_elem_of_bind. exists x. split; [| apply elem_of_seq; lia].
    destruct (color_alpha (get_at surface x y));
      rewrite decide_True by done; by apply list_elem_of_singleton.
Qed.

Lemma Forall_stride_from {A} (P : A → Prop) (step : nat) (l : list A) :
  Forall P l → ∀ skip, Forall P (Py.stride_from skip step l).
Proof.
  induction 1 as [| x l Hx Hl IH]; intros skip; simpl; [constructor |].
  destruct skip; [constructor; [done |] |]; apply IH.
Qed.

(** The padding loop only appends draws from the candidates, one random
    number each, and stops at the requested length. *)
Lemma fill_remaining_appends {rnd : RandomSource} (P : sample → Prop)
    (num_pixels : nat) :
  ∀ fuel aliased pixels all_pixels k r k',
    AnimationManager.fill_remaining fuel aliased pixels all_pixels
      num_pixels k = Ok (r, k') →
    Forall P all_pixels →
    ∃ extra,
      r = pixels ++ extra
      ∧ Forall P extra
      ∧ k' = (k + length extra)%nat
      ∧ length extra = (if bool_decide (all_pixels = []) then O
                        else num_pixels - length pixels)%nat.
Proof.
  induction fuel as [| fuel IH];
    intros aliased pixels all_pixels k r k' Hres Hall; simpl in Hres.
  - destruct (Nat.ltb_spec (length pixels) num_pixels) as [Hlt | Hge];
      simpl in Hres.
    + case_bool_decide as Hne; [done |].
      try apply dec_stable in Hne. inversion Hres; subst.
      exists []. rewrite app_nil_r, bool_decide_eq_true_2 by done.
      split_and!; [done | constructor | simpl; lia | done].
    + inversion Hres; subst. exists []. rewrite app_nil_r.
      split_and!; [done | constructor | simpl; lia |].
      case_bool_decide; simpl; lia.
  - destruct (Nat.ltb_spec (length pixels) num_pixels) as [Hlt | Hge];
      simpl in Hres.
    2: { inversion Hres; subst. exists []. rewrite app_nil_r.
         split_and!; [done | constructor | simpl; lia |].
         case_bool_decide; simpl; lia. }
    case_bool_decide as Hne.
    2: { try apply dec_stable in Hne. inversion Hres; subst.
         exists []. rewrite app_nil_r, bool_decide_eq_true_2 by done.
         split_and!; [done | constructor | simpl; lia | done]. }
    unfold mbind, M_bind in Hres.
    destruct (random.choice all_pixels k) as [[c k1] | |] eqn:Hchoice;
      [| done | done].
    assert (Hc : c ∈ all_pixels ∧ k1 = S k).
    { unfold random.choice in Hchoice.
      destruct all_pixels as [| x0 rest] eqn:Hseq; [done |].
      rewrite <- Hseq in *.
      unfold mbind, M_bind, random.randbelow in Hchoice.
      destruct (all_pixels !! _) as [x |] eqn:Hlook; [| done].
      inversion Hchoice; subst x k1. split; [| done].
      by eapply list_elem_of_lookup_2. }
    destruct Hc as [Hc ->].
    assert (HPc : P c) by by eapply Forall_forall in Hall.
    apply IH in Hres as (extra & -> & Hextra & -> & Hlen).
    2: { destruct aliased; [| done]. apply Forall_app. split; [done |].
         by constructor. }
    exists (c :: extra). rewrite <- app_assoc. simpl.
    split_and!; [done | by constructor | lia |].
    rewrite bool_decide_eq_false_2 by done.
    rewrite length_app in Hlen. simpl in Hlen.
    rewrite bool_decide_eq_false_2 in Hlen; [lia |].
    destruct aliased; [by destruct all_pixels | done].
Qed.

(** X2. Whatever the generator returns, a call of
    [extract_pixels_for_shape] that returns gives only pixels the scan of
    the target keeps (alpha above 128, or a sum below 700 for a color
    without alpha), each at its world position; it gives exactly
    [num_pixels] of them when the target keeps a pixel at all and none
    otherwise; and when the target keeps no more than [num_pixels] pixels
    every one of them is returned, in scan order, before the random
    repeats. *)
Theorem shape_samples_are_target_pixels {rnd : RandomSource}
    (fuel : nat) (surface : Surface) (offset : Z * Z) (num_pixels k : nat)
    (pixels : list sample) (k' : nat) :
  AnimationManager.extract_pixels_for_shape fuel surface offset
    num_pixels k = Ok (pixels, k') →
  Forall
    (λ s : sample,
       ∃ x y : nat,
         (x < get_width surface)%nat ∧ (y < get_height surface)%nat
         ∧ match color_alpha (get_at surface x y) with
           | Some a => 128 < a
           | None => color_sum (get_at surface x y) < 700
           end
         ∧ s = ((offset.1 + Z.of_nat x, offset.2 + Z.of_nat y),
                color_rgb (get_at surface x y)))
    pixels
  ∧ length pixels
    = (if bool_decide (AnimationManager.all_shape_pixels surface offset = [])
       then O else num_pixels)
  ∧ ((length (AnimationManager.all_shape_pixels surface offset)
      ≤ num_pixels)%nat →
     AnimationManager.all_shape_pixels surface offset `prefix_of` pixels).
Proof.
  unfold AnimationManager.extract_pixels_for_shape.
  set (all_pixels := AnimationManager.all_shape_pixels surface offset).
  set (P := λ s : sample, s ∈ all_pixels).
  assert (Hall : Forall P all_pixels) by by apply Forall_forall.
  assert (Hgoal : ∀ pixels : list sample,
            Forall P pixels →
            Forall
              (λ s : sample,
                 ∃ x y : nat,
                   (x < get_width surface)%nat ∧ (y < get_height surface)%nat
                   ∧ match color_alpha (get_at surface x y) with
                     | Some a => 128 < a
                     | None => color_sum (get_at surface x y) < 700
                     end
                   ∧ s = ((offset.1 + Z.of_nat x, offset.2 + Z.of_nat y),
                          color_rgb (get_at surface x y)))
              pixels).
  { intros l Hl. eapply Forall_impl; [exact Hl |]. intros s Hs.
    by apply elem_of_all_shape_pixels. }
  destruct (Nat.ltb_spec num_pixels (length all_pixels)) as [Hlt | Hge].
  - unfold mbind at 1, M_bind at 1, lift at 1, Py.floordiv.
    case_decide as Hzero; [done |].
    unfold mbind at 1, M_bind at 1, lift at 1, Py.slice_step.
    case_decide as Hstep; [done |].
    intros Hres.
    apply (fill_remaining_appends P) in Hres
      as (extra & -> & Hextra & _ & Hlen); [| done].
    assert (Hne : all_pixels ≠ []) by (intros Heq; rewrite Heq in Hlt; simpl in Hlt; lia).
    rewrite bool_decide_eq_false_2 in Hlen |- * by done.
    assert (Htake : Forall P (take num_pixels
              (Py.stride_from 0
                 (Z.to_nat (Z.of_nat (length all_pixels) / Z.of_nat num_pixels))
                 all_pixels))).
    { by apply Forall_take, Forall_stride_from. }
    split_and!.
    + apply Hgoal, Forall_app. done.
    + rewrite length_app, Hlen. 
      assert (length (take num_pixels
              (Py.stride_from 0
                 (Z.to_nat (Z.of_nat (length all_pixels) / Z.of_nat num_pixels))
                 all_pixels)) ≤ num_pixels)%nat by (rewrite length_take; lia).
      lia.
    + lia.
  - intros Hres.
    apply (fill_remaining_appends P) in Hres
      as (extra & -> & Hextra & _ & Hlen); [| done].
    split_and!.
    + apply Hgoal, Forall_app. done.
    + rewrite length_app, Hlen. case_bool_decide as Hempty.
      * by rewrite Hempty.
      * lia.
    + intros _. by apply prefix_app_r.
Qed.

Lemma shape_samples_are_target_pixels_witness :
  ∃ pixels k',
    AnimationManager.extract_pixels_for_shape (rnd := example_random) 4
      ink_square (50, 50) 6 0%nat = Ok (pixels, k')
    ∧ length pixels = 6%nat
    ∧ AnimationManager.all_shape_pixels ink_square (50, 50) `prefix_of` pixels.
Proof.
  do 2 eexists. split; [vm_compute; reflexivity |].
  destruct (shape_samples_are_target_pixels (rnd := example_random) 4
              ink_square (50, 50) 6 0%nat _ _ eq_refl) as (_ & Hlen & Hpre).
  split; [exact Hlen |]. apply Hpre. vm_compute. lia.
Defined.
(** [l[skip::step]] entry by entry. *)
Lemma lookup_stride_from {A} (step : nat) (l : list A) :
  (1 ≤ step)%nat →
  ∀ skip i, Py.stride_from skip step l !! i = l !! (skip + i * step)%nat.
Proof.
  intros Hstep. induction l as [| x l IH]; intros skip i; simpl; [done |].
  destruct skip as [| skip].
  - destruct i as [| i]; simpl; [done |].
    rewrite IH. destruct step as [| step]; [lia |]. simpl.
    f_equal; lia.
  - rewrite IH. done.
Qed.

(** X3. When the target keeps more pixels than requested (and at least
    one is requested), [extract_pixels_for_shape] draws no random number
    and needs no padding: it returns, for every generator and every fuel,
    the candidates at the indices 0, step, 2*step, ... with
    step = len(all_pixels) // num_pixels, cut to [num_pixels] entries. *)
Theorem large_target_is_subsampled {rnd : RandomSource}
    (fuel : nat) (surface : Surface) (offset : Z * Z) (num_pixels k : nat) :
  let all_pixels := AnimationManager.all_shape_pixels surface offset in
  let step := (length all_pixels / num_pixels)%nat in
  (0 < num_pixels < length all_pixels)%nat →
  ∃ pixels,
    AnimationManager.extract_pixels_for_shape fuel surface offset
      num_pixels k = Ok (pixels, k)
    ∧ length pixels = num_pixels
    ∧ ∀ i : nat,
        (i < num_pixels)%nat → pixels !! i = all_pixels !! (i * step)%nat.
Proof.
  intros all_pixels step [Hpos Hlt].
  unfold AnimationManager.extract_pixels_for_shape. fold all_pixels.
  destruct (Nat.ltb_spec num_pixels (length all_pixels)) as [_ | Hge];
    [| lia].
  unfold mbind, M_bind, lift, Py.floordiv, Py.slice_step.
  rewrite decide_False by lia.
  replace (Z.to_nat (Z.of_nat (length all_pixels) / Z.of_nat num_pixels))
    with step by (subst step; rewrite <- Nat2Z.inj_div; by rewrite Nat2Z.id).
  assert (Hstep : (1 ≤ step)%nat).
  { subst step. apply Nat.div_le_lower_bound; lia. }
  assert (Hmul : (num_pixels * step ≤ length all_pixels)%nat).
  { subst step. apply Nat.Div0.mul_div_le. }
  rewrite decide_False by lia.
  set (strided := Py.stride_from 0 step all_pixels).
  assert (Hstrided : (num_pixels ≤ length strided)%nat).
  { apply length_stride_from; lia. }
  exists (take num_pixels strided).
  assert (Hlen : length (take num_pixels strided) = num_pixels).
  { rewrite length_take. lia. }
  split_and!; [| done |].
  - assert (Hfull : (length (take num_pixels strided) <? num_pixels)%nat
                    = false) by (apply Nat.ltb_ge; lia).
    destruct fuel; simpl; rewrite Hfull; done.
  - intros i Hi. rewrite lookup_take_lt by done.
    subst strided. by rewrite lookup_stride_from.
Qed.

Lemma large_target_is_subsampled_witness :
  ∃ pixels,
    AnimationManager.extract_pixels_for_shape (rnd := example_random) 0
      ink_square (50, 50) 2 0%nat = Ok (pixels, 0%nat)
    ∧ length pixels = 2%nat
    ∧ ∀ i : nat,
        (i < 2)%nat →
        pixels !! i
        = AnimationManager.all_shape_pixels ink_square (50, 50) !! (i * 2)%nat.
Proof.
  apply (large_target_is_subsampled (rnd := example_random) 0 ink_square
           (50, 50) 2 0%nat).
  vm_compute. lia.
Defined.
(** ** The sort of the targets *)

Lemma insert_by_key_Permutation (p : sample) (l : list sample) :
  AnimationManager.insert_by_key p l ≡ₚ p :: l.
Proof.
  induction l as [| q l IH]; simpl; [done |].
  destruct (AnimationManager.key_lt q p); [| done].
  rewrite IH. apply Permutation_swap.
Qed.

Lemma sorted_by_key_Permutation (l : list sample) :
  AnimationManager.sorted_by_key l ≡ₚ l.
Proof.
  unfold AnimationManager.sorted_by_key.
  induction l as [| p l IH]; simpl; [done |].
  by rewrite insert_by_key_Permutation, IH.
Qed.

Lemma key_lt_spec (p q : sample) :
  AnimationManager.key_lt p q = true
  ↔ p.1.2 < q.1.2 ∨ (p.1.2 = q.1.2 ∧ p.1.1 < q.1.1).
Proof.
  destruct p as [[px py] pc], q as [[qx qy] qc]. simpl.
  apply bool_decide_eq_true.
Qed.

Lemma insert_by_key_filter (pos : Pos) (p : sample) (l : list sample) :
  filter (λ s : sample, s.1 = pos) (AnimationManager.insert_by_key p l)
  = filter (λ s : sample, s.1 = pos) (p :: l).
Proof.
  induction l as [| q l IH]; simpl; [done |].
  destruct (AnimationManager.key_lt q p) eqn:Hlt; [| done].
  rewrite filter_cons, IH, !filter_cons.
  apply key_lt_spec in Hlt.
  repeat case_decide; try done.
  assert (Hq : q.1 = p.1) by congruence. rewrite Hq in Hlt. lia.
Qed.

(** X4. The sort of [create_particles] (key (y, x)) rearranges the target
    samples without adding or dropping one, leaves them in ascending
    order of row and, within a row, of column, and is stable: samples at
    one position keep the order they had. *)
Theorem target_sort_is_stable (target_pixels : list sample) :
  AnimationManager.sorted_by_key target_pixels ≡ₚ target_pixels
  ∧ StronglySorted
      (λ p q : sample, p.1.2 < q.1.2 ∨ (p.1.2 = q.1.2 ∧ p.1.1 ≤ q.1.1))
      (AnimationManager.sorted_by_key target_pixels)
  ∧ ∀ pos : Pos,
      filter (λ s : sample, s.1 = pos)
        (AnimationManager.sorted_by_key target_pixels)
      = filter (λ s : sample, s.1 = pos) target_pixels.
Proof.
  split; [apply sorted_by_key_Permutation |].
  unfold AnimationManager.sorted_by_key.
  induction target_pixels as [| p l (Hsorted & Hstable)]; simpl.
  { split; [constructor | done]. }
  split.
  - clear Hstable. induction Hsorted as [| q sorted Hs IH Hq]; simpl.
    { repeat constructor. }
    destruct (AnimationManager.key_lt q p) eqn:Hlt.
    + constructor; [done |].
      rewrite insert_by_key_Permutation. constructor; [| done].
      apply key_lt_spec in Hlt. lia.
    + assert (Hpq : p.1.2 < q.1.2 ∨ (p.1.2 = q.1.2 ∧ p.1.1 ≤ q.1.1)).
      { apply not_true_iff_false in Hlt. rewrite key_lt_spec in Hlt. lia. }
      constructor; [by constructor |].
      constructor; [done |].
      eapply Forall_impl; [exact Hq |]. simpl. intros r Hr. lia.
  - intros pos. rewrite insert_by_key_filter, !filter_cons.
    by rewrite Hstable.
Qed.
(** ** The nearest unused target *)

Section NearestFacts.
Implicit Types (used : gset nat) (targets : list sample).

(** The squared distance of the inner loop. *)
Local Abbreviation dist2 sp tp :=
  ((sp.1 - tp.1) * (sp.1 - tp.1) + (sp.2 - tp.2) * (sp.2 - tp.2)).

(** The inner loop from index [i] on, entered with a candidate found
    before [i] (or with none): what it returns is no farther than the
    candidate and than every unused entry from [i] on, and on equal
    distance it is the earlier one. *)
Lemma closest_unused_nearest (source_pos : Pos) used targets :
  ∀ (i : nat) best_distance best j target_pos target_color,
    AnimationManager.closest_unused source_pos used i targets
      best_distance best = Some (j, target_pos, target_color) →
    (∀ d, best_distance = Some d →
          ∃ jb tpb tcb,
            best = Some (jb, tpb, tcb) ∧ d = dist2 source_pos tpb
            ∧ (jb < i)%nat) →
    (∀ d jb tpb tcb,
       best_distance = Some d → best = Some (jb, tpb, tcb) →
       dist2 source_pos target_pos ≤ d
       ∧ (dist2 source_pos target_pos = d → j = jb))
    ∧ (∀ (j' : nat) tp' tc',
         (i ≤ j')%nat → j' ∉ used →
         targets !! (j' - i)%nat = Some (tp', tc') →
         dist2 source_pos target_pos ≤ dist2 source_pos tp'
         ∧ (dist2 source_pos tp' = dist2 source_pos target_pos →
            (j ≤ j')%nat)).
Proof.
  induction targets as [| [tpt tct] targets IH];
    intros i best_distance best j target_pos target_color; simpl.
  { intros -> Hbest. split.
    - intros d jb tpb tcb Hd [= -> -> ->].
      destruct (Hbest d Hd) as (jb' & tpb' & tcb' & [= <- <- <-] & -> & _).
      done.
    - intros j' tp' tc' _ _ Hlook. by rewrite lookup_nil in Hlook. }
  assert (Hshift : ∀ j' : nat, (S i ≤ j')%nat →
            (j' - i)%nat = S (j' - S i)) by lia.
  case_decide as Hused.
  - intros Hres Hbest.
    apply IH in Hres as [Hold Hnew].
    2: { intros d Hd. destruct (Hbest d Hd) as (jb & tpb & tcb & ? & ? & ?).
         exists jb, tpb, tcb. split_and!; [done | done | lia]. }
    split; [done |].
    intros j' tp' tc' Hle Hj' Hlook.
    destruct (decide (j' = i)) as [-> | Hne]; [done |].
    rewrite Hshift in Hlook by lia. apply (Hnew j' tp' tc'); [lia | done | done].
  - destruct (AnimationManager.below_best _ best_distance) eqn:Hbelow.
    + intros Hres Hbest.
      apply IH in Hres as [Hold Hnew].
      2: { intros d [= <-]. exists i, tpt, tct. split_and!; [done | done | lia]. }
      destruct (Hold _ i tpt tct eq_refl eq_refl) as [Hle Heq].
      split.
      * intros d jb tpb tcb -> ->. simpl in Hbelow.
        apply bool_decide_eq_true in Hbelow.
        destruct (Hbest d eq_refl) as (jb' & tpb' & tcb' & [= <- <- <-] & _ & _).
        split; [lia | intros; lia].
      * intros j' tp' tc' Hle' Hj' Hlook.
        destruct (decide (j' = i)) as [-> | Hne].
        -- rewrite Nat.sub_diag in Hlook. simpl in Hlook.
           inversion Hlook; subst tp' tc'.
           split; [done |]. intros Hd. symmetry in Hd. apply Heq in Hd. lia.
        -- rewrite Hshift in Hlook by lia.
           apply (Hnew j' tp' tc'); [lia | done | done].
    + intros Hres Hbest.
      destruct best_distance as [d |]; [| done].
      simpl in Hbelow. apply bool_decide_eq_false in Hbelow.
      destruct (Hbest d eq_refl) as (jb & tpb & tcb & -> & Hd & Hjb).
      apply IH in Hres as [Hold Hnew].
      2: { intros d' [= <-]. exists jb, tpb, tcb.
           split_and!; [done | done | lia]. }
      destruct (Hold d jb tpb tcb eq_refl eq_refl) as [Hle Heq].
      split.
      * intros d' jb' tpb' tcb' [= <-] [= <- <- <-]. done.
      * intros j' tp' tc' Hle' Hj' Hlook.
        destruct (decide (j' = i)) as [-> | Hne].
        -- rewrite Nat.sub_diag in Hlook. simpl in Hlook.
           inversion Hlook; subst tp' tc'.
           split; [lia |]. intros Hd'.
           assert (j = jb) by (apply Heq; lia). lia.
        -- rewrite Hshift in Hlook by lia.
           apply (Hnew j' tp' tc'); [lia | done | done].
Qed.

Lemma first_unused_all_used used targets :
  ∀ i : nat,
    (∀ j : nat, (i ≤ j < i + length targets)%nat → j ∈ used) →
    AnimationManager.first_unused used i targets = None.
Proof.
  induction targets as [| [tp tc] targets IH]; intros i Hall; simpl; [done |].
  rewrite decide_True by (apply Hall; simpl; lia).
  apply IH. intros j Hj. apply Hall. simpl. lia.
Qed.

End NearestFacts.

(** X5. The target [create_particles] picks for a source sample is an
    unused entry of the sorted target list that is nearest to the source
    position (squared Euclidean distance on the integer coordinates);
    among the unused entries at that same distance it is the first of the
    list. *)
Theorem chosen_target_is_nearest (source_pos : Pos) (used_targets : gset nat)
    (target_pixels_sorted : list sample) (j : nat) (target_pos : Pos)
    (target_color : RGB) :
  AnimationManager.choose_target source_pos used_targets target_pixels_sorted
  = Some (j, target_pos, target_color) →
  (j ∉ used_targets)
  ∧ target_pixels_sorted !! j = Some (target_pos, target_color)
  ∧ ∀ (j' : nat) (tp' : Pos) (tc' : RGB),
      j' ∉ used_targets →
      target_pixels_sorted !! j' = Some (tp', tc') →
      (source_pos.1 - target_pos.1) * (source_pos.1 - target_pos.1)
      + (source_pos.2 - target_pos.2) * (source_pos.2 - target_pos.2)
      ≤ (source_pos.1 - tp'.1) * (source_pos.1 - tp'.1)
        + (source_pos.2 - tp'.2) * (source_pos.2 - tp'.2)
      ∧ ((source_pos.1 - tp'.1) * (source_pos.1 - tp'.1)
         + (source_pos.2 - tp'.2) * (source_pos.2 - tp'.2)
         = (source_pos.1 - target_pos.1) * (source_pos.1 - target_pos.1)
           + (source_pos.2 - target_pos.2) * (source_pos.2 - target_pos.2) →
         (j ≤ j')%nat).
Proof.
  intros Hchoose.
  destruct (choose_target_some _ _ _ _ _ _ Hchoose) as [Hj Hlook].
  split_and!; [done | done |].
  unfold AnimationManager.choose_target in Hchoose.
  destruct (AnimationManager.closest_unused _ _ _ _ _ _)
    as [[[jc tpc] tcc] |] eqn:Hclosest.
  - inversion Hchoose; subst jc tpc tcc.
    apply closest_unused_nearest in Hclosest as [_ Hnew]; [| done].
    intros j' tp' tc' Hj' Hlook'.
    apply (Hnew j' tp' tc'); [lia | done |]. by rewrite Nat.sub_0_r.
  - intros j' tp' tc' Hj' Hlook'. exfalso. apply Hj'.
    apply (closest_unused_none _ _ _ _ Hclosest).
    apply lookup_lt_Some in Hlook'. split; [lia | exact Hlook'].
Qed.

Lemma chosen_target_is_nearest_witness :
  AnimationManager.choose_target (10, 10) {[0%nat]}
    [((20, 20), (0, 0, 0)); ((51, 50), (0, 0, 0)); ((50, 51), (0, 0, 0))]
  = Some (1%nat, (51, 50), (0, 0, 0))
  ∧ (10 - 51) * (10 - 51) + (10 - 50) * (10 - 50)
    ≤ (10 - 50) * (10 - 50) + (10 - 51) * (10 - 51)
  ∧ (1 ≤ 2)%nat.
Proof.
  assert (Hchoose :
    AnimationManager.choose_target (10, 10) {[0%nat]}
      [((20, 20), (0, 0, 0)); ((51, 50), (0, 0, 0)); ((50, 51), (0, 0, 0))]
    = Some (1%nat, (51, 50), (0, 0, 0))) by (vm_compute; reflexivity).
  split; [exact Hchoose |].
  destruct (chosen_target_is_nearest _ _ _ _ _ _ Hchoose) as (_ & _ & Hnear).
  destruct (Hnear 2%nat (50, 51) (0, 0, 0)) as [Hle Htie].
  - intros Heq%elem_of_singleton. discriminate.
  - reflexivity.
  - split; [exact Hle | apply Htie; reflexivity].
Defined.

(** X6. The fallback loop of [create_particles] (lines 309-313) never
    assigns a target: when the search for the nearest unused target ends
    without one, every target is used and the fallback finds none
    either, so the choice is that of the search alone. *)
Theorem fallback_never_assigns (source_pos : Pos) (used_targets : gset nat)
    (target_pixels_sorted : list sample) :
  AnimationManager.choose_target source_pos used_targets target_pixels_sorted
  = AnimationManager.closest_unused source_pos used_targets 0
      target_pixels_sorted None None
  ∧ (AnimationManager.closest_unused source_pos used_targets 0
       target_pixels_sorted None None = None →
     AnimationManager.first_unused used_targets 0 target_pixels_sorted = None).
Proof.
  assert (Hdead :
    AnimationManager.closest_unused source_pos used_targets 0
      target_pixels_sorted None None = None →
    AnimationManager.first_unused used_targets 0 target_pixels_sorted = None).
  { intros Hnone. apply first_unused_all_used.
    intros j Hj. by apply (closest_unused_none _ _ _ _ Hnone). }
  split; [| done].
  unfold AnimationManager.choose_target.
  destruct (AnimationManager.closest_unused _ _ _ _ _ _) eqn:Hclosest;
    [done | by apply Hdead].
Qed.
(** ** Every target is covered *)

(** Distinct indices below [n], [n] of them, are all of them. *)
Lemma indices_Permutation (l : list nat) (n : nat) :
  NoDup l → Forall (λ i, (i < n)%nat) l → length l = n → l ≡ₚ seq 0 n.
Proof.
  intros Hnodup Hlt Hlen.
  apply submseteq_length_Permutation.
  - apply NoDup_submseteq; [done |].
    intros i Hi. apply elem_of_seq.
    rewrite Forall_forall in Hlt. apply Hlt in Hi. lia.
  - rewrite length_seq. lia.
Qed.

Lemma lookup_seq_all {A} (l : list A) :
  (λ i : nat, l !! i) <$> seq 0 (length l) = Some <$> l.
Proof.
  apply list_eq. intros i. rewrite !list_lookup_fmap.
  destruct (decide (i < length l)%nat) as [Hlt | Hge].
  - rewrite lookup_seq_lt by done. simpl.
    destruct (lookup_lt_is_Some_2 l i Hlt) as [x Hx]. by rewrite Hx.
  - rewrite lookup_seq_ge by lia. simpl.
    rewrite lookup_ge_None_2 by lia. done.
Qed.

(** X7. For non-empty source and target lists (and fuel for the
    equalization) the assignments of [create_particles] use every target
    sample exactly once: their target indices are the indices of the
    sorted target list, each once, and the target samples they carry are
    the given target samples, rearranged. *)
Theorem every_target_is_assigned_once
    (source_pixels target_pixels : list sample) (fuel : nat) :
  source_pixels ≠ [] →
  target_pixels ≠ [] →
  (length target_pixels ≤ fuel)%nat →
  ∃ asg,
    AnimationManager.assignments fuel source_pixels target_pixels
    = Ok (Some asg)
    ∧ AnimationManager.target_idx <$> asg ≡ₚ seq 0 (length target_pixels)
    ∧ (λ a, (AnimationManager.target_pos a, AnimationManager.target_color a))
        <$> asg ≡ₚ target_pixels.
Proof.
  intros Hsrc Htgt Hfuel.
  destruct (equalize_returns source_pixels (length target_pixels)
              fuel Hsrc Hfuel) as (equalized & Heq & Hlen & _).
  set (targets := AnimationManager.sorted_by_key target_pixels).
  assert (Hlen' : length targets = length target_pixels)
    by apply length_sorted_by_key.
  destruct (assign_valid targets equalized ∅) as (Hpair & Hnodup & Hidx).
  { intros j Hj. by apply not_elem_of_empty in Hj. }
  { rewrite size_empty. lia. }
  set (asg := AnimationManager.assign equalized targets ∅) in *.
  assert (Hasg_len : length asg = length target_pixels).
  { apply Forall2_length in Hpair. lia. }
  assert (Hperm : AnimationManager.target_idx <$> asg
                  ≡ₚ seq 0 (length target_pixels)).
  { apply indices_Permutation; [done | | by rewrite length_fmap].
    apply Forall_fmap. eapply Forall_impl; [exact Hidx |].
    intros a [_ Hlook]. simpl. apply lookup_lt_Some in Hlook.
    rewrite <- Hlen'. exact Hlook. }
  exists asg. split_and!; [| done |].
  - unfold AnimationManager.assignments.
    rewrite !bool_decide_eq_false_2 by done. simpl.
    rewrite length_sorted_by_key, Heq. done.
  - assert (Hsome :
      Some <$> ((λ a, (AnimationManager.target_pos a,
                       AnimationManager.target_color a)) <$> asg)
      ≡ₚ Some <$> targets).
    { transitivity ((λ i : nat, targets !! i)
                      <$> (AnimationManager.target_idx <$> asg)).
      - rewrite <- !list_fmap_compose.
        assert (Heq' :
          (Some ∘ (λ a, (AnimationManager.target_pos a,
                         AnimationManager.target_color a))) <$> asg
          = ((λ i : nat, targets !! i) ∘ AnimationManager.target_idx) <$> asg).
        { apply Forall_fmap_ext.
          eapply Forall_impl; [exact Hidx |].
          intros a [_ Hlook]. simpl. by rewrite Hlook. }
        by rewrite Heq'.
      - rewrite Hperm.
        replace (length target_pixels) with (length targets).
        by rewrite lookup_seq_all. }
    assert (Hinj : ∀ l1 l2 : list sample,
              Some <$> l1 ≡ₚ Some <$> l2 → l1 ≡ₚ l2).
    { intros l1 l2 H12.
      assert (Hback : ∀ l : list sample,
                default ((0, 0), (0, 0, 0)) <$> (Some <$> l) = l).
      { induction l as [| x l IH]; [done |]. by rewrite !fmap_cons, IH. }
      apply (fmap_Permutation (default ((0, 0), (0, 0, 0)))) in H12.
      by rewrite !Hback in H12. }
    apply Hinj in Hsome. rewrite Hsome.
    apply sorted_by_key_Permutation.
Qed.

Lemma every_target_is_assigned_once_witness :
  example_source ≠ []
  ∧ example_target ≠ []
  ∧ (length example_target ≤ 2)%nat
  ∧ ∃ asg,
      AnimationManager.assignments 2 example_source example_target
      = Ok (Some asg)
      ∧ AnimationManager.target_idx <$> asg ≡ₚ seq 0 (length example_target)
      ∧ (λ a, (AnimationManager.target_pos a, AnimationManager.target_color a))
          <$> asg ≡ₚ example_target.
Proof.
  assert (Hsrc : example_source ≠ []) by discriminate.
  assert (Htgt : example_target ≠ []) by discriminate.
  assert (Hfuel : (length example_target ≤ 2)%nat) by (simpl; lia).
  split_and!; [exact Hsrc | exact Htgt | exact Hfuel |].
  exact (every_target_is_assigned_once example_source example_target 2
           Hsrc Htgt Hfuel).
Defined.
(** ** A start with ink *)

(** X8. With at least one ink sample in the source (and fuel for the
    samples), draws of [random.random()] in [0, 1) and a positive
    duration, [start_animation] returns: with one particle per ink sample
    when the target keeps a pixel and with none when it keeps none; the
    manager then has progress 0, is animating, has kept its duration, has
    the requested animation type and the middle of the source bitmap
    (offset plus half the size, floor division) as center point; and
    every particle wears its source color and has a fall delay in
    [0, 0.4). *)
Theorem start_with_ink_is_started {math : MathLib} {rnd : RandomSource}
    (fuel : nat) (self : AnimationManager.t)
    (source_surface target_surface : Surface)
    (source_offset target_offset : Z * Z) (ty : AnimationType) (k : nat) :
  AnimationManager.extract_non_white_pixels source_surface source_offset ≠ [] →
  (length (AnimationManager.extract_non_white_pixels source_surface
             source_offset) ≤ fuel)%nat →
  (∀ k, (0 <= random_unit k < 1)%Q) →
  (0 < AnimationManager.duration self)%Q →
  ∃ self' k',
    AnimationManager.start_animation fuel self source_surface target_surface
      source_offset target_offset ty k = Ok (self', k')
    ∧ length (AnimationManager.particles self')
      = (if decide (AnimationManager.all_shape_pixels target_surface
                      target_offset = [])
         then O
         else length (AnimationManager.extract_non_white_pixels
                        source_surface source_offset))
    ∧ AnimationManager.progress self' = 0%Q
    ∧ AnimationManager.is_animating self' = true
    ∧ AnimationManager.duration self' = AnimationManager.duration self
    ∧ AnimationManager.animation_type self' = ty
    ∧ AnimationManager.center_point self'
      = (source_offset.1 + Z.of_nat (get_width source_surface) / 2,
         source_offset.2 + Z.of_nat (get_height source_surface) / 2)
    ∧ Forall (λ p, Particle.color p = Particle.source_color p
                   ∧ (0 <= Particle.fall_delay p < 0.4)%Q)
        (AnimationManager.particles self').
Proof.
  intros Hink Hfuel Hunit Hdur.
  destruct (start_animation_returns fuel self source_surface target_surface
              source_offset target_offset ty k Hink Hfuel)
    as (self' & k' & Hstart & Hlen).
  destruct (start_animation_started fuel self self' source_surface
              target_surface source_offset target_offset ty k k' Hunit Hdur
              Hstart) as (_ & _ & Hfresh).
  exists self', k'. split; [done |]. split; [done |].
  revert Hstart. unfold AnimationManager.start_animation, mbind, M_bind.
  destruct (AnimationManager.extract_pixels_for_shape _ _ _ _ _)
    as [[target_pixels k1] | |]; [| done | done].
  destruct (AnimationManager.create_particles _ _ _ _)
    as [[new_particles k2] | |]; [| done | done].
  intros [= <- <-]. simpl. split_and!; try done.
  eapply Forall_impl; [exact Hfresh |].
  intros p [[Hcolor Hlo] Hhi]. done.
Qed.

Lemma start_with_ink_is_started_witness :
  ∃ self' k',
    AnimationManager.start_animation (math := example_math)
      (rnd := example_random) 4 AnimationManager.init ink_square white_square
      (10, 10) (50, 50) SAND_FALL 0%nat = Ok (self', k')
    ∧ length (AnimationManager.particles self') = 4%nat
    ∧ AnimationManager.center_point self' = (11, 11).
Proof.
  destruct (start_with_ink_is_started (math := example_math)
              (rnd := example_random) 4 AnimationManager.init ink_square
              white_square (10, 10) (50, 50) SAND_FALL 0%nat)
    as (self' & k' & Hstart & Hlen & _ & _ & _ & _ & Hcenter & _).
  - vm_compute. discriminate.
  - vm_compute. lia.
  - intros k0. vm_compute. split; [discriminate | reflexivity].
  - reflexivity.
  - exists self', k'. split; [exact Hstart |]. split; [exact Hlen |].
    exact Hcenter.
Defined.

(** ** Progress as elapsed time *)

Lemma updates_finished {math : MathLib} (dts : list Q)
    (self : AnimationManager.t) :
  AnimationManager.is_animating self = false →
  AnimationManager.updates self dts = Ok self.
Proof.
  intros Hdone. induction dts as [| dt dts IH]; simpl; [done |].
  unfold AnimationManager.update. by rewrite Hdone.
Qed.

Lemma elapsed_nonneg (dts : list Q) :
  Forall (λ dt, (0 <= dt)%Q) dts → (0 <= foldr Qplus 0 dts)%Q.
Proof.
  induction 1 as [| dt dts Hdt _ IH]; simpl; [lra | lra].
Qed.

(** A run in progress, played over the steps [dts]. *)
Lemma updates_elapsed {math : MathLib} (dts : list Q) :
  Forall (λ dt, (0 <= dt)%Q) dts →
  ∀ self : AnimationManager.t,
    AnimationManager.in_run self →
    AnimationManager.is_animating self = true →
    ∃ self',
      AnimationManager.updates self dts = Ok self'
      ∧ AnimationManager.duration self' = AnimationManager.duration self
      ∧ (AnimationManager.is_animating self' = false
         ↔ (1 <= AnimationManager.progress self
                 + foldr Qplus 0 dts / AnimationManager.duration self)%Q)
      ∧ (AnimationManager.is_animating self' = true →
         (AnimationManager.progress self'
          == AnimationManager.progress self
             + foldr Qplus 0 dts / AnimationManager.duration self)%Q)
      ∧ (AnimationManager.is_animating self' = false →
         AnimationManager.progress self' = 1%Q).
Proof.
  induction 1 as [| dt dts Hdt Hdts IH]; intros self Hrun Hanim; simpl.
  - destruct Hrun as (Hdur & Hlo & Hhi). rewrite Hanim in Hhi.
    exists self. split_and!; try done.
    + rewrite Hanim. split; [done |].
      unfold Qdiv. rewrite Qmult_0_l. lra.
    + intros _. unfold Qdiv. rewrite Qmult_0_l. lra.
    + by rewrite Hanim.
  - pose proof Hrun as (Hdur & Hlo & Hhi). rewrite Hanim in Hhi.
    pose proof (elapsed_nonneg dts Hdts) as Hsum.
    pose proof (step_nonneg _ _ Hsum Hdur) as Hrest.
    pose proof (step_nonneg _ _ Hdt Hdur) as Hstep.
    assert (Hsplit :
      ((dt + foldr Qplus 0 dts) / AnimationManager.duration self
       == dt / AnimationManager.duration self
          + foldr Qplus 0 dts / AnimationManager.duration self)%Q).
    { field. lra. }
    unfold AnimationManager.update at 1. rewrite Hanim. simpl.
    rewrite truediv_pos by done.
    destruct (Py.geb _ 1) eqn:Hfin.
    + apply geb_ge in Hfin.
      rewrite updates_finished by done.
      eexists. split; [reflexivity |]. simpl.
      split_and!; try done.
      * split; [| done]. intros _. rewrite Hsplit. lra.
    + apply geb_lt in Hfin.
      match goal with |- context [AnimationManager.updates ?mid dts] =>
        destruct (IH mid) as (self' & Hupd & Hd & Hiff & Hprog & Hone)
      end.
      { unfold AnimationManager.in_run. simpl.
        split_and!; [done | lra | done]. }
      { simpl. done. }
      simpl in *.
      exists self'. split_and!; try done.
      * rewrite Hiff, Hsplit. split; intros; lra.
      * intros Hstill. rewrite (Hprog Hstill), Hsplit. lra.
Qed.



(** X10. [set_duration] does not check its argument. On a run in
    progress, after a duration of zero every update raises
    ZeroDivisionError; after a negative duration the updates return but
    progress only falls, so that no sequence of steps that are not
    negative ever finishes the run. *)
Theorem set_duration_is_unchecked {math : MathLib}
    (self : AnimationManager.t) (duration : Q) (dts : list Q) :
  AnimationManager.is_animating self = true →
  (AnimationManager.progress self < 1)%Q →
  (duration <= 0)%Q →
  Forall (λ dt, (0 <= dt)%Q) dts →
  ((duration == 0)%Q →
   ∀ dt, AnimationManager.update
           (AnimationManager.set_duration self duration) dt
         = Raise ZeroDivisionError)
  ∧ ((duration < 0)%Q →
     ∃ self',
       AnimationManager.updates
         (AnimationManager.set_duration self duration) dts = Ok self'
       ∧ AnimationManager.is_finished self' = false
       ∧ (AnimationManager.progress self'
          <= AnimationManager.progress self)%Q).
Proof.
  intros Hanim Hlt Hdur Hdts. split.
  - intros Hzero dt. unfold AnimationManager.update, Py.truediv. simpl.
    rewrite Hanim. simpl.
    by rewrite (proj2 (Qeq_bool_iff duration 0) Hzero).
  - intros Hneg.
    set (start := AnimationManager.set_duration self duration).
    assert (Hgen : ∀ cur : AnimationManager.t,
              AnimationManager.is_animating cur = true →
              AnimationManager.duration cur = duration →
              (AnimationManager.progress cur < 1)%Q →
              ∃ self',
                AnimationManager.updates cur dts = Ok self'
                ∧ AnimationManager.is_finished self' = false
                ∧ (AnimationManager.progress self'
                   <= AnimationManager.progress cur)%Q).
    { clear start Hanim Hlt.
      induction Hdts as [| dt dts Hdt _ IH]; intros cur Hanim Hd Hlt; simpl.
      - exists cur. unfold AnimationManager.is_finished. rewrite Hanim.
        split_and!; [done | done | lra].
      - unfold AnimationManager.update at 1, Py.truediv.
        rewrite Hanim, Hd. simpl.
        destruct (Qeq_bool duration 0) eqn:Hz.
        { apply Qeq_bool_iff in Hz. lra. }
        assert (Hstep : (dt / duration <= 0)%Q).
        { unfold Qdiv.
          assert (Hinv : (/ duration < 0)%Q).
          { destruct duration as [[| n | n] d]; try done. }
          assert (Hopp : (dt * / duration == - (dt * - / duration))%Q) by ring.
          assert (0 <= dt * - / duration)%Q by (apply Qmult_le_0_compat; lra).
          lra. }
        destruct (Py.geb _ 1) eqn:Hfin.
        { apply geb_ge in Hfin. lra. }
        match goal with |- context [AnimationManager.updates ?mid dts] =>
          destruct (IH mid) as (self' & Hupd & Hnot & Hle)
        end; simpl; [done | done | lra |].
        simpl in Hle. exists self'. split_and!; [done | done | lra]. }
    destruct (Hgen start) as (self' & Hupd & Hnot & Hle);
      [done | done | done |].
    exists self'. split_and!; [done | done | done].
Qed.

Lemma set_duration_is_unchecked_witness :
  (∀ dt, AnimationManager.update (math := example_math)
           (AnimationManager.set_duration example_run 0) dt
         = Raise ZeroDivisionError)
  ∧ ∃ self',
      AnimationManager.updates (math := example_math)
        (AnimationManager.set_duration example_run (-1)) [1%Q; 1%Q] = Ok self'
      ∧ AnimationManager.is_finished self' = false.
Proof.
  split.
  - destruct (set_duration_is_unchecked (math := example_math) example_run 0
                []) as [Hzero _];
      [reflexivity | reflexivity | discriminate | constructor |].
    apply Hzero. reflexivity.
  - destruct (set_duration_is_unchecked (math := example_math) example_run
                (-1) [1%Q; 1%Q]) as [_ Hneg];
      [reflexivity | reflexivity | discriminate
      | repeat constructor; discriminate |].
    destruct Hneg as (self' & Hupd & Hnot & _); [reflexivity |].
    exists self'. split; [exact Hupd | exact Hnot].
Defined.
(** ** Paths of the interpolating updates *)

Lemma ease_out_monotone (p q : Q) :
  (0 <= p)%Q → (p <= q)%Q → (q <= 1)%Q →
  (0 <= Particle.ease_out p)%Q
  ∧ (Particle.ease_out p <= Particle.ease_out q)%Q
  ∧ (Particle.ease_out q <= 1)%Q.
Proof.
  intros Hp Hpq Hq. unfold Particle.ease_out. split_and!; nra.
Qed.

Lemma smooth_step_monotone (p q : Q) :
  (0 <= p)%Q → (p <= q)%Q → (q <= 1)%Q →
  (0 <= Particle.smooth_step p)%Q
  ∧ (Particle.smooth_step p <= Particle.smooth_step q)%Q
  ∧ (Particle.smooth_step q <= 1)%Q.
Proof.
  intros Hp Hpq Hq. unfold Particle.smooth_step. split_and!.
  - assert (0 <= p * p)%Q by nra. nra.
  - assert (Hdiff :
      (q * q * (3 - 2 * q) - p * p * (3 - 2 * p)
       == (q - p) * (3 * (q + p) - 2 * (q * q + q * p + p * p)))%Q) by ring.
    assert (0 <= 3 * (q + p) - 2 * (q * q + q * p + p * p))%Q by nra.
    assert (0 <= (q - p) * (3 * (q + p) - 2 * (q * q + q * p + p * p)))%Q
      by (apply Qmult_le_0_compat; lra).
    lra.
  - assert (0 <= (1 - q) * (1 - q) * (1 + 2 * q))%Q.
    { apply Qmult_le_0_compat; [nra | lra]. }
    nra.
Qed.

(** The gap to the target of a point [a * (1 - e) + b * e]. *)
Lemma lerp_gap (a b e : Q) :
  (0 <= e)%Q → (e <= 1)%Q →
  (Qabs (b - (a * (1 - e) + b * e)) == (1 - e) * Qabs (b - a))%Q.
Proof.
  intros Hlo Hhi.
  assert (Heq : (b - (a * (1 - e) + b * e) == (1 - e) * (b - a))%Q) by ring.
  rewrite Heq, Qabs_Qmult, (Qabs_pos (1 - e)) by lra. reflexivity.
Qed.

(** X11. [update_pixel_morph] keeps the particle on the straight segment
    from its start position to its target: at progress 0 it is at the
    start, and for progress values 0 <= p <= q <= 1 the gap to the target
    in each coordinate is the fraction (1 - p)^2 of the gap at the start,
    so that it does not grow from p to q. *)
Theorem pixel_morph_stays_on_segment (self : Particle.t)
    (p q dt dt' : Q) :
  (0 <= p)%Q → (p <= q)%Q → (q <= 1)%Q →
  let at_0 := Particle.update_pixel_morph self 0 dt in
  let at_p := Particle.update_pixel_morph self p dt in
  let at_q := Particle.update_pixel_morph self q dt' in
  (Particle.current_x at_0 == Particle.start_x self)%Q
  ∧ (Particle.current_y at_0 == Particle.start_y self)%Q
  ∧ (Qabs (Particle.target_x self - Particle.current_x at_p)
     == (1 - p) * (1 - p)
        * Qabs (Particle.target_x self - Particle.start_x self))%Q
  ∧ (Qabs (Particle.target_y self - Particle.current_y at_p)
     == (1 - p) * (1 - p)
        * Qabs (Particle.target_y self - Particle.start_y self))%Q
  ∧ (Qabs (Particle.target_x self - Particle.current_x at_q)
     <= Qabs (Particle.target_x self - Particle.current_x at_p))%Q
  ∧ (Qabs (Particle.target_y self - Particle.current_y at_q)
     <= Qabs (Particle.target_y self - Particle.current_y at_p))%Q.
Proof.
  intros Hp Hpq Hq at_0 at_p at_q. subst at_0 at_p at_q.
  unfold Particle.update_pixel_morph.
  cbn [Particle.current_x Particle.current_y].
  destruct (ease_out_monotone p q Hp Hpq Hq) as (Hlo & Hmono & Hhi).
  assert (Hgap : ∀ a b : Q,
    (Qabs (b - (a * (1 - Particle.ease_out q) + b * Particle.ease_out q))
     <= Qabs (b - (a * (1 - Particle.ease_out p) + b * Particle.ease_out p)))%Q).
  { intros a b. rewrite !lerp_gap by lra.
    apply Qmult_le_compat_r; [lra | apply Qabs_nonneg]. }
  assert (Hsq : ((1 - Particle.ease_out p) == (1 - p) * (1 - p))%Q)
    by (unfold Particle.ease_out; ring).
  split_and!.
  - unfold Particle.ease_out. ring.
  - unfold Particle.ease_out. ring.
  - rewrite lerp_gap by lra. by rewrite Hsq.
  - rewrite lerp_gap by lra. by rewrite Hsq.
  - apply Hgap.
  - apply Hgap.
Qed.

Lemma pixel_morph_stays_on_segment_witness :
  (Qabs (Particle.target_x particle_left_of_frame
         - Particle.current_x
             (Particle.update_pixel_morph particle_left_of_frame 0.75 1))
   <= Qabs (Particle.target_x particle_left_of_frame
            - Particle.current_x
                (Particle.update_pixel_morph particle_left_of_frame 0.5 1)))%Q.
Proof.
  destruct (pixel_morph_stays_on_segment particle_left_of_frame 0.5 0.75 1 1)
    as (_ & _ & _ & _ & Hx & _); [discriminate | discriminate | discriminate |].
  exact Hx.
Defined.

(** X12. [update_wave_transform] moves the column along the segment from
    start to target by smooth step, which rises from 0 to 1 without ever
    falling; the row is the point of that segment plus the wave offset,
    which a sine value in [-1, 1] keeps within 20 * (1 - progress). *)
Theorem wave_stays_near_segment {math : MathLib} (self : Particle.t)
    (p q dt : Q) :
  (0 <= p)%Q → (p <= q)%Q → (q <= 1)%Q →
  (-1 <= math_sin (p * math_pi * 2 + Particle.start_x self * 0.1) <= 1)%Q →
  let at_p := Particle.update_wave_transform self p dt in
  (0 <= Particle.smooth_step p)%Q
  ∧ (Particle.smooth_step p <= Particle.smooth_step q)%Q
  ∧ (Particle.smooth_step q <= 1)%Q
  ∧ (Particle.current_x at_p
     == Particle.start_x self
        + (Particle.target_x self - Particle.start_x self)
          * Particle.smooth_step p)%Q
  ∧ (Qabs (Particle.current_y at_p
           - (Particle.start_y self
              + (Particle.target_y self - Particle.start_y self)
                * Particle.smooth_step p))
     <= 20 * (1 - p))%Q.
Proof.
  intros Hp Hpq Hq Hsin at_p. subst at_p.
  unfold Particle.update_wave_transform, Particle.wave_offset.
  cbn [Particle.current_x Particle.current_y].
  destruct (smooth_step_monotone p q Hp Hpq Hq) as (Hlo & Hmono & Hhi).
  split_and!; [done | done | done | ring |].
  set (s := math_sin _) in *.
  assert (Heq :
    (Particle.start_y self * (1 - Particle.smooth_step p)
     + Particle.target_y self * Particle.smooth_step p + s * 20 * (1 - p)
     - (Particle.start_y self
        + (Particle.target_y self - Particle.start_y self)
          * Particle.smooth_step p)
     == s * (20 * (1 - p)))%Q) by ring.
  rewrite Heq, Qabs_Qmult, (Qabs_pos (20 * (1 - p))) by lra.
  assert (Hs : (Qabs s <= 1)%Q) by (apply Qabs_Qle_condition; lra).
  assert (Hn : (0 <= Qabs s)%Q) by apply Qabs_nonneg.
  nra.
Qed.

Lemma wave_stays_near_segment_witness :
  (Qabs (Particle.current_y
           (Particle.update_wave_transform (math := example_math)
              particle_left_of_frame 0.5 1)
         - (Particle.start_y particle_left_of_frame
            + (Particle.target_y particle_left_of_frame
               - Particle.start_y particle_left_of_frame)
              * Particle.smooth_step 0.5))
   <= 20 * (1 - 0.5))%Q.
Proof.
  destruct (wave_stays_near_segment (math := example_math)
              particle_left_of_frame 0.5 0.75 1)
    as (_ & _ & _ & _ & Hy);
    [discriminate | discriminate | discriminate
    | split; discriminate |].
  exact Hy.
Defined.


(** ** The pull of the sand fall *)

(** X14. Once a particle's fall delay has passed, [update_sand_fall]
    first lets the particle drift with its damped velocity and then pulls
    it toward the target by the fraction strength * dt, the strength
    being at most 4. With a step of at most a quarter of a second (and
    [x ** 1.5] not negative) that fraction lies in [0, 1]: the pull never
    overshoots, the particle ends between where the drift took it and its
    target, in each coordinate. *)
Theorem sand_fall_pull_does_not_overshoot {math : MathLib}
    (self : Particle.t) (progress dt : Q) :
  (Particle.fall_delay self <= progress)%Q →
  (0 <= dt)%Q → (dt <= 0.25)%Q →
  (0 <= pow_1_5 (Particle.adjusted_progress progress
                   (Particle.fall_delay self)))%Q →
  let after := Particle.update_sand_fall self progress dt in
  let drift_x := (Particle.current_x self + Particle.velocity_x after * dt)%Q in
  let drift_y := (Particle.current_y self + Particle.velocity_y after * dt)%Q in
  (Particle.velocity_x after
   == Particle.velocity_x self * Py.max 0.6 (Particle.friction self))%Q
  ∧ (Particle.velocity_y after
     == Particle.velocity_y self + Particle.gravity self * 0.35 * dt)%Q
  ∧ (Qabs (Particle.target_x self - Particle.current_x after)
     <= Qabs (Particle.target_x self - drift_x))%Q
  ∧ (Qabs (Particle.target_y self - Particle.current_y after)
     <= Qabs (Particle.target_y self - drift_y))%Q.
Proof.
  intros Hdelay Hdt Hquarter Hpow after drift_x drift_y.
  subst after drift_x drift_y. unfold Particle.update_sand_fall.
  rewrite (proj2 (ltb_ge progress (Particle.fall_delay self)) Hdelay).
  cbn [Particle.current_x Particle.current_y Particle.velocity_x
       Particle.velocity_y].
  set (strength := Py.min 4 _).
  assert (Hstrength : (0 <= strength <= 4)%Q).
  { subst strength.
    match goal with |- (_ <= Py.min 4 ?v <= _)%Q =>
      destruct (min_cases 4 v) as [[? ->] | [? ->]] end; lra. }
  assert (Hfrac : (0 <= strength * dt <= 1)%Q) by nra.
  assert (Hgap : ∀ a b : Q,
    (Qabs (b - (a * (1 - strength * dt) + b * (strength * dt)))
     <= Qabs (b - a))%Q).
  { intros a b. rewrite lerp_gap by lra.
    assert (0 <= Qabs (b - a))%Q by apply Qabs_nonneg. nra. }
  split_and!; [reflexivity | reflexivity | apply Hgap | apply Hgap].
Qed.

Lemma sand_fall_pull_does_not_overshoot_witness :
  (Qabs (Particle.target_x particle_left_of_frame
         - Particle.current_x
             (Particle.update_sand_fall (math := example_math)
                particle_left_of_frame 0.5 0.25))
   <= Qabs (Particle.target_x particle_left_of_frame
            - (Particle.current_x particle_left_of_frame
               + Particle.velocity_x
                   (Particle.update_sand_fall (math := example_math)
                      particle_left_of_frame 0.5 0.25) * 0.25)))%Q.
Proof.
  destruct (sand_fall_pull_does_not_overshoot (math := example_math)
              particle_left_of_frame 0.5 0.25)
    as (_ & _ & Hx & _);
    [discriminate | discriminate | discriminate | discriminate |].
  exact Hx.
Defined.

(** ** Drawing the particles *)

(** X15. [AnimationManager.draw] puts at most one mark per particle on
    the frame, and every mark comes from a particle whose truncated
    position lies inside the frame: a single pixel is written inside the
    frame, in the color of a particle of size at most 2; a circle is
    centered inside the frame, has the size of its particle (above 2) as
    radius, twice that as side, and an opacity between 40 and 255. *)
Theorem draw_stays_in_frame {math : MathLib} (self : AnimationManager.t)
    (surface_width surface_height : nat) :
  (length (AnimationManager.draw self surface_width surface_height)
   ≤ length (AnimationManager.particles self))%nat
  ∧ ∀ cmd,
      cmd ∈ AnimationManager.draw self surface_width surface_height →
      ∃ particle,
        particle ∈ AnimationManager.particles self
        ∧ match cmd with
          | SetAt (x, y) col =>
              0 ≤ x < Z.of_nat surface_width
              ∧ 0 ≤ y < Z.of_nat surface_height
              ∧ (x, y) = (Py.int (Particle.current_x particle),
                          Py.int (Particle.current_y particle))
              ∧ col = Particle.color particle
              ∧ Particle.size particle ≤ 2
          | BlitCircle dest side center radius col alpha =>
              0 ≤ dest.1 + center.1 < Z.of_nat surface_width
              ∧ 0 ≤ dest.2 + center.2 < Z.of_nat surface_height
              ∧ (dest.1 + center.1, dest.2 + center.2)
                = (Py.int (Particle.current_x particle),
                   Py.int (Particle.current_y particle))
              ∧ radius = Particle.size particle
              ∧ 2 < radius
              ∧ side = 2 * radius
              ∧ col = Particle.color particle
              ∧ 40 ≤ alpha ≤ 255
          end.
Proof.
  unfold AnimationManager.draw. split.
  - generalize (AnimationManager.particles self).
    induction l as [| p l IH]; csimpl; [done |].
    destruct (Particle.draw p _ _); simpl; lia.
  - intros cmd (particle & Hin & Hdraw)%list_elem_of_omap.
    exists particle. split; [done |].
    unfold Particle.draw in Hdraw.
    case_decide as Hinside; [| done].
    case_decide as Hsize; inversion Hdraw; subst.
    + split_and!; (done || lia).
    + pose proof (draw_alpha_range particle). simpl.
      split_and!; try done; try lia; f_equal; lia.
Qed.

(** ** The reveal over a run *)

Lemma reveal_progress_monotone (p q : Q) :
  (0.3 <= p)%Q → (p <= q)%Q → (q <= 1)%Q →
  (0 <= AnimalMakerApp.reveal_progress p)%Q
  ∧ (AnimalMakerApp.reveal_progress p <= AnimalMakerApp.reveal_progress q)%Q
  ∧ (AnimalMakerApp.reveal_progress q <= 1)%Q.
Proof.
  intros Hp Hpq Hq. unfold AnimalMakerApp.reveal_progress.
  set (a := ((p - 0.3) / 0.7)%Q). set (b := ((q - 0.3) / 0.7)%Q).
  assert (Ha : (a == (p - 0.3) * (10 # 7))%Q) by (subst a; field).
  assert (Hb : (b == (q - 0.3) * (10 # 7))%Q) by (subst b; field).
  assert (0 <= a)%Q by lra. assert (a <= b)%Q by lra. assert (b <= 1)%Q by lra.
  split_and!; nra.
Qed.

Lemma int_monotone (x y : Q) :
  (0 <= x)%Q → (x <= y)%Q → Py.int x ≤ Py.int y.
Proof.
  intros Hx Hxy. rewrite !int_of_nonneg by lra. by apply Qfloor_resp_le.
Qed.

(** X16. The reveal of [draw] starts after 30% of the run and only
    grows with progress: nothing is revealed while progress is at most
    0.3; for 0.3 < p <= q <= 1 the reveal progress ((p - 0.3) / 0.7)^2
    lies in (0, 1] and does not fall from p to q, nor do the reveal
    radius (between 2 and 5) and the alpha (between 0 and 255), while
    the distance within which a particle qualifies shrinks from below 50
    to 0; at progress 1 it is 0, so that no particle whose distance is
    not negative qualifies. *)
Theorem reveal_grows_with_progress {math : MathLib} (p q : Q)
    (particles : list Particle.t) (image : Surface)
    (image_rect : AnimalMakerApp.Rect) :
  (0.3 < p)%Q → (p <= q)%Q → (q <= 1)%Q →
  let rp := AnimalMakerApp.reveal_progress p in
  let rq := AnimalMakerApp.reveal_progress q in
  (∀ p0, (p0 <= 0.3)%Q →
         AnimalMakerApp.reveal p0 particles image image_rect = None)
  ∧ is_Some (AnimalMakerApp.reveal p particles image image_rect)
  ∧ ((0 < rp)%Q ∧ (rp <= rq)%Q ∧ (rq <= 1)%Q)
  ∧ (2 ≤ AnimalMakerApp.reveal_radius rp
     ∧ AnimalMakerApp.reveal_radius rp ≤ AnimalMakerApp.reveal_radius rq
     ∧ AnimalMakerApp.reveal_radius rq ≤ 5)
  ∧ (0 ≤ AnimalMakerApp.reveal_alpha rp
     ∧ AnimalMakerApp.reveal_alpha rp ≤ AnimalMakerApp.reveal_alpha rq
     ∧ AnimalMakerApp.reveal_alpha rq ≤ 255)
  ∧ ((0 <= AnimalMakerApp.max_reveal_distance rq)%Q
     ∧ (AnimalMakerApp.max_reveal_distance rq
        <= AnimalMakerApp.max_reveal_distance rp)%Q
     ∧ (AnimalMakerApp.max_reveal_distance rp < 50)%Q)
  ∧ (∀ particle,
       (0 <= AnimalMakerApp.distance_to_target particle)%Q →
       AnimalMakerApp.qualifies particle (AnimalMakerApp.reveal_progress 1)
       = false).
Proof.
  intros Hp Hpq Hq rp rq.
  destruct (reveal_progress_monotone p q) as (Hlo & Hmono & Hhi);
    [lra | done | done |].
  fold rp rq in Hlo, Hmono, Hhi.
  assert (Hpos : (0 < rp)%Q).
  { subst rp. unfold AnimalMakerApp.reveal_progress.
    set (a := ((p - 0.3) / 0.7)%Q).
    assert (Ha : (a == (p - 0.3) * (10 # 7))%Q) by (subst a; field).
    assert (0 < a)%Q by lra. nra. }
  split_and!.
  - intros p0 Hp0. unfold AnimalMakerApp.reveal.
    by rewrite (proj2 (ltb_ge 0.3 p0) Hp0).
  - unfold AnimalMakerApp.reveal.
    by rewrite (proj2 (ltb_lt 0.3 p) Hp).
  - done.
  - done.
  - done.
  - unfold AnimalMakerApp.reveal_radius.
    assert (Py.int 2 ≤ Py.int (2 + 3 * rp)) by (apply int_monotone; lra).
    change (Py.int 2) with 2 in *. lia.
  - unfold AnimalMakerApp.reveal_radius.
    assert (Py.int (2 + 3 * rp) ≤ Py.int (2 + 3 * rq))
      by (apply int_monotone; nra).
    lia.
  - unfold AnimalMakerApp.reveal_radius.
    assert (Py.int (2 + 3 * rq) ≤ Py.int 5) by (apply int_monotone; lra).
    change (Py.int 5) with 5 in *. lia.
  - unfold AnimalMakerApp.reveal_alpha.
    assert (Py.int 0 ≤ Py.int (255 * rp)) by (apply int_monotone; lra).
    change (Py.int 0) with 0 in *. lia.
  - unfold AnimalMakerApp.reveal_alpha.
    assert (Py.int (255 * rp) ≤ Py.int (255 * rq))
      by (apply int_monotone; lra).
    lia.
  - unfold AnimalMakerApp.reveal_alpha. lia.
  - unfold AnimalMakerApp.max_reveal_distance. lra.
  - unfold AnimalMakerApp.max_reveal_distance. lra.
  - unfold AnimalMakerApp.max_reveal_distance. lra.
  - intros particle Hdist. unfold AnimalMakerApp.qualifies.
    apply ltb_ge. 
    assert (Hone : (AnimalMakerApp.reveal_progress 1 == 1)%Q) by reflexivity.
    unfold AnimalMakerApp.max_reveal_distance. rewrite Hone. lra.
Qed.

Lemma reveal_grows_with_progress_witness :
  is_Some (AnimalMakerApp.reveal (math := example_math) 0.65
             [particle_left_of_frame] black_pixel
             {| AnimalMakerApp.rect_x := 0; AnimalMakerApp.rect_y := 0 |})
  ∧ AnimalMakerApp.reveal_radius (AnimalMakerApp.reveal_progress 0.65)
    ≤ AnimalMakerApp.reveal_radius (AnimalMakerApp.reveal_progress 1).
Proof.
  destruct (reveal_grows_with_progress (math := example_math) 0.65 1
              [particle_left_of_frame] black_pixel
              {| AnimalMakerApp.rect_x := 0; AnimalMakerApp.rect_y := 0 |})
    as (_ & Hsome & _ & (_ & Hradius & _) & _);
    [reflexivity | discriminate | discriminate |].
  split; [exact Hsome | exact Hradius].
Defined.
(** ** The drawing canvas *)

Lemma min_of_spec (rest : list Z) :
  ∀ first : Z,
    DrawingCanvas.min_of first rest ∈ first :: rest
    ∧ Forall (λ v, DrawingCanvas.min_of first rest ≤ v) (first :: rest).
Proof.
  unfold DrawingCanvas.min_of.
  induction rest as [| v rest IH]; intros first; simpl.
  - split; [apply list_elem_of_here | by constructor].
  - destruct (IH (Z.min first v)) as [Hin Hle].
    apply Forall_cons in Hle as [Hm Hle]. split.
    + apply elem_of_cons in Hin as [Heq | Hin].
      * rewrite Heq. destruct (Z.min_spec first v) as [[_ ->] | [_ ->]].
        -- apply list_elem_of_here.
        -- apply list_elem_of_further, list_elem_of_here.
      * by do 2 apply list_elem_of_further.
    + repeat constructor; [lia | lia | done].
Qed.

Lemma max_of_spec (rest : list Z) :
  ∀ first : Z,
    DrawingCanvas.max_of first rest ∈ first :: rest
    ∧ Forall (λ v, v ≤ DrawingCanvas.max_of first rest) (first :: rest).
Proof.
  unfold DrawingCanvas.max_of.
  induction rest as [| v rest IH]; intros first; simpl.
  - split; [apply list_elem_of_here | by constructor].
  - destruct (IH (Z.max first v)) as [Hin Hle].
    apply Forall_cons in Hle as [Hm Hle]. split.
    + apply elem_of_cons in Hin as [Heq | Hin].
      * rewrite Heq. destruct (Z.max_spec first v) as [[_ ->] | [_ ->]].
        -- apply list_elem_of_further, list_elem_of_here.
        -- apply list_elem_of_here.
      * by do 2 apply list_elem_of_further.
    + repeat constructor; [lia | lia | done].
Qed.

(** The bounds of a canvas with a point: the extreme coordinates of the
    points, padded by 20 and cut to the canvas. *)
Lemma get_drawing_bounds_spec (self : DrawingCanvas.t) :
  DrawingCanvas.drawing_points self ≠ [] →
  ∃ min_x max_x min_y max_y : Z,
    DrawingCanvas.get_drawing_bounds self
    = Some (Z.max 0 (min_x - 20), Z.max 0 (min_y - 20),
            Z.min (DrawingCanvas.width self) (max_x + 20),
            Z.min (DrawingCanvas.height self) (max_y + 20))
    ∧ (min_x ∈ fst <$> DrawingCanvas.drawing_points self)
    ∧ (max_x ∈ fst <$> DrawingCanvas.drawing_points self)
    ∧ (min_y ∈ snd <$> DrawingCanvas.drawing_points self)
    ∧ (max_y ∈ snd <$> DrawingCanvas.drawing_points self)
    ∧ Forall (λ p : Pos, min_x ≤ p.1 ≤ max_x ∧ min_y ≤ p.2 ≤ max_y)
        (DrawingCanvas.drawing_points self).
Proof.
  intros Hne. unfold DrawingCanvas.get_drawing_bounds.
  destruct (DrawingCanvas.drawing_points self) as [| point points]; [done |].
  destruct (min_of_spec (fst <$> points) point.1) as [Hminx Hminx'].
  destruct (max_of_spec (fst <$> points) point.1) as [Hmaxx Hmaxx'].
  destruct (min_of_spec (snd <$> points) point.2) as [Hminy Hminy'].
  destruct (max_of_spec (snd <$> points) point.2) as [Hmaxy Hmaxy'].
  do 4 eexists. split; [reflexivity |].
  rewrite !fmap_cons. split_and!; try done.
  change (point.1 :: (fst <$> points)) with (fst <$> point :: points)
    in Hminx', Hmaxx'.
  change (point.2 :: (snd <$> points)) with (snd <$> point :: points)
    in Hminy', Hmaxy'.
  rewrite Forall_fmap in Hminx', Hmaxx', Hminy', Hmaxy'.
  rewrite Forall_forall in Hminx', Hmaxx', Hminy', Hmaxy'.
  apply Forall_forall. intros p Hp.
  specialize (Hminx' p Hp). specialize (Hmaxx' p Hp).
  specialize (Hminy' p Hp). specialize (Hmaxy' p Hp). simpl in *. lia.
Qed.

(** X17. For a canvas of positive size whose points all lie on it,
    [get_drawing_bounds] returns a box inside the canvas that holds
    every point with 20 pixels to spare on each side, unless the edge of
    the canvas is nearer; each side of the box is that distance from
    some point or an edge of the canvas; and [get_drawing_surface]
    returns that box as an area of positive width and height. *)
Theorem drawing_bounds_hold_the_points (self : DrawingCanvas.t) :
  0 < DrawingCanvas.width self →
  0 < DrawingCanvas.height self →
  DrawingCanvas.drawing_points self ≠ [] →
  Forall (λ p : Pos, 0 ≤ p.1 ≤ DrawingCanvas.width self
                     ∧ 0 ≤ p.2 ≤ DrawingCanvas.height self)
    (DrawingCanvas.drawing_points self) →
  ∃ x0 y0 x1 y1 : Z,
    DrawingCanvas.get_drawing_bounds self = Some (x0, y0, x1, y1)
    ∧ DrawingCanvas.get_drawing_surface self
      = Some (x0, y0, x1 - x0, y1 - y0)
    ∧ (0 ≤ x0 ∧ x0 < x1 ∧ x1 ≤ DrawingCanvas.width self)
    ∧ (0 ≤ y0 ∧ y0 < y1 ∧ y1 ≤ DrawingCanvas.height self)
    ∧ Forall (λ p : Pos,
                x0 ≤ Z.max 0 (p.1 - 20)
                ∧ Z.min (DrawingCanvas.width self) (p.1 + 20) ≤ x1
                ∧ y0 ≤ Z.max 0 (p.2 - 20)
                ∧ Z.min (DrawingCanvas.height self) (p.2 + 20) ≤ y1)
        (DrawingCanvas.drawing_points self)
    ∧ Exists (λ p : Pos, x0 = Z.max 0 (p.1 - 20))
        (DrawingCanvas.drawing_points self)
    ∧ Exists (λ p : Pos, x1 = Z.min (DrawingCanvas.width self) (p.1 + 20))
        (DrawingCanvas.drawing_points self)
    ∧ Exists (λ p : Pos, y0 = Z.max 0 (p.2 - 20))
        (DrawingCanvas.drawing_points self)
    ∧ Exists (λ p : Pos, y1 = Z.min (DrawingCanvas.height self) (p.2 + 20))
        (DrawingCanvas.drawing_points self).
Proof.
  intros Hw Hh Hne Hin.
  destruct (get_drawing_bounds_spec self Hne)
    as (min_x & max_x & min_y & max_y & Hbounds & Hminx & Hmaxx & Hminy
        & Hmaxy & Hall).
  apply list_elem_of_fmap in Hminx as (pa & -> & Hpa).
  apply list_elem_of_fmap in Hmaxx as (pb & -> & Hpb).
  apply list_elem_of_fmap in Hminy as (pc & -> & Hpc).
  apply list_elem_of_fmap in Hmaxy as (pd & -> & Hpd).
  rewrite Forall_forall in Hin, Hall.
  pose proof (Hin pa Hpa). pose proof (Hin pb Hpb).
  pose proof (Hin pc Hpc). pose proof (Hin pd Hpd).
  pose proof (Hall pa Hpa). pose proof (Hall pb Hpb).
  pose proof (Hall pc Hpc). pose proof (Hall pd Hpd).
  do 4 eexists. split; [exact Hbounds |].
  split_and!; try lia.
  - unfold DrawingCanvas.get_drawing_surface. rewrite Hbounds.
    rewrite decide_False by lia. done.
  - apply Forall_forall. intros p Hp.
    pose proof (Hin p Hp). pose proof (Hall p Hp). lia.
  - apply Exists_exists. by exists pa.
  - apply Exists_exists. by exists pb.
  - apply Exists_exists. by exists pc.
  - apply Exists_exists. by exists pd.
Qed.

Lemma drawing_bounds_hold_the_points_witness :
  DrawingCanvas.get_drawing_bounds example_canvas = Some (80, 80, 170, 140)
  ∧ DrawingCanvas.get_drawing_surface example_canvas = Some (80, 80, 90, 60).
Proof.
  destruct (drawing_bounds_hold_the_points example_canvas)
    as (x0 & y0 & x1 & y1 & Hbounds & Hsurface & _).
  - reflexivity.
  - reflexivity.
  - discriminate.
  - repeat constructor; discriminate.
  - assert (Heq : Some (x0, y0, x1, y1) = Some (80, 80, 170, 140))
      by (rewrite <- Hbounds; reflexivity).
    inversion Heq; subst. split; [reflexivity | exact Hsurface].
Defined.

(** X18. On a canvas of positive size [get_drawing_surface] returns
    nothing exactly when there is no point, or when every point lies 20
    pixels or more outside the canvas on one and the same side. *)
Theorem drawing_surface_is_none_iff (self : DrawingCanvas.t) :
  0 < DrawingCanvas.width self →
  0 < DrawingCanvas.height self →
  DrawingCanvas.get_drawing_surface self = None
  ↔ DrawingCanvas.drawing_points self = []
    ∨ Forall (λ p : Pos, p.1 ≤ -20) (DrawingCanvas.drawing_points self)
    ∨ Forall (λ p : Pos, DrawingCanvas.width self + 20 ≤ p.1)
        (DrawingCanvas.drawing_points self)
    ∨ Forall (λ p : Pos, p.2 ≤ -20) (DrawingCanvas.drawing_points self)
    ∨ Forall (λ p : Pos, DrawingCanvas.height self + 20 ≤ p.2)
        (DrawingCanvas.drawing_points self).
Proof.
  intros Hw Hh.
  destruct (decide (DrawingCanvas.drawing_points self = [])) as [Hnil | Hne].
  { split; [by left |]. intros _.
    unfold DrawingCanvas.get_drawing_surface, DrawingCanvas.get_drawing_bounds.
    by rewrite Hnil. }
  destruct (get_drawing_bounds_spec self Hne)
    as (min_x & max_x & min_y & max_y & Hbounds & Hminx & Hmaxx & Hminy
        & Hmaxy & Hall).
  apply list_elem_of_fmap in Hminx as (pa & -> & Hpa).
  apply list_elem_of_fmap in Hmaxx as (pb & -> & Hpb).
  apply list_elem_of_fmap in Hminy as (pc & -> & Hpc).
  apply list_elem_of_fmap in Hmaxy as (pd & -> & Hpd).
  unfold DrawingCanvas.get_drawing_surface. rewrite Hbounds.
  rewrite Forall_forall in Hall.
  pose proof (Hall pa Hpa). pose proof (Hall pb Hpb).
  pose proof (Hall pc Hpc). pose proof (Hall pd Hpd).
  split.
  - case_decide as Hempty; [| done]. intros _. right.
    assert (Hcases : pb.1 ≤ -20 ∨ DrawingCanvas.width self + 20 ≤ pa.1
                     ∨ pd.2 ≤ -20 ∨ DrawingCanvas.height self + 20 ≤ pc.2)
      by lia.
    destruct Hcases as [Hc | [Hc | [Hc | Hc]]];
      [left | right; left | right; right; left | right; right; right];
      apply Forall_forall; intros p Hp; pose proof (Hall p Hp); lia.
  - intros [Hnil | Hside]; [done |].
    rewrite !Forall_forall in Hside.
    rewrite decide_True; [done |].
    destruct Hside as [Hs | [Hs | [Hs | Hs]]].
    + pose proof (Hs pb Hpb). lia.
    + pose proof (Hs pa Hpa). lia.
    + pose proof (Hs pd Hpd). lia.
    + pose proof (Hs pc Hpc). lia.
Qed.

Lemma drawing_surface_is_none_iff_witness :
  DrawingCanvas.get_drawing_surface example_canvas_outside = None
  ∧ DrawingCanvas.get_drawing_surface example_canvas ≠ None.
Proof.
  destruct (drawing_surface_is_none_iff example_canvas_outside)
    as [_ Hnone]; [reflexivity | reflexivity |].
  split.
  - apply Hnone. right. right. left. repeat constructor. discriminate.
  - discriminate.
Defined.

(** ** Strokes *)

(** What every sequence of calls keeps of a canvas. *)
Lemma canvas_invariant (width height : Z) (calls : list DrawingCanvas.call) :
  let self := DrawingCanvas.apply_calls (DrawingCanvas.init width height)
                calls in
  (DrawingCanvas.is_drawing self = true
   ↔ is_Some (DrawingCanvas.last_pos self))
  ∧ Forall (λ stroke, stroke ≠ []
                      ∧ stroke ⊆ DrawingCanvas.drawing_points self)
      (DrawingCanvas.stroke_groups self)
  ∧ DrawingCanvas.current_stroke self ⊆ DrawingCanvas.drawing_points self
  ∧ Forall (λ line : Pos * Pos, line.2 ∈ DrawingCanvas.drawing_points self)
      (DrawingCanvas.canvas self)
  ∧ (DrawingCanvas.ClearCanvas ∉ calls →
     Forall (λ line : Pos * Pos,
               line.1 ∈ DrawingCanvas.drawing_points self)
       (DrawingCanvas.canvas self)
     ∧ ∀ p, DrawingCanvas.last_pos self = Some p →
            p ∈ DrawingCanvas.drawing_points self)
  ∧ DrawingCanvas.width self = width
  ∧ DrawingCanvas.height self = height.
Proof.
  unfold DrawingCanvas.apply_calls.
  induction calls as [| c calls IH] using rev_ind; simpl.
  { split_and!; try done; try constructor. }
  rewrite foldl_app. simpl.
  set (self := foldl DrawingCanvas.apply_call
                 (DrawingCanvas.init width height) calls) in *.
  simpl in IH.
  destruct IH as (Hpos & Hgroups & Hcur & Hlines & Hclear & Hw & Hh).
  assert (Hgrow : ∀ pos, Forall (λ stroke : list Pos,
              stroke ≠ []
              ∧ stroke ⊆ DrawingCanvas.drawing_points self ++ [pos])
            (DrawingCanvas.stroke_groups self)).
  { intros pos. eapply Forall_impl; [exact Hgroups |].
    intros stroke [? Hsub]. split; [done |].
    intros p Hp. apply elem_of_app. left. by apply Hsub. }
  assert (Hlines' : ∀ pos, Forall (λ line : Pos * Pos,
              line.2 ∈ DrawingCanvas.drawing_points self ++ [pos])
            (DrawingCanvas.canvas self)).
  { intros pos. eapply Forall_impl; [exact Hlines |].
    intros line Hl. apply elem_of_app. by left. }
  assert (Hnoclear : DrawingCanvas.ClearCanvas ∉ calls ++ [c] →
            (DrawingCanvas.ClearCanvas ∉ calls) ∧ c ≠ DrawingCanvas.ClearCanvas).
  { intros Hnot. split.
    - intros Hin. apply Hnot, elem_of_app. by left.
    - intros ->. apply Hnot, elem_of_app. right. apply list_elem_of_here. }
  destruct c as [pos ticks | pos ticks | |]; simpl.
  - split_and!; try done.
    + intros p ->%list_elem_of_singleton. apply elem_of_app. right.
      apply list_elem_of_here.
    + intros [Hc _]%Hnoclear. destruct (Hclear Hc) as [Hfirst _]. split.
      * eapply Forall_impl; [exact Hfirst |].
        intros line Hl. apply elem_of_app. by left.
      * intros p [= <-]. apply elem_of_app. right. apply list_elem_of_here.
  - unfold DrawingCanvas.continue_drawing.
    destruct (DrawingCanvas.is_drawing self) eqn:Hdrawing;
      [| split_and!; try done; try (by rewrite Hdrawing);
         intros [Hc _]%Hnoclear; by apply Hclear].
    destruct (DrawingCanvas.last_pos self) as [last |] eqn:Hlast;
      [| exfalso; destruct Hpos as [Hsome _]; by destruct (Hsome eq_refl)].
    simpl. split_and!; try done.
    + intros p [Hp | ->%list_elem_of_singleton]%elem_of_app;
        apply elem_of_app; [left; by apply Hcur | right; apply list_elem_of_here].
    + apply Forall_app. split; [done |]. constructor; [| constructor].
      simpl. apply elem_of_app. right. apply list_elem_of_here.
    + intros [Hc _]%Hnoclear. destruct (Hclear Hc) as [Hfirst Hlastin]. split.
      * apply Forall_app. split.
        -- eapply Forall_impl; [exact Hfirst |].
           intros line Hl. apply elem_of_app. by left.
        -- constructor; [| constructor]. simpl.
           apply elem_of_app. left. by apply Hlastin.
      * intros p [= <-]. apply elem_of_app. right. apply list_elem_of_here.
  - split_and!; try done.
    + destruct (DrawingCanvas.is_drawing self && _) eqn:Hkeep; [| done].
      apply andb_true_iff in Hkeep as [_ Hstroke%bool_decide_eq_true].
      apply Forall_app. split; [done |]. by repeat constructor.
    + destruct (DrawingCanvas.is_drawing self && _); [| done].
      intros p Hp. by apply elem_of_nil in Hp.
    + intros [Hc _]%Hnoclear. destruct (Hclear Hc) as [Hfirst _].
      split; [done | done].
  - split_and!; try done;
      try (intros [_ Hc]%Hnoclear; done);
      try (intros p Hp; by apply elem_of_nil in Hp);
      constructor.
Qed.

(** X19. Whatever calls a canvas has received since it was created: it
    is drawing exactly when it holds a last position; every recorded
    stroke is non-empty and made of recorded points, as is the current
    stroke; every line on the canvas ends at a recorded point; and as
    long as the canvas was never cleared every line also starts at one,
    so that all ink runs between recorded points.  [clear_canvas] keeps
    [is_drawing] and [last_pos]: after a clear in the middle of a
    stroke the next line starts at the last position from before the
    clear, while the new position is the only recorded point. *)
Theorem strokes_are_recorded (width height : Z)
    (calls : list DrawingCanvas.call) :
  let self := DrawingCanvas.apply_calls (DrawingCanvas.init width height)
                calls in
  (DrawingCanvas.is_drawing self = true
   ↔ is_Some (DrawingCanvas.last_pos self))
  ∧ Forall (λ stroke, stroke ≠ []
                      ∧ stroke ⊆ DrawingCanvas.drawing_points self)
      (DrawingCanvas.stroke_groups self)
  ∧ DrawingCanvas.current_stroke self ⊆ DrawingCanvas.drawing_points self
  ∧ Forall (λ line : Pos * Pos, line.2 ∈ DrawingCanvas.drawing_points self)
      (DrawingCanvas.canvas self)
  ∧ (DrawingCanvas.ClearCanvas ∉ calls →
     Forall (λ line : Pos * Pos,
               line.1 ∈ DrawingCanvas.drawing_points self)
       (DrawingCanvas.canvas self))
  ∧ (∀ (p q : Pos) (ticks : Z),
       DrawingCanvas.last_pos self = Some p →
       let after :=
         DrawingCanvas.continue_drawing (DrawingCanvas.clear_canvas self)
           q ticks in
       DrawingCanvas.canvas after = [(p, q)]
       ∧ DrawingCanvas.drawing_points after = [q]).
Proof.
  intros self.
  destruct (canvas_invariant width height calls)
    as (Hpos & Hgroups & Hcur & Hlines & Hclear & _ & _).
  fold self in Hpos, Hgroups, Hcur, Hlines, Hclear.
  split_and!; try done.
  - intros Hc. by destruct (Hclear Hc).
  - intros p q ticks Hlast after. subst after.
    unfold DrawingCanvas.continue_drawing. simpl. rewrite Hlast.
    destruct Hpos as [_ Hpos]. rewrite Hpos by by eexists. done.
Qed.

(** ** Events *)

(** One event: the animator is never touched, [running] is never set,
    the state is kept or reset to DRAWING, and outside DRAWING the
    canvas and the animal are kept with the state. *)
Lemma handle_event_cases (self : AnimalMaker.t) (event : AnimalMaker.Event)
    (ticks : Z) :
  let self' := AnimalMaker.handle_event self event ticks in
  AnimalMaker.animator self' = AnimalMaker.animator self
  ∧ (AnimalMaker.running self = false → AnimalMaker.running self' = false)
  ∧ (AnimalMaker.state self = AnimalMaker.DRAWING →
     AnimalMaker.state self' = AnimalMaker.DRAWING)
  ∧ (AnimalMaker.state self' ≠ AnimalMaker.DRAWING →
     AnimalMaker.state self' = AnimalMaker.state self
     ∧ AnimalMaker.canvas self' = AnimalMaker.canvas self
     ∧ AnimalMaker.current_animal self' = AnimalMaker.current_animal self
     ∧ AnimalMaker.current_animal_image self'
       = AnimalMaker.current_animal_image self
     ∧ AnimalMaker.animal_image_rect self'
       = AnimalMaker.animal_image_rect self)
  ∧ (AnimalMaker.state self' = AnimalMaker.DRAWING →
     AnimalMaker.state self ≠ AnimalMaker.DRAWING →
     (∃ pos, event = AnimalMaker.MOUSEBUTTONDOWN 3 pos
             ∧ AnimalMaker.state self ≠ AnimalMaker.PROCESSING)
     ∨ (event = AnimalMaker.KEYDOWN AnimalMaker.K_SPACE
        ∧ AnimalMaker.state self = AnimalMaker.DISPLAYING))
  ∧ ((∃ pos, event = AnimalMaker.MOUSEBUTTONDOWN 3 pos)
     ∧ AnimalMaker.state self ≠ AnimalMaker.PROCESSING
     ∨ event = AnimalMaker.KEYDOWN AnimalMaker.K_SPACE
       ∧ AnimalMaker.state self = AnimalMaker.DISPLAYING →
     AnimalMaker.state self' = AnimalMaker.DRAWING)
  ∧ AnimalMaker.current_animation_index self'
    = (if decide (event = AnimalMaker.KEYDOWN AnimalMaker.K_TAB)
       then (AnimalMaker.current_animation_index self + 1) `mod` 4
       else AnimalMaker.current_animation_index self)%nat.
Proof.
  destruct event as [| key | button pos | button | pos pressed |]; simpl.
  - split_and!; try done. intros [[[pos ?] _] | [? _]]; done.
  - destruct key, (AnimalMaker.state self) eqn:Hstate; simpl;
      rewrite ?Hstate; split_and!; try done;
      try (intros [[[pos ?] _] | [? ?]]; done);
      try (intros _ _; right; done).
  - repeat case_decide; subst; destruct (AnimalMaker.state self) eqn:Hstate;
      simpl; rewrite ?Hstate; split_and!; try done;
      try (intros [[[pos' ?] ?] | [? ?]]; simplify_eq; done);
      try (intros _ _; left; by eexists).
  - destruct (AnimalMaker.state self) eqn:Hstate; repeat case_decide; simpl;
      rewrite ?Hstate; split_and!; try done;
      try (intros [[[pos' ?] ?] | [? ?]]; simplify_eq; done).
  - destruct (AnimalMaker.state self) eqn:Hstate, pressed; simpl;
      rewrite ?Hstate; split_and!; try done;
      try (intros [[[pos' ?] ?] | [? ?]]; simplify_eq; done).
  - split_and!; try done. intros [[[pos ?] _] | [? _]]; done.
Qed.

(** X20. The TAB key steps through the four animation types in the
    order of the enumeration and wraps around: after any events the
    index is the old one plus the number of TAB presses, modulo 4; an
    index below 4 stays below 4, so that the lookup of the animation
    type never fails, and four presses bring back the type selected
    before. No other event changes the selection. *)
Theorem tab_cycles_animation_types (self : AnimalMaker.t)
    (events : list (AnimalMaker.Event * Z)) :
  (AnimalMaker.current_animation_index self < 4)%nat →
  let self' := AnimalMaker.handle_events self events in
  let tabs :=
    length (filter
              (λ et : AnimalMaker.Event * Z,
                 et.1 = AnimalMaker.KEYDOWN AnimalMaker.K_TAB) events) in
  AnimalMaker.current_animation_index self'
  = ((AnimalMaker.current_animation_index self + tabs) `mod` 4)%nat
  ∧ (AnimalMaker.current_animation_index self' < 4)%nat
  ∧ is_Some (AnimalMaker.animation_types
               !! AnimalMaker.current_animation_index self')
  ∧ (tabs `mod` 4 = 0 →
     AnimalMaker.current_animation_index self'
     = AnimalMaker.current_animation_index self)%nat.
Proof.
  intros Hidx self' tabs.
  assert (Hgen : ∀ (events : list (AnimalMaker.Event * Z)) (self : AnimalMaker.t),
    (AnimalMaker.current_animation_index self < 4)%nat →
    AnimalMaker.current_animation_index
      (AnimalMaker.handle_events self events)
    = ((AnimalMaker.current_animation_index self
        + length (filter
                    (λ et : AnimalMaker.Event * Z,
                       et.1 = AnimalMaker.KEYDOWN AnimalMaker.K_TAB) events))
       `mod` 4)%nat).
  { clear. induction events as [| [event ticks] events IH]; intros self Hidx.
    { change (AnimalMaker.current_animation_index self
              = ((AnimalMaker.current_animation_index self + 0) `mod` 4)%nat).
      rewrite Nat.add_0_r. symmetry. by apply Nat.mod_small. }
    change (AnimalMaker.handle_events self ((event, ticks) :: events))
      with (AnimalMaker.handle_events
              (AnimalMaker.handle_event self event ticks) events).
    destruct (handle_event_cases self event ticks)
      as (_ & _ & _ & _ & _ & _ & Hstep).
    rewrite filter_cons. cbn [fst]. case_decide as Htab.
    - rewrite IH; rewrite Hstep; [| apply Nat.mod_upper_bound; lia].
      rewrite Nat.Div0.add_mod_idemp_l. f_equal. cbn [length]. lia.
    - rewrite IH; rewrite Hstep; done. }
  subst self'. rewrite (Hgen events self Hidx). fold tabs.
  assert (Hlt : ((AnimalMaker.current_animation_index self + tabs) `mod` 4
                 < 4)%nat) by (apply Nat.mod_upper_bound; lia).
  split_and!; [done | done | |].
  - apply lookup_lt_is_Some. simpl. lia.
  - intros Hfour.
    rewrite <- Nat.Div0.add_mod_idemp_r, Hfour, Nat.add_0_r.
    by apply Nat.mod_small.
Qed.

Lemma tab_cycles_animation_types_witness :
  AnimalMaker.animation_types
    !! AnimalMaker.current_animation_index
         (AnimalMaker.handle_events (AnimalMaker.init 1200 800)
            [(AnimalMaker.KEYDOWN AnimalMaker.K_TAB, 0)])
  = Some SAND_FALL
  ∧ AnimalMaker.current_animation_index
      (AnimalMaker.handle_events (AnimalMaker.init 1200 800)
         [(AnimalMaker.KEYDOWN AnimalMaker.K_TAB, 0);
          (AnimalMaker.KEYDOWN AnimalMaker.K_TAB, 0);
          (AnimalMaker.MOUSEBUTTONDOWN 1 (5, 5), 0);
          (AnimalMaker.KEYDOWN AnimalMaker.K_TAB, 0);
          (AnimalMaker.KEYDOWN AnimalMaker.K_TAB, 0)])
    = 3%nat.
Proof.
  split; [reflexivity |].
  destruct (tab_cycles_animation_types (AnimalMaker.init 1200 800)
              [(AnimalMaker.KEYDOWN AnimalMaker.K_TAB, 0);
               (AnimalMaker.KEYDOWN AnimalMaker.K_TAB, 0);
               (AnimalMaker.MOUSEBUTTONDOWN 1 (5, 5), 0);
               (AnimalMaker.KEYDOWN AnimalMaker.K_TAB, 0);
               (AnimalMaker.KEYDOWN AnimalMaker.K_TAB, 0)])
    as (_ & _ & _ & Hfour); [simpl; lia |].
  apply Hfour. reflexivity.
Defined.

(** Events never bring the application from DRAWING to another state. *)
Lemma handle_events_drawing (events : list (AnimalMaker.Event * Z)) :
  ∀ self : AnimalMaker.t,
    AnimalMaker.state self = AnimalMaker.DRAWING →
    AnimalMaker.state (AnimalMaker.handle_events self events)
    = AnimalMaker.DRAWING.
Proof.
  unfold AnimalMaker.handle_events.
  induction events as [| [event ticks] events IH]; intros self Hstate;
    cbn [foldl]; [done |].
  apply IH.
  destruct (handle_event_cases self event ticks) as (_ & _ & Hdraw & _).
  by apply Hdraw.
Qed.

(** Events keep the state or reset it to DRAWING. *)
Lemma events_only_reset_state (self : AnimalMaker.t)
    (events : list (AnimalMaker.Event * Z)) :
  AnimalMaker.state (AnimalMaker.handle_events self events)
  = AnimalMaker.state self
  ∨ AnimalMaker.state (AnimalMaker.handle_events self events)
    = AnimalMaker.DRAWING.
Proof.
  unfold AnimalMaker.handle_events.
  revert self. induction events as [| [event ticks] events IH]; intros self;
    cbn [foldl]; [by left |].
  destruct (handle_event_cases self event ticks)
    as (_ & _ & Hdraw & Hkeep & _).
  destruct (IH (AnimalMaker.handle_event self event ticks)) as [Hsame | Hd];
    [| by right].
  rewrite Hsame.
  destruct (decide (AnimalMaker.state
                      (AnimalMaker.handle_event self event ticks)
                    = AnimalMaker.DRAWING)) as [Hd | Hnd]; [by right |].
  left. by destruct (Hkeep Hnd).
Qed.

(** X21. Input can only reset the application. Whatever events arrive:
    the animator is not touched (a reset during the animation leaves it
    as it is), [running] is never set again once cleared, and the state
    is kept or becomes DRAWING, never another. As long as the state has
    not become DRAWING the canvas, the animal, its image and its rectangle are
    unchanged. In PROCESSING no event changes the state; ANIMATING is
    left exactly by a press of the right mouse button (SPACE does
    nothing there); DISPLAYING is left exactly by a press of the right
    mouse button or of SPACE. *)
Theorem events_only_reset (self : AnimalMaker.t)
    (events : list (AnimalMaker.Event * Z)) :
  let self' := AnimalMaker.handle_events self events in
  let right_click (et : AnimalMaker.Event * Z) : Prop :=
    ∃ pos, et.1 = AnimalMaker.MOUSEBUTTONDOWN 3 pos in
  let space (et : AnimalMaker.Event * Z) : Prop :=
    et.1 = AnimalMaker.KEYDOWN AnimalMaker.K_SPACE in
  AnimalMaker.animator self' = AnimalMaker.animator self
  ∧ (AnimalMaker.running self = false → AnimalMaker.running self' = false)
  ∧ (AnimalMaker.state self' = AnimalMaker.state self
     ∨ AnimalMaker.state self' = AnimalMaker.DRAWING)
  ∧ (AnimalMaker.state self' ≠ AnimalMaker.DRAWING →
     AnimalMaker.canvas self' = AnimalMaker.canvas self
     ∧ AnimalMaker.current_animal self' = AnimalMaker.current_animal self
     ∧ AnimalMaker.current_animal_image self'
       = AnimalMaker.current_animal_image self
     ∧ AnimalMaker.animal_image_rect self'
       = AnimalMaker.animal_image_rect self)
  ∧ (AnimalMaker.state self = AnimalMaker.PROCESSING →
     AnimalMaker.state self' = AnimalMaker.PROCESSING)
  ∧ (AnimalMaker.state self = AnimalMaker.ANIMATING →
     AnimalMaker.state self' = AnimalMaker.DRAWING
     ↔ Exists right_click events)
  ∧ (AnimalMaker.state self = AnimalMaker.DISPLAYING →
     AnimalMaker.state self' = AnimalMaker.DRAWING
     ↔ Exists (λ et, right_click et ∨ space et) events).
Proof.
  intros self' right_click space. subst self'.
  unfold AnimalMaker.handle_events.
  revert self. induction events as [| [event ticks] events IH]; intros self.
  { cbn [foldl]. split_and!; try done; try (by left).
    - intros Hs. rewrite Hs. split; [done | by intros ?%Exists_nil].
    - intros Hs. rewrite Hs. split; [done | by intros ?%Exists_nil]. }
  cbn [foldl].
  destruct (handle_event_cases self event ticks)
    as (Hanim & Hrun & Hdraw & Hkeep & Hwhy & Hreset & _).
  set (mid := AnimalMaker.handle_event self event ticks) in *.
  destruct (IH mid) as (Hanim' & Hrun' & Hstate' & Hkeep' & Hproc' & Hani'
                        & Hdisp').
  set (final := foldl _ mid events) in *.
  assert (Hmid : AnimalMaker.state mid = AnimalMaker.DRAWING →
                 AnimalMaker.state final = AnimalMaker.DRAWING).
  { intros Hm. subst final. by apply (handle_events_drawing events mid). }
  assert (Hcases : AnimalMaker.state mid = AnimalMaker.DRAWING
                   ∨ AnimalMaker.state mid ≠ AnimalMaker.DRAWING)
    by (destruct (AnimalMaker.state mid); (by left) || (by right)).
  split_and!.
  - congruence.
  - auto.
  - destruct Hcases as [Hm | Hm]; [right; auto |].
    destruct (Hkeep Hm) as (Hs & _). rewrite <- Hs. exact Hstate'.
  - intros Hfinal.
    assert (Hm : AnimalMaker.state mid ≠ AnimalMaker.DRAWING)
      by (intros Hm; by apply Hfinal, Hmid).
    destruct (Hkeep Hm) as (_ & ? & ? & ? & ?).
    destruct (Hkeep' Hfinal) as (? & ? & ? & ?).
    split_and!; congruence.
  - intros Hs.
    assert (Hm : AnimalMaker.state mid = AnimalMaker.PROCESSING).
    { destruct Hcases as [Hm | Hm]; [| destruct (Hkeep Hm); congruence].
      destruct (Hwhy Hm) as [(pos & _ & Hne) | [_ Hd]]; congruence. }
    auto.
  - intros Hs. rewrite Exists_cons. split.
    + intros Hfinal. destruct Hcases as [Hm | Hm].
      * left. destruct (Hwhy Hm) as [(pos & -> & _) | [_ Hd]];
          [congruence | by eexists | congruence].
      * right. apply Hani'; [| done]. destruct (Hkeep Hm). congruence.
    + intros [[pos Hev] | Hrest].
      * apply Hmid, Hreset. left. simpl in Hev.
        split; [by eexists | congruence].
      * destruct Hcases as [Hm | Hm]; [auto |].
        apply Hani'; [| done]. destruct (Hkeep Hm). congruence.
  - intros Hs. rewrite Exists_cons. split.
    + intros Hfinal. destruct Hcases as [Hm | Hm].
      * left. destruct (Hwhy Hm) as [(pos & -> & _) | [-> _]];
          [congruence | left; by eexists | by right].
      * right. apply Hdisp'; [| done]. destruct (Hkeep Hm). congruence.
    + intros [[[pos Hev] | Hev] | Hrest].
      * apply Hmid, Hreset. left. simpl in Hev.
        split; [by eexists | congruence].
      * apply Hmid, Hreset. right. done.
      * destruct Hcases as [Hm | Hm]; [auto |].
        apply Hdisp'; [| done]. destruct (Hkeep Hm). congruence.
Qed.

(** ** Frames *)

Section FrameFacts.
Context {math : MathLib} {rnd : RandomSource}
  {services : AnimalMaker.Services}.

(** What [AnimalMaker.start_animation] returns is DRAWING or ANIMATING. *)
Lemma start_animation_state (fuel : nat) (self self' : AnimalMaker.t)
    (k k' : nat) :
  AnimalMaker.start_animation fuel self k = Ok (self', k') →
  AnimalMaker.state self' = AnimalMaker.DRAWING
  ∨ AnimalMaker.state self' = AnimalMaker.ANIMATING.
Proof.
  unfold AnimalMaker.start_animation.
  destruct (AnimalMaker.current_animal_image self) as [image |];
    [| intros [= <- <-]; by left].
  destruct (AnimalMaker.animal_image_rect self) as [rect |];
    [| intros [= <- <-]; by left].
  destruct (AnimalMaker.rect_bool rect); [| intros [= <- <-]; by left].
  destruct (DrawingCanvas.get_drawing_surface _) as [area |];
    [| intros [= <- <-]; by left].
  destruct (DrawingCanvas.get_drawing_bounds _) as [bounds |];
    [| intros [= <- <-]; by left].
  unfold mbind, M_bind, lift.
  destruct (AnimalMaker.fit_to_bounds _ _ _) as [fit | |]; [| done | done].
  destruct (match fit with Some _ => _ | None => _ end) as [anim_img offset].
  destruct (AnimalMaker.animation_types !! _) as [ty |]; [| done].
  simpl.
  destruct (AnimationManager.start_animation _ _ _ _ _ _ _ _)
    as [[animator k1] | |]; [| done | done].
  intros [= <- <-]. by right.
Qed.

Lemma start_processing_state (fuel : nat) (self self' : AnimalMaker.t)
    (k k' : nat) :
  AnimalMaker.start_processing fuel self k = Ok (self', k') →
  AnimalMaker.state self' = AnimalMaker.DRAWING
  ∨ AnimalMaker.state self' = AnimalMaker.ANIMATING.
Proof.
  unfold AnimalMaker.start_processing.
  destruct (DrawingCanvas.get_drawing_surface _) as [area |];
    [| intros [= <- <-]; by left].
  destruct (AnimalMaker.recognize_animal_name _) as [[| c name] |];
    [intros [= <- <-]; by left | | intros [= <- <-]; by left].
  destruct (DrawingCanvas.get_drawing_bounds _) as [[[[x0 y0] x1] y1] |];
    [| intros [= <- <-]; by left].
  apply start_animation_state.
Qed.

(** One [update] from a state other than PROCESSING ends in a state
    other than PROCESSING. *)
Lemma update_state (fuel : nat) (self self' : AnimalMaker.t) (dt : Q)
    (ticks : Z) (k k' : nat) :
  AnimalMaker.state self ≠ AnimalMaker.PROCESSING →
  AnimalMaker.update fuel self dt ticks k = Ok (self', k') →
  AnimalMaker.state self' ≠ AnimalMaker.PROCESSING.
Proof.
  intros Hstate. unfold AnimalMaker.update.
  destruct (AnimalMaker.state self) eqn:Hs; [| done | |].
  - destruct (_ && _).
    + intros [-> | ->]%start_processing_state; done.
    + intros [= <- <-]. by rewrite Hs.
  - unfold mbind, M_bind, lift.
    destruct (AnimationManager.update _ _) as [animator | |]; [| done | done].
    intros [= <- <-]. simpl. by destruct (AnimationManager.is_finished _).
  - intros [= <- <-]. by rewrite Hs.
Qed.

(** The frames of an animation without input: the animator receives the
    updates, the state follows it, nothing else changes. *)
Lemma run_animation (fuel : nat) (steps : list (Q * Z)) :
  Forall (λ s : Q * Z, (0 <= s.1)%Q) steps →
  ∀ (self : AnimalMaker.t) (k : nat),
    AnimalMaker.running self = true →
    AnimationManager.in_run (AnimalMaker.animator self) →
    (AnimalMaker.state self
     = if AnimationManager.is_animating (AnimalMaker.animator self)
       then AnimalMaker.ANIMATING else AnimalMaker.DISPLAYING) →
    ∃ self',
      AnimalMaker.run fuel self ((λ s : Q * Z, ([], s.1, s.2)) <$> steps) k
      = Ok (self', k)
      ∧ AnimationManager.updates (AnimalMaker.animator self) (fst <$> steps)
        = Ok (AnimalMaker.animator self')
      ∧ (AnimalMaker.state self'
         = if AnimationManager.is_animating (AnimalMaker.animator self')
           then AnimalMaker.ANIMATING else AnimalMaker.DISPLAYING)
      ∧ AnimalMaker.canvas self' = AnimalMaker.canvas self
      ∧ AnimalMaker.current_animal_image self'
        = AnimalMaker.current_animal_image self
      ∧ AnimalMaker.animal_image_rect self'
        = AnimalMaker.animal_image_rect self.
Proof.
  induction 1 as [| [dt ticks] steps Hdt _ IH]; intros self k Hrun Hin Hstate.
  { exists self. by split_and!. }
  rewrite !fmap_cons. cbn [AnimalMaker.run fst snd AnimationManager.updates].
  rewrite Hrun. unfold mbind at 1, M_bind at 1.
  change (AnimalMaker.handle_events self []) with self.
  unfold AnimalMaker.update. rewrite Hstate.
  destruct (update_in_run (AnimalMaker.animator self) dt Hin Hdt)
    as (animator & Hupd & Hin' & _ & Hsame & _).
  destruct (AnimationManager.is_animating (AnimalMaker.animator self))
    eqn:Hanim.
  - unfold mbind, M_bind, lift. rewrite Hupd.
    match goal with |- context [mret ?m k] => set (mid := m) end.
    unfold mret, M_ret. lazy beta iota.
    destruct (IH mid k) as (self' & Hrest & Hupds & Hst & Hc & Hi & Hr);
      [done | done | |].
    { simpl. unfold AnimationManager.is_finished.
      by destruct (AnimationManager.is_animating animator). }
    exists self'. by split_and!.
  - unfold mret, M_ret. lazy beta iota.
    rewrite (Hsame eq_refl) in Hupd. rewrite Hupd.
    destruct (IH self k) as (self' & Hrest & Hupds & Hst & Hc & Hi & Hr);
      [done | done | by rewrite Hanim |].
    exists self'. by split_and!.
Qed.

End FrameFacts.



(** X23. In state DRAWING, [update] leaves the application untouched
    until there is a drawing and more than 3000 ms have passed since the
    last point; then it runs the recognition at once, in the same call.
    When the drawing has no area to copy, or no animal name is
    recognized (none, or an empty one), the application is left exactly
    as it was, the drawing included, so that the next frame tries
    again. *)
Theorem processing_waits_for_idle {math : MathLib} {rnd : RandomSource}
    {services : AnimalMaker.Services} (fuel : nat) (self : AnimalMaker.t)
    (dt : Q) (ticks : Z) (k : nat) :
  AnimalMaker.state self = AnimalMaker.DRAWING →
  let canvas := AnimalMaker.canvas self in
  let idle := ticks - DrawingCanvas.last_draw_time canvas in
  (DrawingCanvas.drawing_points canvas = [] ∨ idle ≤ 3000 →
   AnimalMaker.update fuel self dt ticks k = Ok (self, k))
  ∧ (DrawingCanvas.drawing_points canvas ≠ [] → 3000 < idle →
     AnimalMaker.update fuel self dt ticks k
     = AnimalMaker.start_processing fuel self k)
  ∧ (DrawingCanvas.get_drawing_surface canvas = None →
     AnimalMaker.update fuel self dt ticks k = Ok (self, k))
  ∧ (∀ area,
       DrawingCanvas.get_drawing_surface canvas = Some area →
       AnimalMaker.recognize_animal_name
         (AnimalMaker.drawing_pixels (DrawingCanvas.canvas canvas) area)
       = None
       ∨ AnimalMaker.recognize_animal_name
           (AnimalMaker.drawing_pixels (DrawingCanvas.canvas canvas) area)
         = Some [] →
       AnimalMaker.update fuel self dt ticks k = Ok (self, k)).
Proof.
  intros Hstate canvas idle.
  assert (Hself : AnimalMaker.set_state self AnimalMaker.DRAWING = self).
  { destruct self. simpl in *. by subst. }
  assert (Hidle :
    DrawingCanvas.has_drawing canvas
    && DrawingCanvas.has_been_idle canvas 3000 ticks = true
    ↔ DrawingCanvas.drawing_points canvas ≠ [] ∧ 3000 < idle).
  { unfold DrawingCanvas.has_drawing, DrawingCanvas.has_been_idle.
    subst idle. destruct (DrawingCanvas.drawing_points canvas); simpl.
    - split; [done | by intros [? _]].
    - rewrite bool_decide_eq_true. split; [done | by intros [_ ?]]. }
  unfold AnimalMaker.update. rewrite Hstate. fold canvas.
  destruct (DrawingCanvas.has_drawing canvas
            && DrawingCanvas.has_been_idle canvas 3000 ticks) eqn:Htrigger.
  - destruct Hidle as [Hidle _]. destruct (Hidle eq_refl) as [Hpoints Hlong].
    split_and!.
    + intros [Hnil | Hshort]; [done | lia].
    + done.
    + intros Hnone. unfold AnimalMaker.start_processing. fold canvas.
      by rewrite Hnone, Hself.
    + intros area Harea Hfail. unfold AnimalMaker.start_processing.
      fold canvas. rewrite Harea.
      destruct Hfail as [-> | ->]; by rewrite Hself.
  - split_and!; try done.
    intros Hpoints Hlong. destruct Hidle as [_ Hidle].
    by specialize (Hidle (conj Hpoints Hlong)).
Qed.

Lemma processing_waits_for_idle_witness :
  AnimalMaker.update (math := example_math) (rnd := example_random)
    (services := example_services) 4 example_drawing_app 0.016 3010 0%nat
  = Ok (example_drawing_app, 0%nat)
  ∧ ∃ self' k',
      AnimalMaker.update (math := example_math) (rnd := example_random)
        (services := example_services) 4 example_drawing_app 0.016 3011 0%nat
      = Ok (self', k')
      ∧ AnimalMaker.state self' = AnimalMaker.ANIMATING.
Proof.
  destruct (processing_waits_for_idle (math := example_math)
              (rnd := example_random) (services := example_services) 4
              example_drawing_app 0.016 3010 0%nat)
    as (Hwait & _); [reflexivity |].
  split.
  - apply Hwait. right. vm_compute. discriminate.
  - do 2 eexists. split; [vm_compute; reflexivity | reflexivity].
Defined.

(** X24. The state PROCESSING never outlives a call. When
    [start_processing], which sets it, returns, the state is DRAWING or
    ANIMATING; and started in any other state, the main loop never
    leaves the application in it after a frame, whatever the events, the
    recognizer and the image manager do. *)
Theorem processing_is_never_observed {math : MathLib} {rnd : RandomSource}
    {services : AnimalMaker.Services} (fuel : nat)
    (frames : list (list (AnimalMaker.Event * Z) * Q * Z))
    (self self' : AnimalMaker.t) (k k' : nat) :
  (AnimalMaker.start_processing fuel self k = Ok (self', k') →
   AnimalMaker.state self' = AnimalMaker.DRAWING
   ∨ AnimalMaker.state self' = AnimalMaker.ANIMATING)
  ∧ (AnimalMaker.state self ≠ AnimalMaker.PROCESSING →
     AnimalMaker.run fuel self frames k = Ok (self', k') →
     AnimalMaker.state self' ≠ AnimalMaker.PROCESSING).
Proof.
  split; [apply start_processing_state |].
  revert self k. induction frames as [| [[events dt] ticks] frames IH];
    intros self k Hstate; cbn [AnimalMaker.run].
  { by intros [= <- <-]. }
  destruct (AnimalMaker.running self); [| by intros [= <- <-]].
  unfold mbind, M_bind.
  destruct (AnimalMaker.update fuel _ dt ticks k) as [[mid k1] | |] eqn:Hupd;
    [| done | done].
  apply IH. eapply update_state; [| exact Hupd].
  destruct (events_only_reset_state self events) as [-> | ->]; done.
Qed.

Lemma processing_is_never_observed_witness :
  ∃ self' k',
    AnimalMaker.run (math := example_math) (rnd := example_random)
      (services := example_services) 4 example_drawing_app
      [([(AnimalMaker.KEYDOWN AnimalMaker.K_TAB, 20)], 0.016%Q, 3011);
       ([], 0.016%Q, 3027)] 0%nat = Ok (self', k')
    ∧ AnimalMaker.state self' ≠ AnimalMaker.PROCESSING.
Proof.
  do 2 eexists. split; [vm_compute; reflexivity |].
  eapply (processing_is_never_observed (math := example_math)
            (rnd := example_random) (services := example_services) 4
            [([(AnimalMaker.KEYDOWN AnimalMaker.K_TAB, 20)], 0.016%Q, 3011);
             ([], 0.016%Q, 3027)] example_drawing_app _ 0%nat).
  - discriminate.
  - vm_compute. reflexivity.
Defined.

(** ** Fitting the image to the drawing *)

(** The truncation of a float that is not negative, between two
    integers. *)
Lemma int_bounds (x : Q) :
  (0 <= x)%Q → (inject_Z (Py.int x) <= x)%Q ∧ (x < inject_Z (Py.int x + 1))%Q.
Proof.
  intros Hx. rewrite int_of_nonneg by done.
  split; [apply Qfloor_le | apply Qlt_floor].
Qed.

Lemma int_le_of_le (x : Q) (b : Z) :
  (0 <= x)%Q → (x <= inject_Z b)%Q → 0 ≤ Py.int x ≤ b.
Proof.
  intros Hlo Hhi. rewrite int_of_nonneg by done.
  apply Qfloor_resp_le in Hlo, Hhi.
  rewrite Qfloor_Z in Hhi. change (Qfloor 0) with 0 in Hlo. lia.
Qed.

Lemma inject_Z_pos (a : Z) : 0 < a → (0 < inject_Z a)%Q.
Proof. intros Ha. unfold Qlt. simpl. lia. Qed.

(** X25. The size [start_animation] gives the image. When the drawing
    bounds have no area the image is left as it is; when they have one,
    an image without width or height makes the division raise
    ZeroDivisionError; otherwise the new size fits into the bounds, comes
    within a pixel of them in width or in height, keeps the proportions
    of the image up to the truncation, and the offset places the image
    inside the bounds, centered up to a pixel. *)
Theorem silhouette_fits_drawing_bounds (x0 y0 x1 y1 orig_w orig_h : Z) :
  (x1 ≤ x0 ∨ y1 ≤ y0 →
   AnimalMaker.fit_to_bounds (x0, y0, x1, y1) orig_w orig_h = Ok None)
  ∧ (x0 < x1 → y0 < y1 → orig_w = 0 ∨ orig_h = 0 →
     AnimalMaker.fit_to_bounds (x0, y0, x1, y1) orig_w orig_h
     = Raise ZeroDivisionError)
  ∧ (x0 < x1 → y0 < y1 → 0 < orig_w → 0 < orig_h →
     ∃ new_w new_h offset_x offset_y : Z,
       AnimalMaker.fit_to_bounds (x0, y0, x1, y1) orig_w orig_h
       = Ok (Some (new_w, new_h, (offset_x, offset_y)))
       ∧ (0 ≤ new_w ≤ x1 - x0 ∧ 0 ≤ new_h ≤ y1 - y0)
       ∧ (x1 - x0 - 1 ≤ new_w ∨ y1 - y0 - 1 ≤ new_h)
       ∧ (new_w * orig_h < (new_h + 2) * orig_w
          ∧ new_h * orig_w < (new_w + 2) * orig_h)
       ∧ (x0 ≤ offset_x ∧ offset_x + new_w ≤ x1)
       ∧ (y0 ≤ offset_y ∧ offset_y + new_h ≤ y1)
       ∧ (-1 ≤ 2 * offset_x + new_w - (x0 + x1) ≤ 1)
       ∧ (-1 ≤ 2 * offset_y + new_h - (y0 + y1) ≤ 1)).
Proof.
  unfold AnimalMaker.fit_to_bounds. split_and!.
  - intros Hflat. rewrite decide_False by lia. done.
  - intros Hx Hy Hzero. rewrite decide_True by lia.
    unfold Py.truediv. destruct Hzero as [-> | ->]; simpl; [done |].
    by destruct (Qeq_bool (inject_Z orig_w) 0).
  - intros Hx Hy Hw Hh. rewrite decide_True by lia.
    set (draw_w := x1 - x0). set (draw_h := y1 - y0).
    assert (Hdw : 0 < draw_w) by (subst draw_w; lia).
    assert (Hdh : 0 < draw_h) by (subst draw_h; lia).
    assert (Hqw : (0 < inject_Z orig_w)%Q)
      by by apply inject_Z_pos.
    assert (Hqh : (0 < inject_Z orig_h)%Q)
      by by apply inject_Z_pos.
    assert (Hqdw : (0 < inject_Z draw_w)%Q)
      by by apply inject_Z_pos.
    assert (Hqdh : (0 < inject_Z draw_h)%Q)
      by by apply inject_Z_pos.
    rewrite !truediv_pos by done.
    set (scale_x := (inject_Z draw_w / inject_Z orig_w)%Q).
    set (scale_y := (inject_Z draw_h / inject_Z orig_h)%Q).
    set (scale := Py.min scale_x scale_y).
    assert (Hsx : (inject_Z orig_w * scale_x == inject_Z draw_w)%Q)
      by (subst scale_x; field; lra).
    assert (Hsy : (inject_Z orig_h * scale_y == inject_Z draw_h)%Q)
      by (subst scale_y; field; lra).
    assert (Hpx : (0 < scale_x)%Q).
    { subst scale_x. apply Qlt_shift_div_l; lra. }
    assert (Hpy : (0 < scale_y)%Q).
    { subst scale_y. apply Qlt_shift_div_l; lra. }
    assert (Hscale : (0 < scale)%Q ∧ (scale <= scale_x)%Q
                     ∧ (scale <= scale_y)%Q
                     ∧ ((scale == scale_x)%Q ∨ (scale == scale_y)%Q)).
    { subst scale.
      destruct (min_cases scale_x scale_y) as [[? ->] | [? ->]];
        split_and!; lra. }
    destruct Hscale as (Hpos & Hlex & Hley & Hwhich).
    set (new_w := Py.int (inject_Z orig_w * scale)).
    set (new_h := Py.int (inject_Z orig_h * scale)).
    assert (Hw0 : (0 <= inject_Z orig_w * scale)%Q) by nra.
    assert (Hh0 : (0 <= inject_Z orig_h * scale)%Q) by nra.
    assert (Hnw : 0 ≤ new_w ≤ draw_w).
    { subst new_w. apply int_le_of_le; [done | nra]. }
    assert (Hnh : 0 ≤ new_h ≤ draw_h).
    { subst new_h. apply int_le_of_le; [done | nra]. }
    destruct (int_bounds _ Hw0) as [Hwlo Hwhi].
    destruct (int_bounds _ Hh0) as [Hhlo Hhhi].
    fold new_w in Hwlo, Hwhi. fold new_h in Hhlo, Hhhi.
    do 4 eexists. split; [reflexivity |].
    split_and!; try lia;
      try (clearbody new_w new_h; subst draw_w draw_h;
           Z.div_mod_to_equations; lia).
    + destruct Hwhich as [Heq | Heq].
      * left.
        assert (Hdw' : (inject_Z orig_w * scale == inject_Z draw_w)%Q)
          by (rewrite Heq; done).
        assert (Hfull : new_w = draw_w)
          by (subst new_w; by rewrite Hdw', int_inject_Z).
        subst draw_w. lia.
      * right.
        assert (Hdh' : (inject_Z orig_h * scale == inject_Z draw_h)%Q)
          by (rewrite Heq; done).
        assert (Hfull : new_h = draw_h)
          by (subst new_h; by rewrite Hdh', int_inject_Z).
        subst draw_h. lia.
    + rewrite Zlt_Qlt, !inject_Z_mult, inject_Z_plus.
      rewrite inject_Z_plus in Hhhi. change (inject_Z 1) with 1%Q in *.
      change (inject_Z 2) with 2%Q.
      assert (H1 : (inject_Z new_w * inject_Z orig_h
                    <= inject_Z orig_w * scale * inject_Z orig_h)%Q)
        by (apply Qmult_le_compat_r; lra).
      assert (H2 : (inject_Z orig_w * (inject_Z orig_h * scale)
                    < inject_Z orig_w * (inject_Z new_h + 1))%Q)
        by (apply Qmult_lt_l; lra).
      lra.
    + rewrite Zlt_Qlt, !inject_Z_mult, inject_Z_plus.
      rewrite inject_Z_plus in Hwhi. change (inject_Z 1) with 1%Q in *.
      change (inject_Z 2) with 2%Q.
      assert (H1 : (inject_Z new_h * inject_Z orig_w
                    <= inject_Z orig_h * scale * inject_Z orig_w)%Q)
        by (apply Qmult_le_compat_r; lra).
      assert (H2 : (inject_Z orig_h * (inject_Z orig_w * scale)
                    < inject_Z orig_h * (inject_Z new_w + 1))%Q)
        by (apply Qmult_lt_l; lra).
      lra.
Qed.

Lemma silhouette_fits_drawing_bounds_witness :
  AnimalMaker.fit_to_bounds (80, 80, 170, 140) 400 400
  = Ok (Some (60, 60, (95, 80))).
Proof.
  destruct (silhouette_fits_drawing_bounds 80 80 170 140 400 400)
    as (_ & _ & Hfit).
  destruct Hfit as (new_w & new_h & offset_x & offset_y & Heq & _);
    [lia | lia | lia | lia |].
  rewrite Heq. vm_compute in Heq. inversion Heq. reflexivity.
Defined.

(** ** The edit distance *)

Section EditDistance.
Import OCRRecognizer.

Lemma levenshtein_nil_r (s : str) : levenshtein s [] = length s.
Proof. by destruct s. Qed.

Lemma levenshtein_cons (c d : Ascii.ascii) (s t : str) :
  levenshtein (c :: s) (d :: t)
  = Nat.min (Nat.min (levenshtein s (d :: t) + 1) (levenshtein (c :: s) t + 1))
      (levenshtein s t + (if bool_decide (c ≠ d) then 1 else 0)).
Proof. reflexivity. Qed.

Lemma edits_insert_all (t : str) : edits (length t) [] t.
Proof.
  induction t as [| d t IH]; simpl; [constructor | by constructor].
Qed.

Lemma edits_delete_all (s : str) : edits (length s) s [].
Proof.
  induction s as [| c s IH]; simpl; [constructor | by constructor].
Qed.

(** The recursion yields a number of edits that do turn [s] into [t]. *)
Lemma levenshtein_edits (s : str) : ∀ t, edits (levenshtein s t) s t.
Proof.
  induction s as [| c s IHs]; intros t.
  { apply edits_insert_all. }
  induction t as [| d t IHt].
  { rewrite levenshtein_nil_r. apply edits_delete_all. }
  rewrite levenshtein_cons.
  set (a := (levenshtein s (d :: t) + 1)%nat).
  set (b := (levenshtein (c :: s) t + 1)%nat).
  set (e := (levenshtein s t + (if bool_decide (c ≠ d) then 1 else 0))%nat).
  assert (Ha : edits a (c :: s) (d :: t)).
  { subst a. rewrite Nat.add_1_r. apply edits_delete, IHs. }
  assert (Hb : edits b (c :: s) (d :: t)).
  { subst b. rewrite Nat.add_1_r. by apply edits_insert. }
  assert (He : edits e (c :: s) (d :: t)).
  { subst e. case_bool_decide as Hcd.
    - rewrite Nat.add_1_r. apply edits_substitute, IHs.
    - subst d. rewrite Nat.add_0_r. apply edits_keep, IHs. }
  destruct (Nat.min_spec (Nat.min a b) e) as [[_ ->] | [_ ->]]; [| done].
  destruct (Nat.min_spec a b) as [[_ ->] | [_ ->]]; done.
Qed.

(** No sequence of edits is shorter. *)
Lemma levenshtein_least (n : nat) (s t : str) :
  edits n s t → (levenshtein s t ≤ n)%nat.
Proof.
  induction 1 as [| c s t n _ IH | c d s t n _ IH | c s t n _ IH
                  | d s t n _ IH].
  - done.
  - rewrite levenshtein_cons, bool_decide_eq_false_2 by (intros ?; done).
    lia.
  - rewrite levenshtein_cons. case_bool_decide; lia.
  - destruct t as [| d t].
    + rewrite levenshtein_nil_r in *. simpl. lia.
    + rewrite levenshtein_cons. lia.
  - destruct s as [| c s].
    + simpl in *. lia.
    + rewrite levenshtein_cons. lia.
Qed.

Lemma edits_app (n m : nat) (s t s' t' : str) :
  edits n s t → edits m s' t' → edits (n + m) (s ++ s') (t ++ t').
Proof.
  intros Hn Hm. induction Hn; simpl; [done | by constructor ..].
Qed.

Lemma edits_rev (n : nat) (s t : str) : edits n s t → edits n (rev s) (rev t).
Proof.
  induction 1 as [| c s t n _ IH | c d s t n _ IH | c s t n _ IH
                  | d s t n _ IH]; simpl.
  - constructor.
  - rewrite <- (Nat.add_0_r n). apply edits_app; [done |].
    repeat constructor.
  - rewrite <- Nat.add_1_r. apply edits_app; [done |].
    repeat constructor.
  - rewrite <- Nat.add_1_r, <- (app_nil_r (rev t)).
    apply edits_app; [done |]. repeat constructor.
  - rewrite <- Nat.add_1_r, <- (app_nil_r (rev s)).
    apply edits_app; [done |]. repeat constructor.
Qed.

Lemma edits_sym (n : nat) (s t : str) : edits n s t → edits n t s.
Proof. induction 1; by constructor. Qed.

Lemma levenshtein_rev (s t : str) :
  levenshtein (rev s) (rev t) = levenshtein s t.
Proof.
  apply Nat.le_antisymm; apply levenshtein_least.
  - apply edits_rev, levenshtein_edits.
  - pose proof (edits_rev _ _ _ (levenshtein_edits (rev s) (rev t))) as Hrev.
    by rewrite !rev_involutive in Hrev.
Qed.

Lemma levenshtein_sym (s t : str) : levenshtein s t = levenshtein t s.
Proof.
  apply Nat.le_antisymm; apply levenshtein_least, edits_sym, levenshtein_edits.
Qed.

(** The row of the table for the reversed prefix [p1] of the first
    string, up to column [n]. *)
Local Abbreviation row p1 s2 n :=
  ((λ j : nat, levenshtein p1 (rev (take j s2))) <$> seq 0 n).

Lemma inner_loop_row (c1 : Ascii.ascii) (p1 s2 : str) :
  ∀ (rest p2 : str),
    s2 = rev p2 ++ rest →
    inner_loop c1 rest (length p2) (row p1 s2 (S (length s2)))
      (row (c1 :: p1) s2 (S (length p2)))
    = Some (row (c1 :: p1) s2 (S (length s2))).
Proof.
  induction rest as [| c2 rest IH]; intros p2 Hs2.
  { simpl. rewrite app_nil_r in Hs2.
    by rewrite Hs2, length_rev. }
  cbn [inner_loop].
  assert (Hlen : length s2 = (length p2 + S (length rest))%nat).
  { rewrite Hs2, length_app, length_rev. done. }
  assert (Htake : take (length p2) s2 = rev p2).
  { rewrite Hs2, take_app_length'; [done | by rewrite length_rev]. }
  assert (Htake' : take (S (length p2)) s2 = rev p2 ++ [c2]).
  { rewrite Hs2.
    replace (rev p2 ++ c2 :: rest) with ((rev p2 ++ [c2]) ++ rest)
      by by rewrite <- app_assoc.
    rewrite take_app_length'; [done |].
    rewrite length_app, length_rev. simpl. lia. }
  assert (Hl1 : row p1 s2 (S (length s2)) !! (length p2 + 1)%nat
                = Some (levenshtein p1 (c2 :: p2))).
  { rewrite list_lookup_fmap, lookup_seq_lt by lia.
    rewrite Nat.add_0_l, Nat.add_1_r. cbn [fmap option_fmap option_map].
    by rewrite Htake', rev_app_distr, rev_involutive. }
  assert (Hl2 : row (c1 :: p1) s2 (S (length p2)) !! length p2
                = Some (levenshtein (c1 :: p1) p2)).
  { rewrite list_lookup_fmap, lookup_seq_lt by lia.
    rewrite Nat.add_0_l. cbn [fmap option_fmap option_map].
    by rewrite Htake, rev_involutive. }
  assert (Hl3 : row p1 s2 (S (length s2)) !! length p2
                = Some (levenshtein p1 p2)).
  { rewrite list_lookup_fmap, lookup_seq_lt by lia.
    rewrite Nat.add_0_l. cbn [fmap option_fmap option_map].
    by rewrite Htake, rev_involutive. }
  rewrite Hl1, Hl2, Hl3.
  cbn [fmap option_fmap option_map mbind option_bind].
  specialize (IH (c2 :: p2)).
  cbn [rev length] in IH. rewrite <- app_assoc in IH. specialize (IH Hs2).
  rewrite <- IH. f_equal.
  rewrite (seq_S (S (length p2))), fmap_app. f_equal.
  rewrite Nat.add_0_l. cbn [fmap list_fmap].
  rewrite Htake', rev_app_distr, rev_involutive. cbn [rev app].
  by rewrite levenshtein_cons.
Qed.

Lemma outer_loop_row (s2 : str) :
  ∀ (rest p1 : str),
    outer_loop rest (length p1) s2 (row p1 s2 (S (length s2)))
    = Some (row (rev rest ++ p1) s2 (S (length s2))).
Proof.
  induction rest as [| c1 rest IH]; intros p1; [done |].
  cbn [outer_loop].
  pose proof (inner_loop_row c1 p1 s2 s2 [] eq_refl) as Hinner.
  simpl in Hinner.
  replace [(length p1 + 1)%nat]
    with [levenshtein (c1 :: p1) (rev (take 0 s2))]
    by (rewrite take_0; simpl; f_equal; lia).
  simpl. rewrite Hinner. simpl.
  specialize (IH (c1 :: p1)). simpl in IH. rewrite IH.
  by rewrite <- app_assoc.
Qed.

Lemma distance_rows_levenshtein (s1 s2 : str) :
  distance_rows s1 s2 = Ok (levenshtein s1 s2).
Proof.
  unfold distance_rows.
  destruct (Nat.eqb_spec (length s2) 0) as [Hzero | Hpos].
  { apply nil_length_inv in Hzero as ->. by rewrite levenshtein_nil_r. }
  pose proof (outer_loop_row s2 s1 []) as Houter.
  change (length (@nil Ascii.ascii)) with O in Houter.
  rewrite app_nil_r in Houter.
  assert (Hfirst : seq 0 (length s2 + 1)
                   = (λ j : nat, levenshtein [] (rev (take j s2)))
                       <$> seq 0 (S (length s2))).
  { rewrite Nat.add_1_r. apply list_eq. intros j.
    rewrite list_lookup_fmap.
    destruct (decide (j < S (length s2))%nat) as [Hlt | Hge].
    - rewrite lookup_seq_lt by done. simpl.
      rewrite length_rev, length_take. f_equal. lia.
    - rewrite lookup_seq_ge by lia. done. }
  rewrite Hfirst, Houter.
  rewrite seq_S, fmap_app. cbn [fmap list_fmap]. rewrite last_snoc.
  rewrite Nat.add_0_l, take_ge by done. by rewrite levenshtein_rev.
Qed.

End EditDistance.

(** X26. [simple_edit_distance] never fails and returns the Levenshtein
    distance of its two strings: that many insertions, deletions and
    substitutions of one character turn the first string into the
    second, and no sequence of such edits is shorter. The distance is
    therefore symmetric, 0 exactly for equal strings, and between the
    difference of the two lengths and the greater length. *)
Theorem edit_distance_is_levenshtein (s1 s2 : str) :
  ∃ distance : nat,
    OCRRecognizer.simple_edit_distance s1 s2 = Ok distance
    ∧ OCRRecognizer.edits distance s1 s2
    ∧ (∀ n, OCRRecognizer.edits n s1 s2 → (distance ≤ n)%nat)
    ∧ OCRRecognizer.simple_edit_distance s2 s1 = Ok distance
    ∧ (distance = O ↔ s1 = s2)
    ∧ (length s1 - length s2 ≤ distance)%nat
    ∧ (length s2 - length s1 ≤ distance)%nat
    ∧ (distance ≤ Nat.max (length s1) (length s2))%nat.
Proof.
  assert (Hdist : ∀ a b : str,
            OCRRecognizer.simple_edit_distance a b
            = Ok (OCRRecognizer.levenshtein a b)).
  { intros a b. unfold OCRRecognizer.simple_edit_distance.
    destruct (length a <? length b)%nat;
      rewrite distance_rows_levenshtein; [| done].
    by rewrite levenshtein_sym. }
  assert (Hlen : ∀ (n : nat) (a b : str),
            OCRRecognizer.edits n a b →
            (length a ≤ length b + n ∧ length b ≤ length a + n)%nat).
  { intros n a b. induction 1; simpl; lia. }
  assert (Hmax : ∀ a b : str,
            OCRRecognizer.edits (Nat.max (length a) (length b)) a b).
  { induction a as [| c a IH]; intros b.
    - simpl. apply edits_insert_all.
    - destruct b as [| d b].
      + rewrite Nat.max_0_r. apply edits_delete_all.
      + simpl. apply OCRRecognizer.edits_substitute, IH. }
  assert (Hzero : ∀ a b : str, OCRRecognizer.edits 0 a b → a = b).
  { intros a b. remember O as n eqn:Hn. induction 1; try done.
    f_equal. auto. }
  assert (Hrefl : ∀ a : str, OCRRecognizer.edits 0 a a).
  { induction a; by constructor. }
  exists (OCRRecognizer.levenshtein s1 s2).
  pose proof (levenshtein_edits s1 s2) as Hedits.
  destruct (Hlen _ _ _ Hedits) as [H12 H21].
  split_and!; try done; try lia.
  - intros n Hn. by apply levenshtein_least.
  - by rewrite Hdist, levenshtein_sym.
  - split.
    + intros Hz. rewrite Hz in Hedits. by apply Hzero.
    + intros ->. pose proof (levenshtein_least _ _ _ (Hrefl s2)). lia.
  - apply levenshtein_least, Hmax.
Qed.

Lemma simple_edit_distance_levenshtein (s1 s2 : str) :
  OCRRecognizer.simple_edit_distance s1 s2
  = Ok (OCRRecognizer.levenshtein s1 s2).
Proof.
  unfold OCRRecognizer.simple_edit_distance.
  destruct (length s1 <? length s2)%nat;
    rewrite distance_rows_levenshtein; [| done].
  by rewrite levenshtein_sym.
Qed.

(** ** The closest animal *)

(** The loop over the animals, entered with a best match found before
    (or with none): it returns, and what it returns is within the limit,
    no farther from the word than any animal of the list and than the
    match it was entered with. *)
Lemma closest_animal_spec (word : str) (limit : nat) (names : list str) :
  ∀ (best_match : option str) (min_distance : option nat),
    match min_distance with
    | None => best_match = None
    | Some m =>
        ∃ b, best_match = Some b
             ∧ OCRRecognizer.levenshtein word b = m ∧ (m ≤ limit)%nat
    end →
    ∃ result,
      OCRRecognizer.closest_animal word names limit best_match min_distance
      = Ok result
      ∧ match result with
        | None =>
            best_match = None
            ∧ Forall (λ animal,
                        (limit < OCRRecognizer.levenshtein word animal)%nat)
                names
        | Some animal =>
            (animal ∈ names ∨ best_match = Some animal)
            ∧ (OCRRecognizer.levenshtein word animal ≤ limit)%nat
            ∧ Forall (λ other,
                        (OCRRecognizer.levenshtein word animal
                         ≤ OCRRecognizer.levenshtein word other)%nat
                        ∨ (limit < OCRRecognizer.levenshtein word other)%nat)
                names
            ∧ (∀ m, min_distance = Some m →
                    (OCRRecognizer.levenshtein word animal ≤ m)%nat)
        end.
Proof.
  induction names as [| animal names IH]; intros best_match min_distance Hinv.
  { simpl. exists best_match. split; [done |].
    destruct best_match as [b |].
    - destruct min_distance as [m |]; [| done].
      destruct Hinv as (b' & [= <-] & Hb & Hm).
      split_and!; [by right | lia | constructor |].
      intros m' [= <-]. lia.
    - split; [done | constructor]. }
  cbn [OCRRecognizer.closest_animal].
  rewrite simple_edit_distance_levenshtein.
  set (distance := OCRRecognizer.levenshtein word animal).
  destruct (match min_distance with
            | Some m => (distance <? m)%nat
            | None => true
            end && (distance <=? limit)%nat) eqn:Htake.
  - apply andb_true_iff in Htake as [Hbelow Hlimit%Nat.leb_le].
    destruct (IH (Some animal) (Some distance)) as (result & Hres & Hspec).
    { exists animal. done. }
    exists result. split; [done |].
    destruct result as [found |]; [| by destruct Hspec].
    destruct Hspec as (Hin & Hle & Hall & Hmin).
    specialize (Hmin distance eq_refl).
    split_and!.
    + left. destruct Hin as [Hin | [= <-]];
        [by apply list_elem_of_further | apply list_elem_of_here].
    + done.
    + constructor; [by left | done].
    + intros m ->. apply Nat.ltb_lt in Hbelow. lia.
  - destruct (IH best_match min_distance Hinv) as (result & Hres & Hspec).
    exists result. split; [done |].
    apply andb_false_iff in Htake.
    destruct result as [found |].
    + destruct Hspec as (Hin & Hle & Hall & Hmin).
      split_and!; [| done | | done].
      * destruct Hin as [Hin | Hin]; [left; by apply list_elem_of_further |].
        by right.
      * constructor; [| done].
        destruct Htake as [Hnot | Hfar%Nat.leb_gt]; [| by right].
        destruct min_distance as [m |]; [| done].
        apply Nat.ltb_ge in Hnot. left. specialize (Hmin m eq_refl).
        fold distance. lia.
    + destruct Hspec as [-> Hall]. split; [done |].
      constructor; [| done].
      destruct min_distance as [m |]; [by destruct Hinv as (? & ? & _) |].
      destruct Htake as [Hnot | Hfar%Nat.leb_gt]; done.
Qed.

(** X29. [suggest_closest_animal] never fails. For a word of fewer than
    two characters it suggests nothing; otherwise it suggests an animal
    name whose edit distance to the lower-cased word is at most 3 and
    not greater than that of any other name, and it suggests nothing
    exactly when every name is farther than 3. *)
Theorem suggestion_is_closest (names : list str) (word : str) :
  ∃ result,
    OCRRecognizer.suggest_closest_animal names word = Ok result
    ∧ match result with
      | Some animal =>
          (2 ≤ length word)%nat
          ∧ animal ∈ names
          ∧ ∃ distance,
              OCRRecognizer.simple_edit_distance
                (OCRRecognizer.lower word) animal = Ok distance
              ∧ (distance ≤ 3)%nat
              ∧ ∀ other, other ∈ names →
                  ∃ d, OCRRecognizer.simple_edit_distance
                         (OCRRecognizer.lower word) other = Ok d
                       ∧ (distance ≤ d)%nat
      | None =>
          (length word < 2)%nat
          ∨ ∀ other, other ∈ names →
              ∃ d, OCRRecognizer.simple_edit_distance
                     (OCRRecognizer.lower word) other = Ok d
                   ∧ (3 < d)%nat
      end.
Proof.
  unfold OCRRecognizer.suggest_closest_animal.
  destruct (Nat.ltb_spec (length word) 2) as [Hshort | Hlong].
  { exists None. split; [done | by left]. }
  destruct (closest_animal_spec (OCRRecognizer.lower word) 3 names None None
              eq_refl) as (result & Hres & Hspec).
  exists result. split; [done |].
  destruct result as [animal |].
  - destruct Hspec as (Hin & Hle & Hall & _).
    split_and!; [done | by destruct Hin |].
    eexists. split; [apply simple_edit_distance_levenshtein |].
    split; [done |]. intros other Hother.
    eexists. split; [apply simple_edit_distance_levenshtein |].
    rewrite Forall_forall in Hall. destruct (Hall other Hother); lia.
  - destruct Hspec as [_ Hall]. right. intros other Hother.
    eexists. split; [apply simple_edit_distance_levenshtein |].
    rewrite Forall_forall in Hall. by apply Hall.
Qed.

(** ** Matching a text *)

Lemma partial_match_in (names words : list str) (animal : str) :
  OCRRecognizer.partial_match names words = Some animal → animal ∈ names.
Proof.
  unfold OCRRecognizer.partial_match. intros Hhead.
  apply head_Some_elem_of in Hhead.
  apply list_elem_of_bind in Hhead as (word & Hin & _).
  apply list_elem_of_bind in Hin as (a & Hin & Ha).
  destruct (_ && _); [| by apply elem_of_nil in Hin].
  by apply list_elem_of_singleton in Hin as ->.
Qed.

Lemma partial_match_short (names words : list str) :
  Forall (λ word : str, (length word < 3)%nat) words →
  OCRRecognizer.partial_match names words = None.
Proof.
  intros Hshort. unfold OCRRecognizer.partial_match.
  apply head_None. apply elem_of_nil_inv. intros animal Hin.
  apply list_elem_of_bind in Hin as (word & Hin & Hword).
  apply list_elem_of_bind in Hin as (a & Hin & Ha).
  rewrite Forall_forall in Hshort. specialize (Hshort word Hword).
  destruct (Nat.leb_spec 3 (length word)); [lia |].
  by apply elem_of_nil in Hin.
Qed.

Lemma fuzzy_match_spec (names words : list str) :
  ∃ result,
    OCRRecognizer.fuzzy_match names words = Ok result
    ∧ match list_find (λ word : str, (3 ≤ length word)%nat) words with
      | None => result = None
      | Some (_, word) =>
          match result with
          | Some animal =>
              animal ∈ names
              ∧ (OCRRecognizer.levenshtein word animal ≤ 2)%nat
              ∧ Forall (λ other,
                          (OCRRecognizer.levenshtein word animal
                           ≤ OCRRecognizer.levenshtein word other)%nat)
                  names
          | None =>
              Forall (λ other,
                        (2 < OCRRecognizer.levenshtein word other)%nat) names
          end
      end.
Proof.
  unfold OCRRecognizer.fuzzy_match.
  destruct (list_find _ words) as [[i word] |]; [| by exists None].
  destruct (closest_animal_spec word 2 names None None eq_refl)
    as (result & Hres & Hspec).
  exists result. split; [done |].
  destruct result as [animal |].
  - destruct Hspec as (Hin & Hle & Hall & _).
    split_and!; [by destruct Hin | done |].
    eapply Forall_impl; [exact Hall |]. simpl. intros other Hother. lia.
  - by destruct Hspec.
Qed.

(** X27. [find_best_animal_match] never fails and answers with an animal
    of the list or with nothing. When a word of the text is an animal
    name, the answer is the first such word, whatever else the text
    holds; when no word has three characters or more and none is an
    animal name, the answer is nothing. *)
Theorem best_match_prefers_exact_words (names : list str)
    (recognized_text : str) :
  let words := OCRRecognizer.split recognized_text in
  ∃ result,
    OCRRecognizer.find_best_animal_match names recognized_text = Ok result
    ∧ (∀ animal, result = Some animal → animal ∈ names)
    ∧ (∀ (i : nat) (word : str),
         words !! i = Some word → word ∈ names →
         (∀ (j : nat) (earlier : str),
            (j < i)%nat → words !! j = Some earlier → earlier ∉ names) →
         result = Some word)
    ∧ (Forall (λ word : str, (word ∉ names) ∧ (length word < 3)%nat) words →
       result = None).
Proof.
  intros words. unfold OCRRecognizer.find_best_animal_match.
  destruct recognized_text as [| c text].
  { exists None. split_and!; done. }
  fold words.
  destruct (list_find (λ word : str, word ∈ names) words)
    as [[i0 word0] |] eqn:Hexact.
  - apply list_find_Some in Hexact as (Hword0 & Hin0 & Hfirst).
    exists (Some word0). split_and!; try done.
    + by intros animal [= <-].
    + intros i word Hword Hin Hearlier.
      destruct (Nat.lt_trichotomy i i0) as [Hlt | [-> | Hgt]].
      * by destruct (Hfirst i word Hword Hlt).
      * congruence.
      * by destruct (Hearlier i0 word0 Hgt Hword0).
    + intros Hnone. rewrite Forall_forall in Hnone.
      destruct (Hnone word0); [by eapply list_elem_of_lookup_2 | done].
  - assert (Hnone : ∀ word, word ∈ words → word ∉ names).
    { intros word Hword Hin.
      apply list_elem_of_lookup in Hword as [i Hi].
      eapply list_find_None in Hexact. rewrite Forall_forall in Hexact.
      eapply Hexact; [by eapply list_elem_of_lookup_2 | done]. }
    destruct (OCRRecognizer.partial_match names words) as [animal |]
      eqn:Hpartial.
    + exists (Some animal). split_and!; try done.
      * intros a [= <-]. by eapply partial_match_in.
      * intros i word Hword Hin. exfalso.
        eapply Hnone; [by eapply list_elem_of_lookup_2 | done].
      * intros Hshort. rewrite partial_match_short in Hpartial; [done |].
        eapply Forall_impl; [exact Hshort |]. by intros word [_ ?].
    + destruct (fuzzy_match_spec names words) as (result & Hres & Hspec).
      exists result. split_and!; try done.
      * intros animal ->.
        destruct (list_find (λ word : str, (3 ≤ length word)%nat) words)
          as [[i word] |]; [| done].
        by destruct Hspec.
      * intros i word Hword Hin. exfalso.
        eapply Hnone; [by eapply list_elem_of_lookup_2 | done].
      * intros Hshort.
        destruct (list_find (λ word : str, (3 ≤ length word)%nat) words)
          as [[i word] |] eqn:Hlong; [| done].
        apply list_find_Some in Hlong as (Hword & Hlen & _).
        rewrite Forall_forall in Hshort.
        destruct (Hshort word); [by eapply list_elem_of_lookup_2 | lia].
Qed.

(** X28. The fuzzy stage of [find_best_animal_match] reads one word
    only. When no word of the text is an animal name and no word of
    three characters or more contains an animal name or is contained in
    one, the answer is decided by the first word of three characters or
    more: it is an animal name at edit distance at most 2 from that
    word, and no other name is nearer; it is nothing when every name
    is farther than 2 from that word, however near a later word of the
    text may be to an animal name. *)
Theorem fuzzy_match_reads_first_long_word (names : list str)
    (recognized_text : str) (i : nat) (word : str) :
  let words := OCRRecognizer.split recognized_text in
  words !! i = Some word →
  (3 ≤ length word)%nat →
  (∀ (j : nat) (earlier : str),
     (j < i)%nat → words !! j = Some earlier → (length earlier < 3)%nat) →
  Forall (λ w : str, w ∉ names) words →
  OCRRecognizer.partial_match names words = None →
  ∃ result,
    OCRRecognizer.find_best_animal_match names recognized_text = Ok result
    ∧ match result with
      | Some animal =>
          animal ∈ names
          ∧ ∃ distance,
              OCRRecognizer.simple_edit_distance word animal = Ok distance
              ∧ (distance ≤ 2)%nat
              ∧ ∀ other, other ∈ names →
                  ∃ d, OCRRecognizer.simple_edit_distance word other = Ok d
                       ∧ (distance ≤ d)%nat
      | None =>
          ∀ other, other ∈ names →
            ∃ d, OCRRecognizer.simple_edit_distance word other = Ok d
                 ∧ (2 < d)%nat
      end.
Proof.
  intros words Hword Hlen Hfirst Hexact Hpartial.
  unfold OCRRecognizer.find_best_animal_match.
  destruct recognized_text as [| c text].
  { subst words. by destruct i. }
  fold words.
  destruct (list_find (λ word : str, word ∈ names) words)
    as [[i0 word0] |] eqn:Hfind.
  { apply list_find_Some in Hfind as (Hword0 & Hin0 & _).
    rewrite Forall_forall in Hexact.
    destruct (Hexact word0); [by eapply list_elem_of_lookup_2 | done]. }
  rewrite Hpartial.
  destruct (fuzzy_match_spec names words) as (result & Hres & Hspec).
  assert (Hlong : list_find (λ word : str, (3 ≤ length word)%nat) words
                  = Some (i, word)).
  { apply list_find_Some. split_and!; [done | done |].
    intros j earlier Hj Hlt. specialize (Hfirst j earlier Hlt Hj). lia. }
  rewrite Hlong in Hspec.
  exists result. split; [done |].
  destruct result as [animal |].
  - destruct Hspec as (Hin & Hle & Hall). split; [done |].
    eexists. split; [apply simple_edit_distance_levenshtein |].
    split; [done |]. intros other Hother.
    eexists. split; [apply simple_edit_distance_levenshtein |].
    rewrite Forall_forall in Hall. by apply Hall.
  - intros other Hother.
    eexists. split; [apply simple_edit_distance_levenshtein |].
    rewrite Forall_forall in Hspec. by apply Hspec.
Qed.

Lemma fuzzy_match_reads_first_long_word_witness :
  OCRRecognizer.find_best_animal_match OCRRecognizer.animal_names
    example_text = Ok None
  ∧ OCRRecognizer.simple_edit_distance (String.list_ascii_of_string "cot")
      (String.list_ascii_of_string "cat") = Ok 1%nat.
Proof.
  split; [| reflexivity].
  destruct (fuzzy_match_reads_first_long_word OCRRecognizer.animal_names
              example_text 0 (String.list_ascii_of_string "zzzzzz"))
    as (result & Hres & _).
  - reflexivity.
  - simpl. lia.
  - intros j earlier Hj. lia.
  - apply (bool_decide_unpack _). by vm_compute.
  - vm_compute. reflexivity.
  - rewrite Hres. vm_compute in Hres. inversion Hres. reflexivity.
Defined.

(** ** From the recognized texts to the animal *)

Lemma find_best_animal_match_in (names : list str) (recognized_text : str) :
  ∃ result,
    OCRRecognizer.find_best_animal_match names recognized_text = Ok result
    ∧ ∀ animal, result = Some animal → animal ∈ names.
Proof.
  unfold OCRRecognizer.find_best_animal_match.
  destruct recognized_text as [| c text]; [by exists None |].
  set (words := OCRRecognizer.split (c :: text)).
  destruct (list_find (λ word : str, word ∈ names) words)
    as [[i word] |] eqn:Hexact.
  { apply list_find_Some in Hexact as (_ & Hin & _).
    exists (Some word). split; [done |]. by intros animal [= <-]. }
  destruct (OCRRecognizer.partial_match names words) as [animal |]
    eqn:Hpartial.
  { exists (Some animal). split; [done |].
    intros a [= <-]. by eapply partial_match_in. }
  destruct (fuzzy_match_spec names words) as (result & Hres & Hspec).
  exists result. split; [done |]. intros animal ->.
  destruct (list_find (λ word : str, (3 ≤ length word)%nat) words)
    as [[i word] |]; [| done].
  by destruct Hspec.
Qed.

Lemma best_match_none_without_words (names : list str)
    (recognized_text : str) :
  OCRRecognizer.split recognized_text = [] →
  ∃ result,
    OCRRecognizer.find_best_animal_match names recognized_text = Ok result
    ∧ result = None.
Proof.
  intros Hnil. unfold OCRRecognizer.find_best_animal_match.
  destruct recognized_text as [| c text]; [by exists None |].
  rewrite Hnil. by exists None.
Qed.

Lemma suggest_closest_animal_in (names : list str) (word : str) :
  ∃ result,
    OCRRecognizer.suggest_closest_animal names word = Ok result
    ∧ ∀ animal, result = Some animal → animal ∈ names.
Proof.
  unfold OCRRecognizer.suggest_closest_animal.
  destruct (length word <? 2)%nat; [by exists None |].
  destruct (closest_animal_spec (OCRRecognizer.lower word) 3 names None None
              eq_refl) as (result & Hres & Hspec).
  exists result. split; [done |]. intros animal ->.
  by destruct Hspec as ([Hin | Hin] & _).
Qed.

Lemma first_match_in (names : list str) (recognized_texts : list str) :
  ∃ result,
    OCRRecognizer.first_match names recognized_texts = Ok result
    ∧ (∀ animal, result = Some animal → animal ∈ names ∧ animal ≠ [])
    ∧ (Forall (λ text : str, OCRRecognizer.split text = [])
         recognized_texts → result = None).
Proof.
  induction recognized_texts as [| text texts (result & Hres & Hin & Hblank)];
    simpl.
  { exists None. by split_and!. }
  destruct (find_best_animal_match_in names text)
    as (found & Hfbam & Hfound).
  rewrite Hfbam.
  assert (Hsplit : OCRRecognizer.split text = [] → found = None).
  { intros Hnil.
    destruct (best_match_none_without_words names text Hnil)
      as (found' & Hres' & ->).
    congruence. }
  destruct found as [[| c animal] |].
  - exists result. split_and!; [done | done |].
    intros [_ Hrest]%Forall_cons. auto.
  - exists (Some (c :: animal)). split_and!; [done | |].
    + intros a [= <-]. split; [by apply Hfound | done].
    + intros [Hnil _]%Forall_cons. by specialize (Hsplit Hnil).
  - exists result. split_and!; [done | done |].
    intros [_ Hrest]%Forall_cons. auto.
Qed.

Lemma first_suggestion_in (names : list str) (recognized_texts : list str) :
  ∃ result,
    OCRRecognizer.first_suggestion names recognized_texts = Ok result
    ∧ (∀ animal, result = Some animal → animal ∈ names ∧ animal ≠ [])
    ∧ (Forall (λ text : str, OCRRecognizer.split text = [])
         recognized_texts → result = None).
Proof.
  induction recognized_texts as [| text texts (result & Hres & Hin & Hblank)];
    simpl.
  { exists None. by split_and!. }
  destruct (OCRRecognizer.split text) as [| word words] eqn:Hsplit.
  { exists result. split_and!; [done | done |].
    intros [_ Hrest]%Forall_cons. auto. }
  destruct (suggest_closest_animal_in names word) as (found & -> & Hfound).
  destruct found as [[| c animal] |].
  - exists result. split_and!; [done | done |].
    intros [Hnil _]%Forall_cons. congruence.
  - exists (Some (c :: animal)). split_and!; [done | |].
    + intros a [= <-]. split; [by apply Hfound | done].
    + intros [Hnil _]%Forall_cons. congruence.
  - exists result. split_and!; [done | done |].
    intros [Hnil _]%Forall_cons. congruence.
Qed.

(** X30. Whatever texts the two engines return, the rest of
    [recognize_animal_name] never fails and answers with nothing or with
    a non-empty name taken from the list of animals; it answers with
    nothing when the engines return no text or only whitespace. *)
Theorem recognized_name_is_an_animal (names : list str)
    (recognized_texts : list str) :
  ∃ result,
    OCRRecognizer.recognize_from_texts names recognized_texts = Ok result
    ∧ (∀ animal, result = Some animal → animal ∈ names ∧ animal ≠ [])
    ∧ (Forall (λ text : str, OCRRecognizer.split text = [])
         recognized_texts → result = None).
Proof.
  unfold OCRRecognizer.recognize_from_texts.
  destruct (first_match_in names recognized_texts)
    as (found & -> & Hfound & Hblank).
  destruct found as [animal |].
  - exists (Some animal). split_and!; [done | done |].
    intros Hall. by specialize (Hblank Hall).
  - apply first_suggestion_in.
Qed.
